(** * CPU scheduling simulator: the scheduling engine

    A shallow embedding of [scheduling_algorithms.py] (the four entry points
    [fcfs], [sjf], [round_robin] and [priority_scheduling]) and of the guard
    of [app.run_scheduler], together with the properties of the engine.

    - A pandas DataFrame is a [Frame]: its rows (one [Process] per row, row
      [i] is [df.loc[i]]) and the metric columns assigned to it by name.
    - A Python list indexed by row ([completion_time], [is_completed],
      [remaining_burst_time]) is a list read with [!!!] and written with
      [<[i:=x]>].
    - [float('inf')] is [None] in an [option Z]; the index [-1] is [None] in
      an [option nat].
    - Numbers are Python integers, unbounded: [Z].
    - A [while] loop is iterated with fuel: [Spin] says that the loop has not
      left within the fuel.
    - The entry points are modelled twice: on the rows of the process table
      ([fcfs], [sjf], ...), and on references into a store of DataFrames
      ([fcfs_call], [sjf_call], ...), where copying and assigning a column
      are told apart; [calls_run_entry_points] relates the two. *)

From Stdlib Require Import ZArith String List Lia.
From stdpp Require Import base tactics option list sorting strings gmap.

Local Open Scope Z_scope.

(** ** Data model *)

(** One row of the process table: the columns [pid], [arrival_time],
    [burst_time] and [priority]. *)
Record Process := mkProcess {
  pid : string;
  arrival_time : Z;
  burst_time : Z;
  priority : Z;
}.

Global Instance Process_inhabited : Inhabited Process :=
  populate (mkProcess "" 0 0 0).

(** One entry of the schedule: the dictionary with keys [pid], [start_time]
    and [end_time].  Its [pid] is a process id or the literal ['Idle']. *)
Record Segment := mkSegment {
  seg_pid : string;
  start_time : Z;
  end_time : Z;
}.

(** The label the source gives to idle time. *)
Definition Idle : string := "Idle"%string.

(** A DataFrame: the process rows and the columns added by assignment
    ([metrics['completion_time'] = ...]). *)
Record Frame := mkFrame {
  rows : list Process;
  cols : gmap string (list Z);
}.

(** [df[name]] for an assigned column. *)
Definition column (df : Frame) (name : string) : list Z :=
  default [] (cols df !! name).

(** [df[name] = values]. *)
Definition set_column (name : string) (values : list Z) (df : Frame) : Frame :=
  mkFrame (rows df) (<[name := values]> (cols df)).

(** The three assignments every entry point ends with, on the frame [df]. *)
Definition frame_metrics (df : Frame)
    (completion_time turnaround_time waiting_time : list Z) : Frame :=
  set_column "waiting_time" waiting_time
    (set_column "turnaround_time" turnaround_time
       (set_column "completion_time" completion_time df)).

(** The metrics table over the rows [df]. *)
Definition with_metrics (df : list Process)
    (completion_time turnaround_time waiting_time : list Z) : Frame :=
  frame_metrics (mkFrame df ∅) completion_time turnaround_time waiting_time.

(** ** Control flow *)

(** What a call does: it returns, raises, or is still looping when the fuel
    is spent.  [Unbounded] marks a clock set to [float('inf')], which leaves
    the integer model (shown unreachable below). *)
Inductive outcome (A : Type) : Type :=
| Return (a : A)
| Raise (e : string)
| Spin
| Unbounded.
Arguments Return {A} a.
Arguments Raise {A} e.
Arguments Spin {A}.
Arguments Unbounded {A}.

(** One pass through a loop body. *)
Inductive pass (S : Type) : Type :=
| Next (s : S)
| Break
| Throw (e : string)
| Infinite.
Arguments Next {S} s.
Arguments Break {S}.
Arguments Throw {S} e.
Arguments Infinite {S}.

(** [while True: body], left by [Break]; the result is the state at the
    break. *)
Fixpoint while {S : Type} (body : S → pass S) (fuel : nat) (s : S) : outcome S :=
  match fuel with
  | O => Spin
  | Datatypes.S fuel' =>
      match body s with
      | Next s' => while body fuel' s'
      | Break => Return s
      | Throw e => Raise e
      | Infinite => Unbounded
      end
  end.

(** What follows the loop, applied to the state the loop returns. *)
Definition map_outcome {A B : Type} (f : A → B) (o : outcome A) : outcome B :=
  match o with
  | Return a => Return (f a)
  | Raise e => Raise e
  | Spin => Spin
  | Unbounded => Unbounded
  end.

(** ** Sorting: [sort_values(by=['arrival_time', 'pid'])] *)

(** The sort key compared lexicographically; strings compare as Python
    compares them, character by character. *)
Definition row_leb (p q : Process) : bool :=
  (arrival_time p <? arrival_time q)
  || ((arrival_time p =? arrival_time q) && String.leb (pid p) (pid q)).

(** A stable insertion sort: an element goes before the first element it
    does not exceed, so equal keys keep their order, as pandas keeps them when
    it sorts on several keys. *)
Fixpoint insert_by {A : Type} (leb : A → A → bool) (x : A) (l : list A) : list A :=
  match l with
  | [] => [x]
  | y :: l' => if leb x y then x :: l else y :: insert_by leb x l'
  end.

Definition sort_by {A : Type} (leb : A → A → bool) (l : list A) : list A :=
  foldr (insert_by leb) [] l.

(** The rows of [df.sort_values(by=['arrival_time', 'pid'])
    .reset_index(drop=True)]; a list renumbers its rows by itself. *)
Definition sort_values (df : list Process) : list Process :=
  sort_by row_leb df.

(** ** First Come First Serve *)

Record fcfs_state := mkFcfs {
  fcfs_current_time : Z;
  fcfs_completion_time : list Z;
  fcfs_turnaround_time : list Z;
  fcfs_waiting_time : list Z;
  fcfs_schedule : list Segment;
}.

(** The body of [for i in range(n)]. *)
Definition fcfs_body (processes : list Process) (st : fcfs_state) (i : nat)
    : fcfs_state :=
  let p := processes !!! i in
  let gap := fcfs_current_time st <? arrival_time p in
  let schedule :=
    if gap
    then fcfs_schedule st ++ [mkSegment Idle (fcfs_current_time st) (arrival_time p)]
    else fcfs_schedule st in
  let current_time := if gap then arrival_time p else fcfs_current_time st in
  let schedule :=
    schedule ++ [mkSegment (pid p) current_time (current_time + burst_time p)] in
  let completion := current_time + burst_time p in
  let turnaround := completion - arrival_time p in
  let waiting := turnaround - burst_time p in
  mkFcfs completion
         (<[i := completion]> (fcfs_completion_time st))
         (<[i := turnaround]> (fcfs_turnaround_time st))
         (<[i := waiting]> (fcfs_waiting_time st))
         schedule.

Definition fcfs_init (n : nat) : fcfs_state :=
  mkFcfs 0 (replicate n 0) (replicate n 0) (replicate n 0) [].

Definition fcfs_loop (processes : list Process) : fcfs_state :=
  fold_left (fcfs_body processes) (seq 0 (length processes))
            (fcfs_init (length processes)).

Definition fcfs (processes : list Process) : list Segment * Frame :=
  let processes := sort_values processes in
  let st := fcfs_loop processes in
  (fcfs_schedule st,
   with_metrics processes (fcfs_completion_time st) (fcfs_turnaround_time st)
                (fcfs_waiting_time st)).

(** ** Scans shared by the loops *)

(** [x < m] for a minimum [m] that starts as [float('inf')]. *)
Definition lt_inf (x : Z) (m : option Z) : bool :=
  match m with
  | None => true
  | Some v => x <? v
  end.

(** The selection scan of [sjf] (on [burst_time]) and of
    [priority_scheduling] (on [priority]):
    [for i in range(n): if arrival_time <= current_time and not
    is_completed[i]: if key < best: best = key; index = i].
    The accumulator is the pair (best key, index). *)
Definition select_body (key : Process → Z) (df : list Process)
    (is_completed : list bool) (current_time : Z)
    (acc : option Z * option nat) (i : nat) : option Z * option nat :=
  if (arrival_time (df !!! i) <=? current_time) && negb (is_completed !!! i)
  then if lt_inf (key (df !!! i)) (fst acc)
       then (Some (key (df !!! i)), Some i)
       else acc
  else acc.

Definition select (key : Process → Z) (df : list Process)
    (is_completed : list bool) (current_time : Z) : option nat :=
  snd (fold_left (select_body key df is_completed current_time)
                 (seq 0 (length df)) (None, None)).

(** The idle scan:
    [for i in range(n): if pending(i) and arrival_time < next_arrival:
    next_arrival = arrival_time], where [pending] is [not is_completed[i]]
    in [sjf] and [priority_scheduling], and [remaining_burst_time[i] > 0] in
    [round_robin]. *)
Definition earliest_body (pending : nat → bool) (df : list Process)
    (next_arrival : option Z) (i : nat) : option Z :=
  if pending i && lt_inf (arrival_time (df !!! i)) next_arrival
  then Some (arrival_time (df !!! i))
  else next_arrival.

Definition earliest (pending : nat → bool) (df : list Process) : option Z :=
  fold_left (earliest_body pending df) (seq 0 (length df)) None.

(** [sum(l)]. *)
Definition sum (l : list Z) : Z := foldr Z.add 0 l.

(** The closing list comprehensions of [round_robin] and
    [priority_scheduling]. *)
Definition turnaround_of (df : list Process) (completion_time : list Z) : list Z :=
  (λ i, completion_time !!! i - arrival_time (df !!! i)) <$> seq 0 (length df).

Definition waiting_of (df : list Process) (turnaround_time : list Z) : list Z :=
  (λ i, turnaround_time !!! i - burst_time (df !!! i)) <$> seq 0 (length df).

(** ** Shortest Job First *)

Record sjf_state := mkSjf {
  sjf_current_time : Z;
  sjf_completed : nat;
  sjf_completion_time : list Z;
  sjf_turnaround_time : list Z;
  sjf_waiting_time : list Z;
  sjf_is_completed : list bool;
  sjf_schedule : list Segment;
}.

Definition sjf_init (n : nat) : sjf_state :=
  mkSjf 0 0 (replicate n 0) (replicate n 0) (replicate n 0) (replicate n false) [].

(** The idle branch of [sjf]; [None] when [next_arrival] stays infinite. *)
Definition sjf_idle (df : list Process) (st : sjf_state) : option sjf_state :=
  match earliest (λ i, negb (sjf_is_completed st !!! i)) df with
  | None => None
  | Some next_arrival =>
      Some (mkSjf next_arrival (sjf_completed st) (sjf_completion_time st)
              (sjf_turnaround_time st) (sjf_waiting_time st) (sjf_is_completed st)
              (sjf_schedule st ++ [mkSegment Idle (sjf_current_time st) next_arrival]))
  end.

(** The branch of [sjf] that runs process [min_index] to its end. *)
Definition sjf_run (df : list Process) (st : sjf_state) (min_index : nat)
    : sjf_state :=
  let p := df !!! min_index in
  let completion := sjf_current_time st + burst_time p in
  let turnaround := completion - arrival_time p in
  let waiting := turnaround - burst_time p in
  mkSjf completion
        (Datatypes.S (sjf_completed st))
        (<[min_index := completion]> (sjf_completion_time st))
        (<[min_index := turnaround]> (sjf_turnaround_time st))
        (<[min_index := waiting]> (sjf_waiting_time st))
        (<[min_index := true]> (sjf_is_completed st))
        (sjf_schedule st
           ++ [mkSegment (pid p) (sjf_current_time st) (sjf_current_time st + burst_time p)]).

(** One pass of [while completed != n]. *)
Definition sjf_body (df : list Process) (st : sjf_state) : pass sjf_state :=
  if decide (sjf_completed st = length df) then Break
  else
    match select burst_time df (sjf_is_completed st) (sjf_current_time st) with
    | None =>
        match sjf_idle df st with
        | Some st' => Next st'
        | None => Infinite
        end
    | Some min_index => Next (sjf_run df st min_index)
    end.

Definition sjf_result (df : list Process) (st : sjf_state) : list Segment * Frame :=
  (sjf_schedule st,
   with_metrics df (sjf_completion_time st) (sjf_turnaround_time st)
                (sjf_waiting_time st)).

Definition sjf (fuel : nat) (processes : list Process)
    : outcome (list Segment * Frame) :=
  let df := processes in
  map_outcome (sjf_result df) (while (sjf_body df) fuel (sjf_init (length df))).

(** ** Round Robin *)

Record rr_state := mkRr {
  rr_current_time : Z;
  rr_completion_time : list Z;
  rr_remaining_burst_time : list Z;
  rr_schedule : list Segment;
  rr_ready_queue : list nat;
}.

(** [for j in range(n): if arrival_time <= current_time and
    remaining_burst_time[j] > 0 and j not in ready_queue (and other j):
    ready_queue.append(j)].  [other] is [j != i] after a slice of [i] and
    absent (always true) after idle time and at the start. *)
Definition enqueue_body (df : list Process) (remaining_burst_time : list Z)
    (current_time : Z) (other : nat → bool) (ready_queue : list nat) (j : nat)
    : list nat :=
  if (arrival_time (df !!! j) <=? current_time)
     && (0 <? remaining_burst_time !!! j)
     && bool_decide (j ∉ ready_queue)
     && other j
  then ready_queue ++ [j]
  else ready_queue.

Definition enqueue_arrived (df : list Process) (remaining_burst_time : list Z)
    (current_time : Z) (other : nat → bool) (ready_queue : list nat) : list nat :=
  fold_left (enqueue_body df remaining_burst_time current_time other)
            (seq 0 (length df)) ready_queue.

(** The seeding loop: [for i in range(n): if arrival_time <= current_time:
    ready_queue.append(i)]. *)
Definition seed_queue (df : list Process) (current_time : Z) : list nat :=
  fold_left (λ q i, if arrival_time (df !!! i) <=? current_time then q ++ [i] else q)
            (seq 0 (length df)) [].

Definition rr_init (df : list Process) : rr_state :=
  mkRr 0 (replicate (length df) 0) (burst_time <$> df) [] (seed_queue df 0).

(** The idle branch of [round_robin]. *)
Definition rr_idle (df : list Process) (st : rr_state) : option rr_state :=
  match earliest (λ i, 0 <? rr_remaining_burst_time st !!! i) df with
  | None => None
  | Some next_arrival =>
      Some (mkRr next_arrival (rr_completion_time st) (rr_remaining_burst_time st)
              (rr_schedule st ++ [mkSegment Idle (rr_current_time st) next_arrival])
              (enqueue_arrived df (rr_remaining_burst_time st) next_arrival
                               (λ _, true) (rr_ready_queue st)))
  end.

(** The branch of [round_robin] that pops [i] (the queue that is left is
    [ready_queue]) and runs it for one slice. *)
Definition rr_slice (df : list Process) (time_quantum : Z) (st : rr_state)
    (i : nat) (ready_queue : list nat) : rr_state :=
  let execution_time := Z.min time_quantum (rr_remaining_burst_time st !!! i) in
  let schedule :=
    rr_schedule st
      ++ [mkSegment (pid (df !!! i)) (rr_current_time st)
                    (rr_current_time st + execution_time)] in
  let current_time := rr_current_time st + execution_time in
  let remaining_burst_time :=
    <[i := rr_remaining_burst_time st !!! i - execution_time]>
      (rr_remaining_burst_time st) in
  let ready_queue :=
    enqueue_arrived df remaining_burst_time current_time
                    (λ j, bool_decide (j ≠ i)) ready_queue in
  if 0 <? remaining_burst_time !!! i
  then mkRr current_time (rr_completion_time st) remaining_burst_time schedule
            (ready_queue ++ [i])
  else mkRr current_time (<[i := current_time]> (rr_completion_time st))
            remaining_burst_time schedule ready_queue.

(** One pass of [while True]. *)
Definition rr_body (df : list Process) (time_quantum : Z) (st : rr_state)
    : pass rr_state :=
  match rr_ready_queue st with
  | [] =>
      if 0 <? sum (rr_remaining_burst_time st)
      then match rr_idle df st with
           | Some st' => Next st'
           | None => Infinite
           end
      else Break
  | i :: ready_queue => Next (rr_slice df time_quantum st i ready_queue)
  end.

Definition rr_result (df : list Process) (st : rr_state) : list Segment * Frame :=
  let turnaround_time := turnaround_of df (rr_completion_time st) in
  let waiting_time := waiting_of df turnaround_time in
  (rr_schedule st,
   with_metrics df (rr_completion_time st) turnaround_time waiting_time).

Definition round_robin (fuel : nat) (processes : list Process) (time_quantum : Z)
    : outcome (list Segment * Frame) :=
  let df := processes in
  map_outcome (rr_result df) (while (rr_body df time_quantum) fuel (rr_init df)).

(** ** Priority scheduling *)

Record ps_state := mkPs {
  ps_current_time : Z;
  ps_completion_time : list Z;
  ps_remaining_burst_time : list Z;
  ps_is_completed : list bool;
  ps_schedule : list Segment;
  ps_completed : nat;
  ps_prev_process : option nat;
}.

Definition ps_init (df : list Process) : ps_state :=
  mkPs 0 (replicate (length df) 0) (burst_time <$> df)
       (replicate (length df) false) [] 0 None.

(** The idle branch, the same scan as in [sjf]. *)
Definition ps_idle (df : list Process) (st : ps_state) : option ps_state :=
  match earliest (λ i, negb (ps_is_completed st !!! i)) df with
  | None => None
  | Some next_arrival =>
      Some (mkPs next_arrival (ps_completion_time st) (ps_remaining_burst_time st)
              (ps_is_completed st)
              (ps_schedule st ++ [mkSegment Idle (ps_current_time st) next_arrival])
              (ps_completed st) (ps_prev_process st))
  end.

(** The non-preemptive branch: the selected process runs to its end. *)
Definition ps_run (df : list Process) (st : ps_state) (selected_process : nat)
    : ps_state :=
  let remaining := ps_remaining_burst_time st !!! selected_process in
  let current_time := ps_current_time st + remaining in
  mkPs current_time
       (<[selected_process := current_time]> (ps_completion_time st))
       (<[selected_process := 0]> (ps_remaining_burst_time st))
       (<[selected_process := true]> (ps_is_completed st))
       (ps_schedule st
          ++ [mkSegment (pid (df !!! selected_process)) (ps_current_time st)
                        (ps_current_time st + remaining)])
       (Datatypes.S (ps_completed st))
       (ps_prev_process st).

(** [min(next_arrival, a)] for a [next_arrival] that starts infinite. *)
Definition min_inf (m : option Z) (a : Z) : Z :=
  match m with
  | None => a
  | Some v => Z.min v a
  end.

(** The scan of the preemptive branch:
    [for i in range(n): if not is_completed[i] and i != selected_process and
    arrival_time > current_time: next_arrival = min(next_arrival, arrival_time)]. *)
Definition future_arrival (df : list Process) (is_completed : list bool)
    (selected_process : nat) (current_time : Z) : option Z :=
  fold_left
    (λ next_arrival i,
       if negb (is_completed !!! i) && bool_decide (i ≠ selected_process)
          && (current_time <? arrival_time (df !!! i))
       then Some (min_inf next_arrival (arrival_time (df !!! i)))
       else next_arrival)
    (seq 0 (length df)) None.

(** The length of a preemptive slice. *)
Definition ps_execution_time (df : list Process) (st : ps_state)
    (selected_process : nat) : Z :=
  let remaining := ps_remaining_burst_time st !!! selected_process in
  Z.min remaining
        match future_arrival df (ps_is_completed st) selected_process
                             (ps_current_time st) with
        | Some next_arrival => next_arrival - ps_current_time st
        | None => remaining
        end.

(** [schedule[-1]['end_time'] = t]; [None] stands for the IndexError of an
    empty schedule. *)
Fixpoint set_last_end (schedule : list Segment) (t : Z) : option (list Segment) :=
  match schedule with
  | [] => None
  | s :: rest =>
      match rest with
      | [] => Some [mkSegment (seg_pid s) (start_time s) t]
      | _ :: _ => cons s <$> set_last_end rest t
      end
  end.

(** The schedule after a preemptive slice that ends at [until]: a new segment
    when another process ran before, a longer last segment when the same
    one did. *)
Definition ps_emit (df : list Process) (st : ps_state) (selected_process : nat)
    (until : Z) : option (list Segment) :=
  if decide (ps_prev_process st = Some selected_process)
  then set_last_end (ps_schedule st) until
  else Some (ps_schedule st
               ++ [mkSegment (pid (df !!! selected_process))
                             (ps_current_time st) until]).

(** The bookkeeping after a preemptive slice of [execution_time]. *)
Definition ps_account (st : ps_state) (selected_process : nat)
    (execution_time : Z) (schedule : list Segment) : ps_state :=
  let current_time := ps_current_time st + execution_time in
  let remaining := ps_remaining_burst_time st !!! selected_process - execution_time in
  let remaining_burst_time :=
    <[selected_process := remaining]> (ps_remaining_burst_time st) in
  if remaining =? 0
  then mkPs current_time
            (<[selected_process := current_time]> (ps_completion_time st))
            remaining_burst_time
            (<[selected_process := true]> (ps_is_completed st))
            schedule (Datatypes.S (ps_completed st)) (Some selected_process)
  else mkPs current_time (ps_completion_time st) remaining_burst_time
            (ps_is_completed st) schedule (ps_completed st)
            (Some selected_process).

(** The preemptive branch: one slice of the selected process. *)
Definition ps_slice (df : list Process) (st : ps_state) (selected_process : nat)
    : option ps_state :=
  let execution_time := ps_execution_time df st selected_process in
  ps_account st selected_process execution_time
    <$> ps_emit df st selected_process (ps_current_time st + execution_time).

(** One pass of [while completed != n]. *)
Definition ps_body (df : list Process) (preemptive : bool) (st : ps_state)
    : pass ps_state :=
  if decide (ps_completed st = length df) then Break
  else
    match select priority df (ps_is_completed st) (ps_current_time st) with
    | None =>
        match ps_idle df st with
        | Some st' => Next st'
        | None => Infinite
        end
    | Some selected_process =>
        if negb preemptive then Next (ps_run df st selected_process)
        else
          match ps_slice df st selected_process with
          | Some st' => Next st'
          | None => Throw "IndexError"
          end
    end.

Definition ps_result (df : list Process) (st : ps_state) : list Segment * Frame :=
  let turnaround_time := turnaround_of df (ps_completion_time st) in
  let waiting_time := waiting_of df turnaround_time in
  (ps_schedule st,
   with_metrics df (ps_completion_time st) turnaround_time waiting_time).

Definition priority_scheduling (fuel : nat) (processes : list Process)
    (preemptive : bool) : outcome (list Segment * Frame) :=
  let df := processes in
  map_outcome (ps_result df) (while (ps_body df preemptive) fuel (ps_init df)).

(** ** The caller: [app.run_scheduler] *)

(** The four entries of the algorithm select box. *)
Inductive algorithm := FCFS | SJF | RR | Priority.

(** [run_scheduler]: an empty process table is reported ([st.error]) and
    [(None, None)] is returned, here [None]; otherwise the selected entry
    point runs. *)
Definition run_scheduler (fuel : nat) (alg : algorithm) (time_quantum : Z)
    (preemptive : bool) (processes : list Process)
    : outcome (option (list Segment * Frame)) :=
  if decide (length processes = 0%nat) then Return None
  else
    match alg with
    | FCFS => Return (Some (fcfs processes))
    | SJF => map_outcome Some (sjf fuel processes)
    | RR => map_outcome Some (round_robin fuel processes time_quantum)
    | Priority => map_outcome Some (priority_scheduling fuel processes preemptive)
    end.

(** ** DataFrames as objects

    The caller and the entry points hold references to DataFrames.  A store
    lists the frames that exist; a reference is a position in it.  [copy] and
    [sort_values] make a new frame, a column assignment changes the frame it
    is applied to in place, for every holder of the reference. *)
Abbreviation store := (list Frame).

Global Instance Frame_inhabited : Inhabited Frame := populate (mkFrame [] ∅).

(** A new frame and its reference. *)
Definition alloc (σ : store) (df : Frame) : store * nat :=
  (σ ++ [df], length σ).

(** [df.copy()]. *)
Definition copy (σ : store) (df : nat) : store * nat :=
  alloc σ (σ !!! df).

(** [df[name] = values], in place. *)
Definition assign (σ : store) (df : nat) (name : string) (values : list Z) : store :=
  <[df := set_column name values (σ !!! df)]> σ.

(** [sort_values(by=['arrival_time', 'pid']).reset_index(drop=True)] on a
    whole frame: the rows are sorted, with the labels they had, and every
    column follows the rows. *)
Definition sort_order (df : list Process) : list nat :=
  snd <$> sort_by (λ a b, row_leb (fst a) (fst b)) (zip df (seq 0 (length df))).

Definition sort_frame (df : Frame) : Frame :=
  let order := sort_order (rows df) in
  mkFrame ((λ i, rows df !!! i) <$> order)
          ((λ c : list Z, (λ i, c !!! i) <$> order) <$> cols df).

(** The close of every entry point: [metrics = df.copy()] and the three
    column assignments, on the copy. *)
Definition emit_metrics (σ : store) (df : nat)
    (completion_time turnaround_time waiting_time : list Z) : store * nat :=
  let '(σ, metrics) := copy σ df in
  let σ := assign σ metrics "completion_time" completion_time in
  let σ := assign σ metrics "turnaround_time" turnaround_time in
  let σ := assign σ metrics "waiting_time" waiting_time in
  (σ, metrics).

(** [fcfs] on references: [processes] is rebound to the sorted frame. *)
Definition fcfs_call (σ : store) (processes : nat) : store * (list Segment * nat) :=
  let '(σ, processes) := alloc σ (sort_frame (σ !!! processes)) in
  let st := fcfs_loop (rows (σ !!! processes)) in
  let '(σ, metrics) :=
    emit_metrics σ processes (fcfs_completion_time st) (fcfs_turnaround_time st)
                 (fcfs_waiting_time st) in
  (σ, (fcfs_schedule st, metrics)).

(** [sjf] on references: the loop runs on [df = processes.copy()]. *)
Definition sjf_call (fuel : nat) (σ : store) (processes : nat)
    : outcome (store * (list Segment * nat)) :=
  let '(σ, df) := copy σ processes in
  map_outcome
    (λ st,
       let '(σ, metrics) :=
         emit_metrics σ df (sjf_completion_time st) (sjf_turnaround_time st)
                      (sjf_waiting_time st) in
       (σ, (sjf_schedule st, metrics)))
    (while (sjf_body (rows (σ !!! df))) fuel (sjf_init (length (rows (σ !!! df))))).

(** [round_robin] on references. *)
Definition round_robin_call (fuel : nat) (σ : store) (processes : nat)
    (time_quantum : Z) : outcome (store * (list Segment * nat)) :=
  let '(σ, df) := copy σ processes in
  let rows_df := rows (σ !!! df) in
  map_outcome
    (λ st,
       let turnaround_time := turnaround_of rows_df (rr_completion_time st) in
       let waiting_time := waiting_of rows_df turnaround_time in
       let '(σ, metrics) :=
         emit_metrics σ df (rr_completion_time st) turnaround_time waiting_time in
       (σ, (rr_schedule st, metrics)))
    (while (rr_body rows_df time_quantum) fuel (rr_init rows_df)).

(** [priority_scheduling] on references. *)
Definition priority_scheduling_call (fuel : nat) (σ : store) (processes : nat)
    (preemptive : bool) : outcome (store * (list Segment * nat)) :=
  let '(σ, df) := copy σ processes in
  let rows_df := rows (σ !!! df) in
  map_outcome
    (λ st,
       let turnaround_time := turnaround_of rows_df (ps_completion_time st) in
       let waiting_time := waiting_of rows_df turnaround_time in
       let '(σ, metrics) :=
         emit_metrics σ df (ps_completion_time st) turnaround_time waiting_time in
       (σ, (ps_schedule st, metrics)))
    (while (ps_body rows_df preemptive) fuel (ps_init rows_df)).

(** ** The vocabulary of the properties *)

(** The inputs the engine is meant for: no negative arrival time, positive
    burst times, no process id used twice. *)
Definition valid (df : list Process) : Prop :=
  Forall (λ p, 0 ≤ arrival_time p ∧ 0 < burst_time p) df ∧ NoDup (pid <$> df).

(** [schedule] tiles the interval from [t0] to [t1]: it starts at [t0], every
    segment is non-empty and starts where the one before it ends, and the
    last one ends at [t1]. *)
Fixpoint tiles (t0 : Z) (schedule : list Segment) (t1 : Z) : Prop :=
  match schedule with
  | [] => t0 = t1
  | s :: rest =>
      start_time s = t0 ∧ start_time s < end_time s ∧ tiles (end_time s) rest t1
  end.

Definition duration (s : Segment) : Z := end_time s - start_time s.

(** The time the schedule gives to the label [p]. *)
Definition exec_time (p : string) (schedule : list Segment) : Z :=
  sum (duration <$> filter (λ s, seg_pid s = p) schedule).

(** The number of entries [True] of [is_completed]. *)
Definition count_true (l : list bool) : nat :=
  length (filter (λ b, b = true) l).

(** Row [i] has finished at [completion_time[i]]: not before it could, and
    the schedule has a segment of its process that ends then. *)
Definition finished (df : list Process) (schedule : list Segment)
    (completion_time : list Z) (i : nat) : Prop :=
  arrival_time (df !!! i) + burst_time (df !!! i) ≤ completion_time !!! i
  ∧ ∃ s, s ∈ schedule ∧ seg_pid s = pid (df !!! i)
         ∧ end_time s = completion_time !!! i.

(** The sort key as an order on rows. *)
Definition row_le (p q : Process) : Prop := row_leb p q = true.

(** The state after [k] passes of a loop, when it makes that many. *)
Fixpoint passes {S : Type} (body : S → pass S) (k : nat) (s : S) : option S :=
  match k with
  | O => Some s
  | Datatypes.S k' =>
      match body s with
      | Next s' => passes body k' s'
      | _ => None
      end
  end.

(** A call on references is repeatable at [processes]: when it returns, the
    frames that existed are as they were, the caller's among them, and the
    same call made again returns the same schedule and a metrics frame with
    the same content, and leaves the caller's frame as it was. *)
Definition repeatable
    (call : store → nat → outcome (store * (list Segment * nat)))
    (σ : store) (processes : nat) : Prop :=
  ∀ σ1 schedule metrics,
    call σ processes = Return (σ1, (schedule, metrics)) →
    (∀ r, (r < length σ)%nat → σ1 !! r = σ !! r)
    ∧ ∃ σ2 metrics',
        call σ1 processes = Return (σ2, (schedule, metrics'))
        ∧ σ2 !!! metrics' = σ1 !!! metrics
        ∧ σ2 !! processes = σ !! processes.

(** The states a loop passes through from [s0]. *)
Inductive reaches {S : Type} (body : S → pass S) (s0 : S) : S → Prop :=
| reaches_start : reaches body s0 s0
| reaches_next s s' : reaches body s0 s → body s = Next s' → reaches body s0 s'.

(** The schedule tiles the time from 0 on: its first segment starts at 0,
    every segment ends after it starts, and each segment ends where the next
    one starts. *)
Definition tiling (schedule : list Segment) : Prop :=
  (∃ s, head schedule = Some s ∧ start_time s = 0)
  ∧ Forall (λ s, start_time s < end_time s) schedule
  ∧ ∀ k s1 s2, schedule !! k = Some s1 → schedule !! Datatypes.S k = Some s2 →
               end_time s1 = start_time s2.

(** Every process gets its burst time: the durations of the segments that
    carry its id add up to it. *)
Definition conserved (processes : list Process) (schedule : list Segment) : Prop :=
  ∀ p, p ∈ processes → exec_time (pid p) schedule = burst_time p.


(** The metrics of every row: turnaround and waiting time as derived from
    the completion time, and not less than they can be. *)
Definition metrics_sound (metrics : Frame) : Prop :=
  ∀ k p, rows metrics !! k = Some p →
    ∃ c, column metrics "completion_time" !! k = Some c
         ∧ column metrics "turnaround_time" !! k = Some (c - arrival_time p)
         ∧ column metrics "waiting_time" !! k
           = Some (c - arrival_time p - burst_time p)
         ∧ burst_time p ≤ c - arrival_time p
         ∧ 0 ≤ c - arrival_time p - burst_time p.


(** Fuel that is enough: two passes for each process in [sjf], two for each
    unit of burst time in [round_robin] and [priority_scheduling]. *)
Definition sjf_fuel (processes : list Process) : nat :=
  (2 * length processes + 2)%nat.

Definition work_fuel (processes : list Process) : nat :=
  (2 * Z.to_nat (sum (burst_time <$> processes)) + 2)%nat.

(** [run] returns [r], with [bound] passes and with any more. *)
Definition returns_from {A : Type} (bound : nat) (run : nat → outcome A) (r : A)
    : Prop :=
  ∀ fuel, (bound ≤ fuel)%nat → run fuel = Return r.

(** Every entry point returns, and what it returns satisfies [P]. *)
Definition every_run (processes : list Process) (time_quantum : Z)
    (P : list Segment * Frame → Prop) : Prop :=
  P (fcfs processes)
  ∧ (∃ r, returns_from (sjf_fuel processes) (λ fuel, sjf fuel processes) r ∧ P r)
  ∧ (∃ r, returns_from (work_fuel processes)
            (λ fuel, round_robin fuel processes time_quantum) r ∧ P r)
  ∧ ∀ preemptive,
      ∃ r, returns_from (work_fuel processes)
             (λ fuel, priority_scheduling fuel processes preemptive) r ∧ P r.

(** Row [j] is ready at [t]: it has arrived and is not completed. *)
Definition ready (df : list Process) (is_completed : list bool) (t : Z)
    (j : nat) : Prop :=
  arrival_time (df !!! j) ≤ t ∧ is_completed !!! j = false.

(** Row [j] is a future arrival for the selected row [sel] at [t]: it is
    not completed, is not [sel], and arrives after [t]. *)
Definition future (df : list Process) (is_completed : list bool) (sel : nat)
    (t : Z) (j : nat) : Prop :=
  is_completed !!! j = false ∧ j ≠ sel ∧ t < arrival_time (df !!! j).

(** Row [j] is to be queued at [t]: it has arrived, has burst time left, is
    not in the queue and passes [other]. *)
Definition arrived (df : list Process) (remaining : list Z) (t : Z)
    (other : nat → bool) (queue : list nat) (j : nat) : Prop :=
  arrival_time (df !!! j) ≤ t ∧ 0 < remaining !!! j ∧ (j ∉ queue)
  ∧ other j = true.

Global Instance arrived_dec df remaining t other queue j :
  Decision (arrived df remaining t other queue j).
Proof. unfold arrived. apply _. Defined.



(** ** Inputs of the examples *)

(** The inputs of the examples of the specification. *)
Definition ex_fcfs : list Process :=
  [mkProcess "P1" 0 5 1; mkProcess "P2" 1 3 1; mkProcess "P3" 2 8 1].

Definition ex_sjf : list Process :=
  [mkProcess "P1" 0 6 1; mkProcess "P2" 0 8 1; mkProcess "P3" 0 7 1;
   mkProcess "P4" 0 3 1].

Definition ex_rr : list Process :=
  [mkProcess "P1" 0 10 1; mkProcess "P2" 1 5 1].

Definition ex_ps : list Process :=
  [mkProcess "P1" 0 10 2; mkProcess "P2" 3 4 1].


(** An input that is not in arrival order. *)
Definition ex_unsorted : list Process :=
  [mkProcess "P1" 4 2 1; mkProcess "P2" 0 3 1].

(** The input of the counterexample: the third row arrives before the
    second. *)
Definition ex_order : list Process :=
  [mkProcess "A" 0 5 1; mkProcess "B" 2 1 1; mkProcess "C" 1 1 1].

(** The result on no process at all: no segment, no row. *)
Definition empty_result : list Segment * Frame := ([], with_metrics [] [] [] []).

(** What [round_robin] keeps when the time quantum is not positive: the
    burst time that is left never gets less. *)
Definition rr_stuck (df : list Process) (st : rr_state) : Prop :=
  length (rr_remaining_burst_time st) = length df
  ∧ ∀ j, (j < length df)%nat →
         burst_time (df !!! j) ≤ rr_remaining_burst_time st !!! j.

(** The clock and the selection of a state. *)
Definition ps_decision (df : list Process) (st : ps_state) : Z * option nat :=
  (ps_current_time st,
   select priority df (ps_is_completed st) (ps_current_time st)).

(** A store with the caller's process table at reference 0. *)
Definition ex_store : store := [mkFrame ex_ps ∅].

(** What a caller reads off a result: the schedule, the rows and the three
    metric columns. *)
Definition observed (r : list Segment * Frame)
    : list Segment * list Process * list Z * list Z * list Z :=
  (fst r, rows (snd r), column (snd r) "completion_time",
   column (snd r) "turnaround_time", column (snd r) "waiting_time").

Definition observed_call (r : store * (list Segment * nat))
    : list Segment * list Process * list Z * list Z * list Z :=
  observed (fst (snd r), fst r !!! snd (snd r)).

(** * Properties *)

(** ** Loops *)

Lemma fold_left_seq_ind {S : Type} (f : S → nat → S) (I : nat → S → Prop)
    (n : nat) (s0 : S) :
  I 0%nat s0 →
  (∀ k s, (k < n)%nat → I k s → I (Datatypes.S k) (f s k)) →
  I n (fold_left f (seq 0 n) s0).
Proof.
  intros H0 Hstep. induction n as [|n IH]; [done|].
  rewrite seq_S, fold_left_app. simpl. apply Hstep; [lia|].
  apply IH. intros k s Hk. apply Hstep. lia.
Qed.

(** A loop whose body keeps [I] and lowers [m] leaves within [m] passes, in
    a state that satisfies [I] and at which the body breaks. *)
Lemma while_returns {S : Type} (body : S → pass S) (I : S → Prop) (m : S → nat) :
  (∀ s, I s →
        match body s with
        | Next s' => I s' ∧ (m s' < m s)%nat
        | Break => True
        | _ => False
        end) →
  ∀ fuel s, I s → (m s < fuel)%nat →
            ∃ s', while body fuel s = Return s' ∧ I s' ∧ body s' = Break.
Proof.
  intros Hbody fuel. induction fuel as [|fuel IH]; intros s Hs Hm; [lia|].
  simpl. specialize (Hbody s Hs). destruct (body s) as [s'| | |] eqn:Hb; try done.
  - destruct Hbody as [Hs' Hlt]. apply IH; [done|lia].
  - eauto.
Qed.

(** More fuel does not change what a loop returns. *)
Lemma while_fuel_mono {S : Type} (body : S → pass S) (fuel fuel' : nat) (s r : S) :
  while body fuel s = Return r → (fuel ≤ fuel')%nat → while body fuel' s = Return r.
Proof.
  revert fuel' s. induction fuel as [|fuel IH]; intros fuel' s H Hle; [done|].
  destruct fuel' as [|fuel']; [lia|]. simpl in *.
  destruct (body s); try done. apply IH; [done|lia].
Qed.

(** A loop whose body never breaks from a state of [I] does not return. *)
Lemma while_spins {S : Type} (body : S → pass S) (I : S → Prop) :
  (∀ s, I s → ∃ s', body s = Next s' ∧ I s') →
  ∀ fuel s, I s → while body fuel s = Spin.
Proof.
  intros Hbody fuel. induction fuel as [|fuel IH]; intros s Hs; [done|].
  simpl. destruct (Hbody s Hs) as (s' & -> & Hs'). by apply IH.
Qed.

(** ** The scans *)

Section scans.
Context (df : list Process).

Lemma lt_inf_Some x v : lt_inf x (Some v) = true ↔ x < v.
Proof. simpl. apply Z.ltb_lt. Qed.

Definition select_inv (key : Process → Z) (is_completed : list bool) (t : Z)
    (k : nat) (acc : option Z * option nat) : Prop :=
  match acc with
  | (Some b, Some i) =>
      (i < k)%nat ∧ ready df is_completed t i ∧ key (df !!! i) = b
      ∧ ∀ j, (j < k)%nat → ready df is_completed t j →
             b ≤ key (df !!! j) ∧ (key (df !!! j) = b → (i ≤ j)%nat)
  | (None, None) => ∀ j, (j < k)%nat → ¬ ready df is_completed t j
  | _ => False
  end.

Lemma ready_bool is_completed t j :
  (arrival_time (df !!! j) <=? t) && negb (is_completed !!! j) = true
  ↔ ready df is_completed t j.
Proof.
  unfold ready. rewrite andb_true_iff, Z.leb_le, negb_true_iff. done.
Qed.

Lemma select_scan key is_completed t :
  select_inv key is_completed t (length df)
    (fold_left (select_body key df is_completed t) (seq 0 (length df)) (None, None)).
Proof.
  apply fold_left_seq_ind.
  - simpl. intros j Hj. lia.
  - intros k [b i] Hk Hinv. unfold select_body.
    destruct ((arrival_time (df !!! k) <=? t) && negb (is_completed !!! k))
      eqn:Hc.
    + apply ready_bool in Hc.
      destruct b as [b|], i as [i|]; simpl in *; try done.
      * destruct Hinv as (Hi & Hr & Hb & Hmin).
        destruct (key (df !!! k) <? b) eqn:Hlt; simpl;
          [apply Z.ltb_lt in Hlt|apply Z.ltb_ge in Hlt].
        -- split_and!; [lia|done|done|]. intros j Hj Hrj.
           destruct (decide (j = k)) as [->|]; [lia|].
           destruct (Hmin j) as [? ?]; [lia|done|]. lia.
        -- split_and!; [lia|done|done|]. intros j Hj Hrj.
           destruct (decide (j = k)) as [->|]; [lia|].
           destruct (Hmin j) as [? ?]; [lia|done|]. auto.
      * split_and!; [lia|done|done|]. intros j Hj Hrj.
        destruct (decide (j = k)) as [->|]; [lia|].
        exfalso; apply (Hinv j); [lia|done].
    + assert (¬ ready df is_completed t k) as Hn.
      { rewrite <- ready_bool, Hc. done. }
      destruct b as [b|], i as [i|]; simpl in *; try done.
      * destruct Hinv as (? & ? & ? & Hmin). split_and!; [lia|done|done|].
        intros j Hj Hrj. destruct (decide (j = k)) as [->|]; [done|].
        apply Hmin; [lia|done].
      * intros j Hj. destruct (decide (j = k)) as [->|]; [done|].
        apply Hinv. lia.
Qed.
Lemma select_Some key is_completed t i :
  select key df is_completed t = Some i →
  (i < length df)%nat ∧ ready df is_completed t i
  ∧ ∀ j, (j < length df)%nat → ready df is_completed t j →
         key (df !!! i) ≤ key (df !!! j)
         ∧ (key (df !!! j) = key (df !!! i) → (i ≤ j)%nat).
Proof.
  unfold select. intros H. pose proof (select_scan key is_completed t) as Hs.
  destruct (fold_left _ _ _) as [[b|] [i'|]]; simpl in *; try done.
  simplify_eq. destruct Hs as (? & ? & <- & ?). done.
Qed.

Lemma select_None key is_completed t j :
  select key df is_completed t = None →
  (j < length df)%nat → ¬ ready df is_completed t j.
Proof.
  unfold select. intros H. pose proof (select_scan key is_completed t) as Hs.
  destruct (fold_left _ _ _) as [[b|] [i'|]]; simpl in *; try done.
  apply Hs.
Qed.

Lemma select_ready key is_completed t j :
  (j < length df)%nat → ready df is_completed t j →
  is_Some (select key df is_completed t).
Proof.
  intros Hj Hr. destruct (select key df is_completed t) eqn:Hs; [eauto|].
  by destruct (select_None _ _ _ j Hs).
Qed.

(** What [earliest] returns: the least arrival time of a pending row. *)
Definition earliest_inv (pending : nat → bool) (k : nat) (acc : option Z) : Prop :=
  match acc with
  | Some a =>
      (∃ i, (i < k)%nat ∧ pending i = true ∧ arrival_time (df !!! i) = a)
      ∧ ∀ j, (j < k)%nat → pending j = true → a ≤ arrival_time (df !!! j)
  | None => ∀ j, (j < k)%nat → pending j = false
  end.

Lemma earliest_scan pending :
  earliest_inv pending (length df) (earliest pending df).
Proof.
  unfold earliest. apply fold_left_seq_ind.
  - simpl. intros j Hj. lia.
  - intros k acc Hk Hinv. unfold earliest_body.
    destruct (pending k) eqn:Hp; simpl.
    + destruct acc as [a|]; simpl in *.
      * destruct Hinv as [(i & Hi & Hpi & Ha) Hmin].
        destruct (arrival_time (df !!! k) <? a) eqn:Hlt;
          [apply Z.ltb_lt in Hlt|apply Z.ltb_ge in Hlt]; simpl.
        -- split; [exists k; split_and!; [lia|done|done]|].
           intros j Hj Hpj. destruct (decide (j = k)) as [->|]; [lia|].
           specialize (Hmin j ltac:(lia) Hpj). lia.
        -- split; [exists i; split_and!; [lia|done|done]|].
           intros j Hj Hpj. destruct (decide (j = k)) as [->|]; [lia|].
           specialize (Hmin j ltac:(lia) Hpj). lia.
      * split; [exists k; split_and!; [lia|done|done]|].
        intros j Hj Hpj. destruct (decide (j = k)) as [->|]; [lia|].
        rewrite Hinv in Hpj; [done|lia].
    + destruct acc as [a|]; simpl in *.
      * destruct Hinv as [(i & Hi & Hpi & Ha) Hmin].
        split; [exists i; split_and!; [lia|done|done]|].
        intros j Hj Hpj. destruct (decide (j = k)) as [->|]; [congruence|].
        apply Hmin; [lia|done].
      * intros j Hj. destruct (decide (j = k)) as [->|]; [done|].
        apply Hinv. lia.
Qed.

Lemma earliest_Some pending a :
  earliest pending df = Some a →
  (∃ i, (i < length df)%nat ∧ pending i = true ∧ arrival_time (df !!! i) = a)
  ∧ ∀ j, (j < length df)%nat → pending j = true → a ≤ arrival_time (df !!! j).
Proof.
  intros H. pose proof (earliest_scan pending) as Hs. by rewrite H in Hs.
Qed.

Lemma earliest_pending pending j :
  (j < length df)%nat → pending j = true → is_Some (earliest pending df).
Proof.
  intros Hj Hp. pose proof (earliest_scan pending) as Hs.
  destruct (earliest pending df); [eauto|]. simpl in Hs.
  rewrite Hs in Hp; done.
Qed.

Lemma future_bool is_completed sel t j :
  negb (is_completed !!! j) && bool_decide (j ≠ sel)
    && (t <? arrival_time (df !!! j)) = true
  ↔ future df is_completed sel t j.
Proof.
  unfold future.
  rewrite !andb_true_iff, negb_true_iff, bool_decide_eq_true, Z.ltb_lt.
  tauto.
Qed.

Definition future_inv (is_completed : list bool) (sel : nat) (t : Z)
    (k : nat) (acc : option Z) : Prop :=
  match acc with
  | Some a =>
      (∃ i, (i < k)%nat ∧ future df is_completed sel t i
            ∧ arrival_time (df !!! i) = a)
      ∧ ∀ j, (j < k)%nat → future df is_completed sel t j →
             a ≤ arrival_time (df !!! j)
  | None => ∀ j, (j < k)%nat → ¬ future df is_completed sel t j
  end.

Lemma future_arrival_scan is_completed sel t :
  future_inv is_completed sel t (length df)
             (future_arrival df is_completed sel t).
Proof.
  unfold future_arrival. apply fold_left_seq_ind.
  - simpl. intros j Hj. lia.
  - intros k acc Hk Hinv.
    destruct (negb (is_completed !!! k) && bool_decide (k ≠ sel)
              && (t <? arrival_time (df !!! k))) eqn:Hc.
    + apply future_bool in Hc. destruct acc as [a|]; simpl in *.
      * destruct Hinv as [(i & Hi & Hfi & Ha) Hmin].
        split.
        -- destruct (Z.min_spec a (arrival_time (df !!! k))) as [[? ->]|[? ->]].
           ++ exists i. split_and!; [lia|done|done].
           ++ exists k. split_and!; [lia|done|done].
        -- intros j Hj Hfj. destruct (decide (j = k)) as [->|]; [lia|].
           specialize (Hmin j ltac:(lia) Hfj). lia.
      * split; [exists k; split_and!; [lia|done|done]|].
        intros j Hj Hfj. destruct (decide (j = k)) as [->|]; [lia|].
        destruct (Hinv j); [lia|done].
    + assert (¬ future df is_completed sel t k) as Hn.
      { rewrite <- future_bool, Hc. done. }
      destruct acc as [a|]; simpl in *.
      * destruct Hinv as [(i & Hi & Hfi & Ha) Hmin].
        split; [exists i; split_and!; [lia|done|done]|].
        intros j Hj Hfj. destruct (decide (j = k)) as [->|]; [done|].
        apply Hmin; [lia|done].
      * intros j Hj. destruct (decide (j = k)) as [->|]; [done|].
        apply Hinv. lia.
Qed.

Lemma future_arrival_after is_completed sel t a :
  future_arrival df is_completed sel t = Some a → t < a.
Proof.
  intros H. pose proof (future_arrival_scan is_completed sel t) as Hs.
  rewrite H in Hs. destruct Hs as [(i & _ & (_ & _ & Hlt) & <-) _]. done.
Qed.

Lemma enqueue_arrived_filter remaining t other queue :
  enqueue_arrived df remaining t other queue
  = queue ++ filter (arrived df remaining t other queue) (seq 0 (length df)).
Proof.
  unfold enqueue_arrived.
  apply (fold_left_seq_ind _
           (λ k q, q = queue ++ filter (arrived df remaining t other queue) (seq 0 k))).
  - simpl. by rewrite app_nil_r.
  - intros k q Hk ->. rewrite seq_S, filter_app, app_assoc. f_equal.
    unfold enqueue_body. simpl.
    destruct (decide (arrived df remaining t other queue k)) as [Ha|Hn].
    + rewrite filter_cons_True by done. simpl.
      destruct Ha as (Ha & Hr & Hq & Ho).
      rewrite (proj2 (Z.leb_le _ _) Ha), (proj2 (Z.ltb_lt _ _) Hr), Ho.
      rewrite bool_decide_eq_true_2; [done|].
      rewrite not_elem_of_app. split; [done|].
      rewrite list_elem_of_filter, elem_of_seq. lia.
    + rewrite filter_cons_False by done. rewrite filter_nil, app_nil_r.
      destruct (_ && _) eqn:Hc; [|done]. exfalso. apply Hn.
      rewrite !andb_true_iff, Z.leb_le, Z.ltb_lt, bool_decide_eq_true in Hc.
      destruct Hc as [[[? ?] Hq] ?]. split_and!; try done.
      rewrite not_elem_of_app in Hq. tauto.
Qed.

Lemma seed_queue_filter t :
  seed_queue df t
  = filter (λ j, arrival_time (df !!! j) ≤ t) (seq 0 (length df)).
Proof.
  unfold seed_queue.
  apply (fold_left_seq_ind _
           (λ k q, q = filter (λ j, arrival_time (df !!! j) ≤ t) (seq 0 k))).
  - done.
  - intros k q Hk ->. rewrite seq_S, filter_app. f_equal. simpl.
    destruct (arrival_time (df !!! k) <=? t) eqn:Ha;
      [apply Z.leb_le in Ha|apply Z.leb_gt in Ha].
    + by rewrite filter_cons_True.
    + rewrite filter_cons_False by lia. by rewrite app_nil_r.
Qed.
End scans.

(** ** Schedules *)

Lemma tiles_app t0 l1 l2 t1 :
  tiles t0 (l1 ++ l2) t1 ↔ ∃ t, tiles t0 l1 t ∧ tiles t l2 t1.
Proof.
  revert t0. induction l1 as [|s l1 IH]; intros t0; simpl.
  - split; [eauto|]. by intros (t & -> & ?).
  - rewrite IH. split.
    + intros (? & ? & t & ? & ?). eauto.
    + intros (t & (? & ? & ?) & ?). eauto.
Qed.

Lemma tiles_snoc t0 l t s :
  tiles t0 l t → start_time s = t → start_time s < end_time s →
  tiles t0 (l ++ [s]) (end_time s).
Proof. intros. apply tiles_app. exists t. simpl. done. Qed.

Lemma tiles_le t0 l t1 : tiles t0 l t1 → t0 ≤ t1.
Proof.
  revert t0. induction l as [|s l IH]; intros t0; simpl; [lia|].
  intros (? & ? & Hl). apply IH in Hl. lia.
Qed.

Lemma tiles_bounds t0 l t1 s :
  tiles t0 l t1 → s ∈ l → t0 ≤ start_time s ∧ start_time s < end_time s ∧ end_time s ≤ t1.
Proof.
  revert t0. induction l as [|x l IH]; intros t0 Ht Hs; [by apply elem_of_nil in Hs|].
  destruct Ht as (? & ? & Hl). apply elem_of_cons in Hs as [->|Hs].
  - apply tiles_le in Hl. lia.
  - destruct (IH _ Hl Hs). lia.
Qed.

(** [tiles] spelled out: the first start, the lengths, the joints. *)
Lemma tiles_spelled t0 l t1 :
  tiles t0 l t1 →
  (∀ s, head l = Some s → start_time s = t0)
  ∧ Forall (λ s, start_time s < end_time s) l
  ∧ (∀ k s1 s2, l !! k = Some s1 → l !! Datatypes.S k = Some s2 →
                end_time s1 = start_time s2)
  ∧ (∀ s, last l = Some s → end_time s = t1).
Proof.
  revert t0. induction l as [|x l IH]; intros t0; simpl.
  - intros <-. split_and!; done.
  - intros (Hx & Hpos & Hl). destruct (IH _ Hl) as (Hh & Hf & Hj & Hlast).
    split_and!.
    + intros s [= <-]. done.
    + by constructor.
    + intros [|k] s1 s2; simpl.
      * intros [= <-] H2. symmetry. apply Hh. by destruct l; simplify_eq/=.
      * apply Hj.
    + intros s. destruct l as [|y l]; simpl in *.
      * intros [= <-]. done.
      * apply Hlast.
Qed.

Lemma sum_app l1 l2 : sum (l1 ++ l2) = sum l1 + sum l2.
Proof. unfold sum. induction l1; simpl; lia. Qed.

Lemma exec_time_app p l1 l2 :
  exec_time p (l1 ++ l2) = exec_time p l1 + exec_time p l2.
Proof. unfold exec_time. by rewrite filter_app, fmap_app, sum_app. Qed.

Lemma exec_time_one p s :
  exec_time p [s] = if decide (seg_pid s = p) then duration s else 0.
Proof.
  unfold exec_time. rewrite filter_cons, filter_nil.
  destruct (decide (seg_pid s = p)); simpl; lia.
Qed.

Lemma exec_time_snoc p l s :
  exec_time p (l ++ [s])
  = exec_time p l + if decide (seg_pid s = p) then duration s else 0.
Proof. by rewrite exec_time_app, exec_time_one. Qed.

Lemma exec_time_nil p : exec_time p [] = 0.
Proof. done. Qed.

(** [schedule[-1]['end_time'] = t] on a schedule that ends with [s]. *)
Lemma set_last_end_snoc l s t :
  set_last_end (l ++ [s]) t = Some (l ++ [mkSegment (seg_pid s) (start_time s) t]).
Proof.
  induction l as [|x l IH]; [done|].
  change ((x :: l) ++ [s]) with (x :: (l ++ [s])). simpl. rewrite IH.
  destruct (l ++ [s]) eqn:E; [by destruct l|]. done.
Qed.

Lemma set_last_end_nil t : set_last_end [] t = None.
Proof. done. Qed.

(** ** Lists indexed by row *)

Lemma sum_insert (l : list Z) i v :
  (i < length l)%nat → sum (<[i := v]> l) = sum l - l !!! i + v.
Proof.
  revert i. induction l as [|x l IH]; intros i Hi; simpl in *; [lia|].
  destruct i as [|i]; simpl.
  - unfold sum. simpl. lia.
  - unfold sum in *. simpl. rewrite IH by lia.
    change ((x :: l) !!! Datatypes.S i) with (l !!! i). lia.
Qed.

Lemma sum_nonneg (l : list Z) :
  (∀ i, (i < length l)%nat → 0 ≤ l !!! i) → 0 ≤ sum l.
Proof.
  induction l as [|x l IH]; intros H; unfold sum in *; simpl; [lia|].
  pose proof (H 0%nat ltac:(simpl; lia)) as H0. simpl in H0.
  assert (0 ≤ foldr Z.add 0 l); [|lia].
  apply IH. intros i Hi. apply (H (Datatypes.S i)). simpl. lia.
Qed.

Lemma sum_zero (l : list Z) i :
  (∀ i, (i < length l)%nat → 0 ≤ l !!! i) → sum l ≤ 0 →
  (i < length l)%nat → l !!! i = 0.
Proof.
  revert i. induction l as [|x l IH]; intros i H Hs Hi; simpl in *; [lia|].
  pose proof (H 0%nat ltac:(simpl; lia)) as H0. simpl in H0.
  assert (∀ i, (i < length l)%nat → 0 ≤ l !!! i) as Hl.
  { intros j Hj. apply (H (Datatypes.S j)). simpl. lia. }
  pose proof (sum_nonneg l Hl). unfold sum in *. simpl in Hs.
  destruct i as [|i]; simpl; [lia|].
  change ((x :: l) !!! Datatypes.S i) with (l !!! i). apply IH; [done|lia|lia].
Qed.

Lemma sum_pos (l : list Z) i :
  (∀ i, (i < length l)%nat → 0 ≤ l !!! i) →
  (i < length l)%nat → 0 < l !!! i → 0 < sum l.
Proof.
  intros H Hi Hp. destruct (decide (0 < sum l)); [done|].
  rewrite (sum_zero l i) in Hp; [lia|done|lia|done].
Qed.

Lemma count_true_le (l : list bool) : (count_true l ≤ length l)%nat.
Proof. apply length_filter. Qed.

Lemma count_true_cons b (l : list bool) :
  count_true (b :: l) = ((if b then 1 else 0) + count_true l)%nat.
Proof. unfold count_true. rewrite filter_cons. by destruct b. Qed.

Lemma count_true_insert (l : list bool) i :
  (i < length l)%nat → l !!! i = false →
  count_true (<[i := true]> l) = Datatypes.S (count_true l).
Proof.
  revert i. induction l as [|b l IH]; intros i Hi Hf; [simpl in Hi; lia|].
  destruct i as [|i].
  - change (b = false) in Hf. subst b.
    change (<[0%nat:=true]> (false :: l)) with (true :: l).
    by rewrite !count_true_cons.
  - change (l !!! i = false) in Hf.
    change (<[Datatypes.S i:=true]> (b :: l)) with (b :: <[i:=true]> l).
    rewrite !count_true_cons, IH; [lia|simpl in Hi; lia|done].
Qed.

Lemma count_true_all (l : list bool) i :
  count_true l = length l → (i < length l)%nat → l !!! i = true.
Proof.
  revert i. induction l as [|b l IH]; intros i Hc Hi; [simpl in Hi; lia|].
  rewrite count_true_cons in Hc. pose proof (count_true_le l).
  destruct b; simpl in Hc, Hi; [|lia].
  destruct i as [|i]; [done|].
  change (l !!! i = true). apply IH; lia.
Qed.

Lemma count_true_some_false (l : list bool) :
  count_true l ≠ length l → ∃ i, (i < length l)%nat ∧ l !!! i = false.
Proof.
  induction l as [|b l IH]; intros Hc; [done|].
  rewrite count_true_cons in Hc. destruct b; simpl in Hc.
  - destruct IH as (i & ? & ?); [lia|]. exists (Datatypes.S i). split; [simpl; lia|done].
  - exists 0%nat. split; [simpl; lia|done].
Qed.

(** ** Sorting *)

Section sort_by.
Context {A : Type} (leb : A → A → bool).

Lemma insert_by_Permutation x l : insert_by leb x l ≡ₚ x :: l.
Proof.
  induction l as [|y l IH]; simpl; [done|].
  destruct (leb x y); [done|]. rewrite IH. apply Permutation_swap.
Qed.

Lemma sort_by_Permutation l : sort_by leb l ≡ₚ l.
Proof.
  induction l as [|x l IH]; simpl; [done|].
  change (foldr (insert_by leb) [] l) with (sort_by leb l).
  by rewrite insert_by_Permutation, IH.
Qed.

Lemma sort_by_length l : length (sort_by leb l) = length l.
Proof. by rewrite sort_by_Permutation. Qed.

Context (total : ∀ x y, leb x y = true ∨ leb y x = true).

Lemma insert_by_Sorted x l :
  Sorted (λ a b, leb a b = true) l →
  Sorted (λ a b, leb a b = true) (insert_by leb x l).
Proof.
  induction l as [|y l IH]; simpl; intros Hs.
  - repeat constructor.
  - destruct (leb x y) eqn:Hxy.
    + constructor; [done|]. by constructor.
    + apply Sorted_inv in Hs as [Hs Hhd]. constructor; [by apply IH|].
      destruct l as [|z l]; simpl.
      * constructor. destruct (total x y); congruence.
      * destruct (leb x z).
        -- constructor. destruct (total x y); congruence.
        -- constructor. by apply HdRel_inv in Hhd.
Qed.

Lemma sort_by_Sorted l : Sorted (λ a b, leb a b = true) (sort_by leb l).
Proof.
  induction l as [|x l IH]; simpl; [constructor|]. by apply insert_by_Sorted.
Qed.
End sort_by.

(** Sorting rows with their labels sorts the rows. *)
Lemma insert_by_fst {A B : Type} (leb : A → A → bool) (x : A * B) l :
  fst <$> insert_by (λ a b, leb (fst a) (fst b)) x l
  = insert_by leb (fst x) (fst <$> l).
Proof.
  induction l as [|y l IH]; [done|].
  rewrite fmap_cons. cbn [insert_by].
  destruct (leb x.1 y.1); [done|]. rewrite fmap_cons. by rewrite IH.
Qed.

Lemma sort_by_fst {A B : Type} (leb : A → A → bool) (l : list (A * B)) :
  fst <$> sort_by (λ a b, leb (fst a) (fst b)) l = sort_by leb (fst <$> l).
Proof.
  induction l as [|x l IH]; [done|].
  unfold sort_by in *. rewrite fmap_cons. cbn [foldr].
  by rewrite insert_by_fst, IH.
Qed.

Lemma row_leb_total p q : row_leb p q = true ∨ row_leb q p = true.
Proof.
  unfold row_leb.
  destruct (Z.lt_trichotomy (arrival_time p) (arrival_time q)) as [H|[H|H]].
  - left. by rewrite (proj2 (Z.ltb_lt _ _) H).
  - rewrite H, Z.eqb_refl, Z.ltb_irrefl. simpl.
    destruct (String.le_total (pid p) (pid q)) as [Hl|Hl];
      unfold String.le in Hl; apply Is_true_true in Hl; rewrite Hl; auto.
  - right. by rewrite (proj2 (Z.ltb_lt _ _) H).
Qed.

Lemma sort_values_Permutation df : sort_values df ≡ₚ df.
Proof. apply sort_by_Permutation. Qed.

Lemma sort_values_Sorted df : Sorted row_le (sort_values df).
Proof. apply (sort_by_Sorted row_leb row_leb_total). Qed.

Lemma sort_values_length df : length (sort_values df) = length df.
Proof. apply sort_by_length. Qed.

Lemma rows_sort_frame df : rows (sort_frame df) = sort_values (rows df).
Proof.
  unfold sort_frame, sort_order, sort_values. simpl.
  set (tagged := sort_by _ _).
  assert (∀ a, a ∈ tagged → rows df !!! snd a = fst a) as Htag.
  { intros [p i] Hin. unfold tagged in Hin. rewrite sort_by_Permutation in Hin.
    apply list_elem_of_lookup in Hin as [k Hk].
    apply lookup_zip_with_Some in Hk as (p' & i' & [= <- <-] & Hp & Hi).
    apply lookup_seq in Hi as [-> _]. simpl.
    by apply list_lookup_total_correct. }

  transitivity (fst <$> tagged).
  - rewrite <- list_fmap_compose.
    apply list_fmap_ext. intros k a Hk. simpl. apply Htag.
    by eapply list_elem_of_lookup_2.
  - unfold tagged. rewrite sort_by_fst, fst_zip; [done|].
    rewrite length_seq. lia.
Qed.

Lemma valid_Permutation df df' : df ≡ₚ df' → valid df → valid df'.
Proof.
  intros Hp [Hf Hn]. split.
  - by rewrite <- Hp.
  - by rewrite <- Hp.
Qed.

(** ** Valid inputs *)

Lemma burst_lookup df i :
  Forall (λ p, 0 < burst_time p) df → (i < length df)%nat →
  0 < burst_time (df !!! i).
Proof.
  intros Hf Hi. rewrite Forall_lookup in Hf. apply (Hf i).
  by apply list_lookup_lookup_total_lt.
Qed.

Lemma pid_inj df i j :
  NoDup (pid <$> df) → (i < length df)%nat → (j < length df)%nat →
  pid (df !!! i) = pid (df !!! j) → i = j.
Proof.
  intros Hn Hi Hj Heq. eapply NoDup_lookup; [exact Hn| |].
  - rewrite list_lookup_fmap, (list_lookup_lookup_total_lt df i Hi). done.
  - rewrite list_lookup_fmap, (list_lookup_lookup_total_lt df j Hj). simpl.
    by rewrite Heq.
Qed.

Lemma not_idle df i :
  Idle ∉ pid <$> df → (i < length df)%nat → pid (df !!! i) ≠ Idle.
Proof.
  intros Hn Hi Heq. apply Hn. rewrite <- Heq. apply list_elem_of_fmap.
  exists (df !!! i). split; [done|]. by apply list_elem_of_lookup_total_2.
Qed.

Lemma exec_time_snoc_ne p l s :
  seg_pid s ≠ p → exec_time p (l ++ [s]) = exec_time p l.
Proof. intros. rewrite exec_time_snoc, decide_False by done. lia. Qed.

Lemma exec_time_snoc_eq p l s :
  seg_pid s = p → exec_time p (l ++ [s]) = exec_time p l + duration s.
Proof. intros. by rewrite exec_time_snoc, decide_True. Qed.

Lemma finished_snoc df schedule ct i s :
  finished df schedule ct i → finished df (schedule ++ [s]) ct i.
Proof.
  intros [? (x & ? & ? & ?)]. split; [done|]. exists x.
  rewrite elem_of_app. auto.
Qed.

Lemma finished_insert_ne df schedule ct i j v :
  i ≠ j → finished df schedule ct i → finished df schedule (<[j := v]> ct) i.
Proof.
  intros Hne. unfold finished. by rewrite list_lookup_total_insert_ne.
Qed.

(** ** First Come First Serve: the loop invariant *)

Section fcfs_loop.
Context (processes : list Process) (Hburst : Forall (λ p, 0 < burst_time p) processes).
Let n := length processes.

(** After [k] passes. *)
Record fcfs_inv (k : nat) (st : fcfs_state) : Prop := {
  fcfs_len_ct : length (fcfs_completion_time st) = n;
  fcfs_len_tt : length (fcfs_turnaround_time st) = n;
  fcfs_len_wt : length (fcfs_waiting_time st) = n;
  fcfs_tiles : tiles 0 (fcfs_schedule st) (fcfs_current_time st);
  fcfs_done : ∀ i, (i < k)%nat →
    finished processes (fcfs_schedule st) (fcfs_completion_time st) i
    ∧ fcfs_turnaround_time st !!! i
      = fcfs_completion_time st !!! i - arrival_time (processes !!! i)
    ∧ fcfs_waiting_time st !!! i
      = fcfs_turnaround_time st !!! i - burst_time (processes !!! i);
  fcfs_exec : NoDup (pid <$> processes) → Idle ∉ pid <$> processes → ∀ i, (i < n)%nat →
    exec_time (pid (processes !!! i)) (fcfs_schedule st)
    = if decide (i < k)%nat then burst_time (processes !!! i) else 0;
}.

Lemma fcfs_inv_init : fcfs_inv 0 (fcfs_init n).
Proof.
  split; simpl; rewrite ?length_replicate; try done; intros; lia.
Qed.

Lemma fcfs_inv_step k st :
  (k < n)%nat → fcfs_inv k st → fcfs_inv (Datatypes.S k) (fcfs_body processes st k).
Proof.
  intros Hk [Hct Htt Hwt Htiles Hdone Hexec].
  pose proof (burst_lookup processes k Hburst Hk) as Hbk.
  pose proof (tiles_le _ _ _ Htiles) as Htime.
  unfold fcfs_body. cbv zeta.
  set (p := processes !!! k) in *.
  set (t := if fcfs_current_time st <? arrival_time p then arrival_time p
            else fcfs_current_time st).
  set (sched := if fcfs_current_time st <? arrival_time p
                then fcfs_schedule st
                       ++ [mkSegment Idle (fcfs_current_time st) (arrival_time p)]
                else fcfs_schedule st).
  assert (tiles 0 sched t ∧ arrival_time p ≤ t
          ∧ (∀ i, finished processes (fcfs_schedule st) (fcfs_completion_time st) i
                  → finished processes sched (fcfs_completion_time st) i)
          ∧ (NoDup (pid <$> processes) → Idle ∉ pid <$> processes → ∀ i, (i < n)%nat →
             exec_time (pid (processes !!! i)) sched
             = exec_time (pid (processes !!! i)) (fcfs_schedule st)))
    as (Htiles' & Hat & Hfin & Hex).
  { unfold sched, t. destruct (fcfs_current_time st <? arrival_time p) eqn:Hgap;
      [apply Z.ltb_lt in Hgap|apply Z.ltb_ge in Hgap].
    - split_and!; [|lia| |].
      + by apply (tiles_snoc _ _ _ (mkSegment Idle _ _) Htiles).
      + intros i. apply finished_snoc.
      + intros Hnodup Hidle i Hi. apply exec_time_snoc_ne. simpl.
        intros Heq. by eapply not_idle.
    - split_and!; [done|lia|done|done]. }
  split; simpl; rewrite ?length_insert; try done.
  - by apply (tiles_snoc _ _ _ (mkSegment (pid p) t (t + burst_time p)) Htiles');
      simpl; try lia.
  - intros i Hi. destruct (decide (i = k)) as [->|Hne].
    + unfold finished. rewrite !list_lookup_total_insert_eq by lia.
      split; [split|split; done]; [fold p; lia|]. eexists. split; [apply elem_of_app; right; apply list_elem_of_singleton; done|].
      done.
    + rewrite !list_lookup_total_insert_ne by done.
      destruct (Hdone i) as (Hf & ? & ?); [lia|]. split_and!; [|done|done].
      apply finished_snoc, finished_insert_ne; [done|]. by apply Hfin.
  - intros Hnodup Hidle i Hi. rewrite exec_time_snoc, Hex, Hexec by done. simpl.
    unfold duration. simpl. destruct (decide (i = k)) as [->|Hne].
    + fold p. repeat case_decide; try lia; done.
    + destruct (decide (pid p = pid (processes !!! i))) as [Heq|_].
      * exfalso. apply Hne. symmetry. by eapply pid_inj.
      * repeat case_decide; lia.
Qed.

Lemma fcfs_loop_inv : fcfs_inv n (fcfs_loop processes).
Proof.
  unfold fcfs_loop. fold n. apply (fold_left_seq_ind _ fcfs_inv).
  - apply fcfs_inv_init.
  - apply fcfs_inv_step.
Qed.
End fcfs_loop.

Lemma count_true_replicate n : count_true (replicate n false) = 0%nat.
Proof.
  induction n as [|n IH]; [done|].
  change (replicate (Datatypes.S n) false) with (false :: replicate n false).
  by rewrite count_true_cons, IH.
Qed.

(** ** Shortest Job First: the loop invariant *)

Section sjf_loop.
Context (df : list Process) (Hburst : Forall (λ p, 0 < burst_time p) df).
Let n := length df.

Record sjf_inv (st : sjf_state) : Prop := {
  sjf_len_ct : length (sjf_completion_time st) = n;
  sjf_len_tt : length (sjf_turnaround_time st) = n;
  sjf_len_wt : length (sjf_waiting_time st) = n;
  sjf_len_done : length (sjf_is_completed st) = n;
  sjf_count : sjf_completed st = count_true (sjf_is_completed st);
  sjf_tiles : tiles 0 (sjf_schedule st) (sjf_current_time st);
  sjf_done : ∀ i, (i < n)%nat → sjf_is_completed st !!! i = true →
    finished df (sjf_schedule st) (sjf_completion_time st) i
    ∧ sjf_turnaround_time st !!! i
      = sjf_completion_time st !!! i - arrival_time (df !!! i)
    ∧ sjf_waiting_time st !!! i
      = sjf_turnaround_time st !!! i - burst_time (df !!! i);
  sjf_exec : NoDup (pid <$> df) → Idle ∉ pid <$> df → ∀ i, (i < n)%nat →
    exec_time (pid (df !!! i)) (sjf_schedule st)
    = if (sjf_is_completed st !!! i : bool) then burst_time (df !!! i) else 0;
}.

(** Two passes at most for each process that is left: one idle, one run. *)
Definition sjf_measure (st : sjf_state) : nat :=
  (2 * (n - sjf_completed st)
   + match select burst_time df (sjf_is_completed st) (sjf_current_time st) with
     | Some _ => 0
     | None => 1
     end)%nat.

Lemma sjf_inv_init : sjf_inv (sjf_init n).
Proof.
  split; simpl; rewrite ?length_replicate; try done.
  - by rewrite count_true_replicate.
  - intros i Hi. by rewrite lookup_total_replicate_2.
  - intros _ _ i Hi. by rewrite lookup_total_replicate_2.
Qed.

(** An idle pass moves the clock forward, to the arrival of a process that
    is then ready. *)
Lemma sjf_idle_spec st :
  sjf_inv st → sjf_completed st ≠ n →
  select burst_time df (sjf_is_completed st) (sjf_current_time st) = None →
  ∃ st', sjf_idle df st = Some st'
         ∧ sjf_current_time st < sjf_current_time st'
         ∧ sjf_inv st' ∧ (sjf_measure st' < sjf_measure st)%nat.
Proof.
  intros [Hct Htt Hwt Hdn Hcount Htiles Hdone Hexec] Hn Hsel.
  destruct (count_true_some_false (sjf_is_completed st)) as (i0 & Hi0 & Hf0);
    [congruence|].
  unfold sjf_idle.
  destruct (earliest_pending df (λ i, negb (sjf_is_completed st !!! i)) i0)
    as [a Ha]; [fold n; lia|by rewrite Hf0|].
  rewrite Ha. eexists. split; [done|].
  apply earliest_Some in Ha as [(i & Hi & Hpi & <-) Hmin].
  apply negb_true_iff in Hpi.
  assert (sjf_current_time st < arrival_time (df !!! i)) as Hlt.
  { destruct (decide (sjf_current_time st < arrival_time (df !!! i))); [done|].
    destruct (select_None df _ _ _ i Hsel Hi). split; [lia|done]. }
  simpl. split; [done|]. split.
  - split; simpl; try done.
    + by apply (tiles_snoc _ _ _ (mkSegment Idle _ _) Htiles).
    + intros j Hj Hc. destruct (Hdone j Hj Hc) as (? & ? & ?).
      split_and!; [|done|done]. by apply finished_snoc.
    + intros Hnodup Hidle j Hj. rewrite exec_time_snoc_ne; [by apply Hexec|].
      simpl. intros Heq. by eapply not_idle.
  - unfold sjf_measure. simpl. rewrite Hsel.
    destruct (select_ready df burst_time (sjf_is_completed st)
                (arrival_time (df !!! i)) i) as [x ->]; [done| |lia].
    split; [lia|done].
Qed.

(** A run pass completes the selected process. *)
Lemma sjf_run_spec st i :
  sjf_inv st →
  select burst_time df (sjf_is_completed st) (sjf_current_time st) = Some i →
  sjf_inv (sjf_run df st i) ∧ (sjf_measure (sjf_run df st i) < sjf_measure st)%nat.
Proof.
  intros [Hct Htt Hwt Hdn Hcount Htiles Hdone Hexec] Hsel.
  pose proof Hsel as Hsel'.
  apply select_Some in Hsel' as (Hi & [Harr Hnc] & _). fold n in Hi.
  pose proof (burst_lookup df i Hburst Hi) as Hbi.
  assert (count_true (<[i:=true]> (sjf_is_completed st))
          = Datatypes.S (count_true (sjf_is_completed st))) as Hc'.
  { apply count_true_insert; [lia|done]. }
  split.
  - unfold sjf_run. split; simpl; rewrite ?length_insert; try done.
    + by rewrite Hc', Hcount.
    + apply (tiles_snoc _ _ _ (mkSegment _ _ _) Htiles); simpl; [done|lia].
    + intros j Hj. destruct (decide (j = i)) as [->|Hne].
      * intros _. unfold finished.
        rewrite !list_lookup_total_insert_eq by lia.
        split; [split|split; done]; [lia|].
        eexists. split; [apply elem_of_app; right; by apply list_elem_of_singleton|].
        done.
      * rewrite !list_lookup_total_insert_ne by done. intros Hc.
        destruct (Hdone j Hj Hc) as (? & ? & ?). split_and!; [|done|done].
        by apply finished_snoc, finished_insert_ne.
    + intros Hnodup Hidle j Hj. rewrite exec_time_snoc, Hexec by done. simpl.
      unfold duration. simpl. destruct (decide (j = i)) as [->|Hne].
      * rewrite list_lookup_total_insert_eq, Hnc by lia.
        rewrite decide_True by done. lia.
      * rewrite list_lookup_total_insert_ne by done.
        rewrite decide_False; [lia|].
        intros Heq. apply Hne. symmetry. by eapply pid_inj.
  - unfold sjf_measure, sjf_run. simpl. rewrite Hsel.
    pose proof (count_true_le (<[i:=true]> (sjf_is_completed st))) as Hle.
    rewrite length_insert, Hdn, Hc', <- Hcount in Hle.
    case_match; lia.
Qed.

Lemma sjf_body_inv st :
  sjf_inv st →
  match sjf_body df st with
  | Next st' => sjf_inv st' ∧ (sjf_measure st' < sjf_measure st)%nat
  | Break => True
  | _ => False
  end.
Proof.
  intros Hinv. unfold sjf_body. fold n.
  destruct (decide (sjf_completed st = n)) as [|Hn]; [done|].
  destruct (select _ _ _ _) as [i|] eqn:Hsel.
  - by apply sjf_run_spec.
  - destruct (sjf_idle_spec st Hinv Hn Hsel) as (st' & -> & _ & ? & ?). done.
Qed.

(** The loop leaves within [2 * n + 2] passes, with every process
    completed. *)
Lemma sjf_loop_returns fuel :
  (2 * n + 2 ≤ fuel)%nat →
  ∃ st, while (sjf_body df) fuel (sjf_init n) = Return st
        ∧ sjf_inv st ∧ ∀ i, (i < n)%nat → sjf_is_completed st !!! i = true.
Proof.
  intros Hfuel.
  destruct (while_returns (sjf_body df) sjf_inv sjf_measure sjf_body_inv
              fuel (sjf_init n) sjf_inv_init) as (st & Hw & Hinv & Hb).
  { unfold sjf_measure. simpl. destruct (select _ _ _ _); lia. }
  exists st. split_and!; [done|done|]. intros i Hi.
  unfold sjf_body in Hb. fold n in Hb.
  destruct (decide (sjf_completed st = n)) as [Hc|].
  - destruct Hinv. apply count_true_all; [congruence|lia].
  - destruct (select _ _ _ _); [done|]. by destruct (sjf_idle df st).
Qed.
End sjf_loop.

Lemma sum_pos_exists (l : list Z) :
  0 < sum l → ∃ i, (i < length l)%nat ∧ 0 < l !!! i.
Proof.
  induction l as [|x l IH]; unfold sum in *; simpl; [lia|]. intros H.
  destruct (decide (0 < x)).
  - exists 0%nat. split; [lia|done].
  - destruct IH as (i & ? & ?); [lia|]. exists (Datatypes.S i). split; [lia|done].
Qed.

(** ** Round Robin: the loop invariant *)

Section rr_loop.
Context (df : list Process) (Hburst : Forall (λ p, 0 < burst_time p) df).
Context (time_quantum : Z) (Hquantum : 1 ≤ time_quantum).
Let n := length df.

Record rr_inv (st : rr_state) : Prop := {
  rr_len_ct : length (rr_completion_time st) = n;
  rr_len_rem : length (rr_remaining_burst_time st) = n;
  rr_rem_range : ∀ i, (i < n)%nat →
    0 ≤ rr_remaining_burst_time st !!! i ≤ burst_time (df !!! i);
  rr_tiles : tiles 0 (rr_schedule st) (rr_current_time st);
  rr_queue_nodup : NoDup (rr_ready_queue st);
  rr_queue_sound : ∀ j, j ∈ rr_ready_queue st →
    (j < n)%nat ∧ arrival_time (df !!! j) ≤ rr_current_time st
    ∧ 0 < rr_remaining_burst_time st !!! j;
  rr_queue_complete : ∀ j, (j < n)%nat →
    arrival_time (df !!! j) ≤ rr_current_time st →
    0 < rr_remaining_burst_time st !!! j → j ∈ rr_ready_queue st;
  rr_progress : ∀ i, (i < n)%nat →
    rr_remaining_burst_time st !!! i < burst_time (df !!! i) →
    arrival_time (df !!! i)
      + (burst_time (df !!! i) - rr_remaining_burst_time st !!! i)
    ≤ rr_current_time st;
  rr_done : ∀ i, (i < n)%nat → rr_remaining_burst_time st !!! i = 0 →
    finished df (rr_schedule st) (rr_completion_time st) i;
  rr_exec : NoDup (pid <$> df) → Idle ∉ pid <$> df → ∀ i, (i < n)%nat →
    exec_time (pid (df !!! i)) (rr_schedule st)
    = burst_time (df !!! i) - rr_remaining_burst_time st !!! i;
}.

(** Two passes at most for each unit of work that is left. *)
Definition rr_measure (st : rr_state) : nat :=
  (2 * Z.to_nat (sum (rr_remaining_burst_time st))
   + match rr_ready_queue st with [] => 1 | _ => 0 end)%nat.

Lemma rr_inv_init : rr_inv (rr_init df).
Proof.
  assert (∀ i, (i < n)%nat → (burst_time <$> df) !!! i = burst_time (df !!! i))
    as Hrem.
  { intros i Hi. by apply (list_lookup_total_fmap burst_time). }
  unfold rr_init. rewrite seed_queue_filter.
  split; simpl; rewrite ?length_replicate, ?length_fmap; try done.
  - intros i Hi. rewrite Hrem by done.
    pose proof (burst_lookup df i Hburst Hi). lia.
  - apply NoDup_filter, NoDup_seq.
  - intros j Hj. apply list_elem_of_filter in Hj as [Ha Hj].
    apply elem_of_seq in Hj. fold n in Hj. rewrite Hrem by lia.
    pose proof (burst_lookup df j Hburst ltac:(fold n; lia)). split_and!; [lia|done|lia].
  - intros j Hj Ha _. apply list_elem_of_filter. split; [done|].
    apply elem_of_seq. fold n. lia.
  - intros i Hi. rewrite Hrem by done. lia.
  - intros i Hi. rewrite Hrem by done. pose proof (burst_lookup df i Hburst Hi). lia.
  - intros _ _ i Hi. rewrite Hrem by done. rewrite exec_time_nil. lia.
Qed.

(** An idle pass moves the clock forward and queues a process. *)
Lemma rr_idle_spec st :
  rr_inv st → rr_ready_queue st = [] → 0 < sum (rr_remaining_burst_time st) →
  ∃ st', rr_idle df st = Some st'
         ∧ rr_current_time st < rr_current_time st'
         ∧ rr_inv st' ∧ (rr_measure st' < rr_measure st)%nat.
Proof.
  intros [Hct Hrem Hrange Htiles Hnd Hsound Hcomplete Hprog Hdone Hexec] Hq Hsum.
  destruct (sum_pos_exists _ Hsum) as (i0 & Hi0 & Hp0). rewrite Hrem in Hi0.
  unfold rr_idle.
  destruct (earliest_pending df (λ i, 0 <? rr_remaining_burst_time st !!! i) i0)
    as [a Ha]; [done|by apply Z.ltb_lt|].
  rewrite Ha. eexists. split; [done|].
  apply earliest_Some in Ha as [(i & Hi & Hpi & <-) Hmin].
  apply Z.ltb_lt in Hpi. fold n in Hi.
  assert (rr_current_time st < arrival_time (df !!! i)) as Hlt.
  { destruct (decide (rr_current_time st < arrival_time (df !!! i))); [done|].
    specialize (Hcomplete i Hi ltac:(lia) Hpi). rewrite Hq in Hcomplete.
    by apply elem_of_nil in Hcomplete. }
  simpl. split; [done|].
  rewrite enqueue_arrived_filter, Hq. simpl.
  assert (i ∈ filter (arrived df (rr_remaining_burst_time st)
                        (arrival_time (df !!! i)) (λ _, true) [])
                     (seq 0 (length df))) as Hin.
  { apply list_elem_of_filter. split; [|apply elem_of_seq; fold n; lia].
    split_and!; [lia|done|apply not_elem_of_nil|done]. }
  split.
  - split; simpl; try done.
    + by apply (tiles_snoc _ _ _ (mkSegment Idle _ _) Htiles).
    + apply NoDup_filter, NoDup_seq.
    + intros j Hj. apply list_elem_of_filter in Hj as [(? & ? & _) Hj].
      apply elem_of_seq in Hj. fold n in Hj. split_and!; [lia|done|done].
    + intros j Hj Haj Hpj. apply list_elem_of_filter.
      split; [|apply elem_of_seq; fold n; lia].
      split_and!; [done|done|apply not_elem_of_nil|done].
    + intros j Hj Hr. specialize (Hprog j Hj Hr). lia.
    + intros j Hj Hr. by apply finished_snoc, Hdone.
    + intros Hnodup Hidle j Hj. rewrite exec_time_snoc_ne; [by apply Hexec|].
      simpl. intros Heq. by eapply not_idle.
  - unfold rr_measure. simpl. rewrite Hq.
    destruct (filter _ _); [by apply elem_of_nil in Hin|lia].
Qed.

(** A slice runs the head of the queue for at least one unit. *)
Lemma rr_slice_spec st i rest :
  rr_inv st → rr_ready_queue st = i :: rest →
  rr_current_time st < rr_current_time (rr_slice df time_quantum st i rest)
  ∧ rr_inv (rr_slice df time_quantum st i rest)
  ∧ (rr_measure (rr_slice df time_quantum st i rest) < rr_measure st)%nat.
Proof.
  intros [Hct Hrem Hrange Htiles Hnd Hsound Hcomplete Hprog Hdone Hexec] Hq.
  rewrite Hq in Hnd, Hsound, Hcomplete.
  apply NoDup_cons in Hnd as [Hirest Hnd].
  destruct (Hsound i) as (Hi & Harr & Hpos); [left|].
  pose proof (Hrange i Hi) as Hri.
  unfold rr_slice. cbv zeta.
  set (e := Z.min time_quantum (rr_remaining_burst_time st !!! i)).
  assert (1 ≤ e ≤ rr_remaining_burst_time st !!! i) as He by (unfold e; lia).
  set (rem' := <[i := rr_remaining_burst_time st !!! i - e]>
                 (rr_remaining_burst_time st)).
  set (t' := rr_current_time st + e).
  assert (rem' !!! i = rr_remaining_burst_time st !!! i - e) as Hrem'i.
  { unfold rem'. apply list_lookup_total_insert_eq. lia. }
  assert (∀ j, j ≠ i → rem' !!! j = rr_remaining_burst_time st !!! j) as Hrem'j.
  { intros j Hj. unfold rem'. by apply list_lookup_total_insert_ne. }
  assert (length rem' = n) as Hlen' by (unfold rem'; by rewrite length_insert).
  rewrite enqueue_arrived_filter.
  set (new := filter (arrived df rem' t' (λ j, bool_decide (j ≠ i)) rest)
                     (seq 0 (length df))).
  set (sched' := rr_schedule st ++ [mkSegment (pid (df !!! i)) (rr_current_time st) t']).
  assert (∀ j, j ∈ new ↔ (j < n)%nat ∧ j ≠ i ∧ (j ∉ rest)
                        ∧ arrival_time (df !!! j) ≤ t' ∧ 0 < rem' !!! j) as Hnew.
  { intros j. unfold new, arrived.
    rewrite list_elem_of_filter, elem_of_seq, bool_decide_eq_true. fold n.
    split; [intros [(? & ? & ? & ?) ?]|intros (? & ? & ? & ? & ?)];
      split_and!; try done; lia. }
  assert (NoDup (rest ++ new)) as Hnd1.
  { apply NoDup_app. split_and!; [done| |apply NoDup_filter, NoDup_seq].
    intros j Hj Hjn. apply Hnew in Hjn. tauto. }
  assert (tiles 0 sched' t') as Htiles'.
  { apply (tiles_snoc _ _ _ (mkSegment _ _ _) Htiles); simpl; [done|lia]. }
  assert (∀ j, (j < n)%nat → 0 ≤ rem' !!! j ≤ burst_time (df !!! j)) as Hrange'.
  { intros j Hj. destruct (decide (j = i)) as [->|Hne].
    - rewrite Hrem'i. lia.
    - rewrite Hrem'j by done. by apply Hrange. }
  assert (∀ j, (j < n)%nat → rem' !!! j < burst_time (df !!! j) →
               arrival_time (df !!! j) + (burst_time (df !!! j) - rem' !!! j) ≤ t')
    as Hprog'.
  { intros j Hj. destruct (decide (j = i)) as [->|Hne].
    - rewrite Hrem'i. intros _.
      destruct (decide (rr_remaining_burst_time st !!! i < burst_time (df !!! i))) as [Hl|Hl].
      + specialize (Hprog i Hi Hl). lia.
      + lia.
    - rewrite Hrem'j by done. intros Hl. specialize (Hprog j Hj Hl). lia. }
  assert (∀ j, j ∈ rest ++ new →
               (j < n)%nat ∧ arrival_time (df !!! j) ≤ t' ∧ 0 < rem' !!! j) as Hsound1.
  { intros j Hj. apply elem_of_app in Hj as [Hj|Hj].
    - assert (j ≠ i) by (intros ->; done).
      destruct (Hsound j) as (? & ? & ?); [by right|].
      rewrite Hrem'j by done. split_and!; [done|lia|done].
    - apply Hnew in Hj. tauto. }
  assert (∀ j, (j < n)%nat → j ≠ i → arrival_time (df !!! j) ≤ t' →
               0 < rem' !!! j → j ∈ rest ++ new) as Hcomplete1.
  { intros j Hj Hne Ha Hp. apply elem_of_app.
    destruct (decide (j ∈ rest)); [by left|]. right. apply Hnew. done. }
  assert (NoDup (pid <$> df) → Idle ∉ pid <$> df → ∀ j, (j < n)%nat →
          exec_time (pid (df !!! j)) sched' = burst_time (df !!! j) - rem' !!! j)
    as Hexec'.
  { intros Hnodup Hidle j Hj. unfold sched'. rewrite exec_time_snoc, Hexec by done.
    unfold duration. simpl. destruct (decide (j = i)) as [->|Hne].
    - rewrite decide_True by done. rewrite Hrem'i. unfold t'. lia.
    - rewrite Hrem'j by done. rewrite decide_False; [lia|].
      intros Heq. apply Hne. symmetry. by eapply pid_inj. }
  assert (0 < sum (rr_remaining_burst_time st)) as Hsum.
  { apply (sum_pos _ i); [|lia|done]. intros j Hj. apply Hrange. lia. }
  assert (sum rem' = sum (rr_remaining_burst_time st) - e) as Hsum'.
  { unfold rem'. rewrite sum_insert by lia. lia. }
  destruct (0 <? rem' !!! i) eqn:Hleft;
    [apply Z.ltb_lt in Hleft|apply Z.ltb_ge in Hleft]; simpl.
  - split; [unfold t'; lia|]. split.
    + split; simpl; try done.
      * apply NoDup_app. split_and!; [done| |apply NoDup_singleton].
        intros j Hj ->%list_elem_of_singleton.
        apply elem_of_app in Hj as [Hj|Hj]; [done|]. apply Hnew in Hj. tauto.
      * intros j Hj. apply elem_of_app in Hj as [Hj| ->%list_elem_of_singleton].
        -- by apply Hsound1.
        -- split_and!; [done|unfold t'; lia|done].
      * intros j Hj Ha Hp. apply elem_of_app.
        destruct (decide (j = i)) as [->|Hne].
        -- right. by apply list_elem_of_singleton.
        -- left. by apply Hcomplete1.
      * intros j Hj Hz. assert (j ≠ i) by (intros ->; lia).
        apply finished_snoc, Hdone; [done|]. by rewrite <- Hrem'j.
    + unfold rr_measure. simpl. rewrite Hq, Hsum'.
      destruct ((rest ++ new) ++ [i]) eqn:E; [by destruct (rest ++ new)|]. lia.
  - split; [unfold t'; lia|]. split.
    + split; simpl; rewrite ?length_insert; try done.
      * intros j Hj Ha Hp. apply Hcomplete1; try done. intros ->. lia.
      * intros j Hj Hz. destruct (decide (j = i)) as [->|Hne].
        -- unfold finished. rewrite list_lookup_total_insert_eq by lia.
           split.
           ++ specialize (Hprog' i Hi). lia.
           ++ eexists. split; [apply elem_of_app; right; by apply list_elem_of_singleton|].
              done.
        -- apply finished_snoc, finished_insert_ne; [done|].
           apply Hdone; [done|]. by rewrite <- Hrem'j.
    + unfold rr_measure. simpl. rewrite Hq, Hsum'. case_match; lia.
Qed.

Lemma rr_body_inv st :
  rr_inv st →
  match rr_body df time_quantum st with
  | Next st' => rr_inv st' ∧ (rr_measure st' < rr_measure st)%nat
  | Break => True
  | _ => False
  end.
Proof.
  intros Hinv. unfold rr_body.
  destruct (rr_ready_queue st) as [|i rest] eqn:Hq.
  - destruct (0 <? sum (rr_remaining_burst_time st)) eqn:Hs; [|done].
    apply Z.ltb_lt in Hs.
    destruct (rr_idle_spec st Hinv Hq Hs) as (st' & -> & _ & ? & ?). done.
  - by apply rr_slice_spec.
Qed.

(** The loop leaves within two passes for each unit of burst time, with no
    work left. *)
Lemma rr_loop_returns fuel :
  (2 * Z.to_nat (sum (burst_time <$> df)) + 2 ≤ fuel)%nat →
  ∃ st, while (rr_body df time_quantum) fuel (rr_init df) = Return st
        ∧ rr_inv st ∧ ∀ i, (i < n)%nat → rr_remaining_burst_time st !!! i = 0.
Proof.
  intros Hfuel.
  destruct (while_returns (rr_body df time_quantum) rr_inv rr_measure rr_body_inv
              fuel (rr_init df) rr_inv_init) as (st & Hw & Hinv & Hb).
  { unfold rr_measure. simpl. case_match; lia. }
  exists st. split_and!; [done|done|]. intros i Hi.
  unfold rr_body in Hb. destruct (rr_ready_queue st); [|done].
  destruct (0 <? sum (rr_remaining_burst_time st)) eqn:Hs.
  - by destruct (rr_idle df st).
  - apply Z.ltb_ge in Hs. destruct Hinv.
    apply sum_zero; [|done|lia]. intros j Hj. apply rr_rem_range0. lia.
Qed.
End rr_loop.

(** ** Priority scheduling: the loop invariant *)

Section ps_loop.
Context (df : list Process) (Hburst : Forall (λ p, 0 < burst_time p) df) (preemptive : bool).
Let n := length df.

Record ps_inv (st : ps_state) : Prop := {
  ps_len_ct : length (ps_completion_time st) = n;
  ps_len_rem : length (ps_remaining_burst_time st) = n;
  ps_len_done : length (ps_is_completed st) = n;
  ps_count : ps_completed st = count_true (ps_is_completed st);
  ps_rem_range : ∀ i, (i < n)%nat →
    0 ≤ ps_remaining_burst_time st !!! i ≤ burst_time (df !!! i);
  ps_done_rem : ∀ i, (i < n)%nat →
    ps_is_completed st !!! i = true ↔ ps_remaining_burst_time st !!! i = 0;
  ps_tiles : tiles 0 (ps_schedule st) (ps_current_time st);
  ps_progress : ∀ i, (i < n)%nat →
    ps_remaining_burst_time st !!! i < burst_time (df !!! i) →
    arrival_time (df !!! i)
      + (burst_time (df !!! i) - ps_remaining_burst_time st !!! i)
    ≤ ps_current_time st;
  ps_fin_time : ∀ i, (i < n)%nat → ps_is_completed st !!! i = true →
    arrival_time (df !!! i) + burst_time (df !!! i)
    ≤ ps_completion_time st !!! i;
  ps_fin : NoDup (pid <$> df) → ∀ i, (i < n)%nat →
    ps_is_completed st !!! i = true →
    finished df (ps_schedule st) (ps_completion_time st) i;
  ps_prev_off : preemptive = false → ps_prev_process st = None;
  ps_prev : ∀ j, ps_prev_process st = Some j →
    (j < n)%nat
    ∧ (ps_is_completed st !!! j = false →
       arrival_time (df !!! j) ≤ ps_current_time st
       ∧ ∃ l s, ps_schedule st = l ++ [s] ∧ seg_pid s = pid (df !!! j));
  ps_exec : NoDup (pid <$> df) → Idle ∉ pid <$> df → ∀ i, (i < n)%nat →
    exec_time (pid (df !!! i)) (ps_schedule st)
    = burst_time (df !!! i) - ps_remaining_burst_time st !!! i;
}.

Definition ps_measure (st : ps_state) : nat :=
  (2 * Z.to_nat (sum (ps_remaining_burst_time st))
   + match select priority df (ps_is_completed st) (ps_current_time st) with
     | Some _ => 0
     | None => 1
     end)%nat.

Lemma ps_inv_init : ps_inv (ps_init df).
Proof.
  assert (∀ i, (i < n)%nat → (burst_time <$> df) !!! i = burst_time (df !!! i))
    as Hrem.
  { intros i Hi. by apply (list_lookup_total_fmap burst_time). }
  unfold ps_init.
  split; simpl; rewrite ?length_replicate, ?length_fmap; try done.
  - by rewrite count_true_replicate.
  - intros i Hi. rewrite Hrem by done.
    pose proof (burst_lookup df i Hburst Hi). lia.
  - intros i Hi. rewrite Hrem, lookup_total_replicate_2 by done.
    pose proof (burst_lookup df i Hburst Hi). split; [done|lia].
  - intros i Hi. rewrite Hrem by done. lia.
  - intros i Hi. by rewrite lookup_total_replicate_2.
  - intros _ i Hi. by rewrite lookup_total_replicate_2.
  - intros _ _ i Hi. rewrite Hrem by done. rewrite exec_time_nil. lia.
Qed.

(** An idle pass moves the clock forward, to the arrival of a process that
    is then ready. *)
Lemma ps_idle_spec st :
  ps_inv st → ps_completed st ≠ n →
  select priority df (ps_is_completed st) (ps_current_time st) = None →
  ∃ st', ps_idle df st = Some st'
         ∧ ps_current_time st < ps_current_time st'
         ∧ ps_inv st' ∧ (ps_measure st' < ps_measure st)%nat.
Proof.
  intros [Hct Hrem Hdn Hcount Hrange Hdr Htiles Hprog Hfint Hfin Hoff Hprev Hexec] Hn Hsel.
  destruct (count_true_some_false (ps_is_completed st)) as (i0 & Hi0 & Hf0);
    [congruence|].
  unfold ps_idle.
  destruct (earliest_pending df (λ i, negb (ps_is_completed st !!! i)) i0)
    as [a Ha]; [fold n; lia|by rewrite Hf0|].
  rewrite Ha. eexists. split; [done|].
  apply earliest_Some in Ha as [(i & Hi & Hpi & <-) Hmin].
  apply negb_true_iff in Hpi.
  assert (ps_current_time st < arrival_time (df !!! i)) as Hlt.
  { destruct (decide (ps_current_time st < arrival_time (df !!! i))); [done|].
    destruct (select_None df _ _ _ i Hsel Hi). split; [lia|done]. }
  simpl. split; [done|]. split.
  - split; simpl; try done.
    + by apply (tiles_snoc _ _ _ (mkSegment Idle _ _) Htiles).
    + intros j Hj Hr. specialize (Hprog j Hj Hr). lia.
    + intros Hnodup j Hj Hc. by apply finished_snoc, Hfin.
    + intros j Hj. destruct (Hprev j Hj) as [Hjn Hlast]. split; [done|].
      intros Hnc. destruct (Hlast Hnc) as [Haj _].
      destruct (select_None df _ _ _ j Hsel Hjn). done.
    + intros Hnodup Hidle j Hj. rewrite exec_time_snoc_ne; [by apply Hexec|].
      simpl. intros Heq. by eapply not_idle.
  - unfold ps_measure. simpl. rewrite Hsel.
    destruct (select_ready df priority (ps_is_completed st)
                (arrival_time (df !!! i)) i) as [x ->]; [done| |lia].
    split; [lia|done].
Qed.

(** The facts about a selected process. *)
Lemma ps_selected st i :
  ps_inv st →
  select priority df (ps_is_completed st) (ps_current_time st) = Some i →
  (i < n)%nat ∧ arrival_time (df !!! i) ≤ ps_current_time st
  ∧ ps_is_completed st !!! i = false
  ∧ 0 < ps_remaining_burst_time st !!! i ≤ burst_time (df !!! i)
  ∧ 0 < sum (ps_remaining_burst_time st).
Proof.
  intros Hinv Hsel. apply select_Some in Hsel as (Hi & [Harr Hnc] & _).
  fold n in Hi. destruct Hinv.
  pose proof (ps_rem_range0 i Hi). pose proof (ps_done_rem0 i Hi) as Hd.
  assert (ps_remaining_burst_time st !!! i ≠ 0).
  { intros Hz. apply Hd in Hz. congruence. }
  split_and!; try done; try lia.
  apply (sum_pos _ i); [|lia|lia]. intros j Hj. apply ps_rem_range0. lia.
Qed.

(** The non-preemptive pass completes the selected process. *)
Lemma ps_run_spec st i :
  preemptive = false → ps_inv st →
  select priority df (ps_is_completed st) (ps_current_time st) = Some i →
  ps_current_time st < ps_current_time (ps_run df st i)
  ∧ ps_inv (ps_run df st i) ∧ (ps_measure (ps_run df st i) < ps_measure st)%nat.
Proof.
  intros Hnp Hinv Hsel.
  destruct (ps_selected st i Hinv Hsel) as (Hi & Harr & Hnc & Hri & Hsum).
  destruct Hinv as [Hct Hrem Hdn Hcount Hrange Hdr Htiles Hprog Hfint Hfin Hoff Hprev Hexec].
  assert (count_true (<[i:=true]> (ps_is_completed st))
          = Datatypes.S (count_true (ps_is_completed st))) as Hc'.
  { apply count_true_insert; [lia|done]. }
  unfold ps_run. cbv zeta. simpl. split; [lia|]. split.
  - split; simpl; rewrite ?length_insert; try done.
    + by rewrite Hc', Hcount.
    + intros j Hj. destruct (decide (j = i)) as [->|Hne].
      * rewrite list_lookup_total_insert_eq by lia. lia.
      * rewrite list_lookup_total_insert_ne by done. by apply Hrange.
    + intros j Hj. destruct (decide (j = i)) as [->|Hne].
      * rewrite !list_lookup_total_insert_eq by lia. done.
      * rewrite !list_lookup_total_insert_ne by done. by apply Hdr.
    + apply (tiles_snoc _ _ _ (mkSegment _ _ _) Htiles); simpl; [done|lia].
    + intros j Hj. destruct (decide (j = i)) as [->|Hne].
      * rewrite list_lookup_total_insert_eq by lia. intros _.
        destruct (decide (ps_remaining_burst_time st !!! i < burst_time (df !!! i))) as [Hl|Hl].
        -- specialize (Hprog i Hi Hl). lia.
        -- lia.
      * rewrite list_lookup_total_insert_ne by done. intros Hl.
        specialize (Hprog j Hj Hl). lia.
    + intros j Hj. destruct (decide (j = i)) as [->|Hne].
      * intros _. rewrite list_lookup_total_insert_eq by lia.
        destruct (decide (ps_remaining_burst_time st !!! i < burst_time (df !!! i))) as [Hl|Hl].
        -- specialize (Hprog i Hi Hl). lia.
        -- lia.
      * rewrite !list_lookup_total_insert_ne by done. by apply Hfint.
    + intros Hnodup j Hj. destruct (decide (j = i)) as [->|Hne].
      * intros _. unfold finished. rewrite list_lookup_total_insert_eq by lia.
        split.
        -- destruct (decide (ps_remaining_burst_time st !!! i < burst_time (df !!! i))) as [Hl|Hl].
           ++ specialize (Hprog i Hi Hl). lia.
           ++ lia.
        -- eexists. split; [apply elem_of_app; right; by apply list_elem_of_singleton|].
           done.
      * rewrite list_lookup_total_insert_ne by done. intros Hc.
        by apply finished_snoc, finished_insert_ne, Hfin.
    + intros j Hj. rewrite Hoff in Hj; done.
    + intros Hnodup Hidle j Hj. rewrite exec_time_snoc, Hexec by done.
      unfold duration. simpl. destruct (decide (j = i)) as [->|Hne].
      * rewrite list_lookup_total_insert_eq by lia.
        rewrite decide_True by done. lia.
      * rewrite list_lookup_total_insert_ne by done.
        rewrite decide_False; [lia|].
        intros Heq. apply Hne. symmetry. by eapply pid_inj.
  - unfold ps_measure. simpl. rewrite Hsel, sum_insert by lia.
    case_match; lia.
Qed.

(** A preemptive slice lasts at least one unit and at most what is left. *)
Lemma ps_execution_time_range st i :
  0 < ps_remaining_burst_time st !!! i →
  1 ≤ ps_execution_time df st i ≤ ps_remaining_burst_time st !!! i.
Proof.
  intros Hpos. unfold ps_execution_time.
  destruct (future_arrival _ _ _ _) as [a|] eqn:Ha; [|lia].
  apply future_arrival_after in Ha. lia.
Qed.

(** The schedule after a slice of [e] units of the selected process. *)
Lemma ps_emit_spec st i e :
  ps_inv st →
  select priority df (ps_is_completed st) (ps_current_time st) = Some i →
  0 < e →
  ∃ sched',
    ps_emit df st i (ps_current_time st + e) = Some sched'
    ∧ tiles 0 sched' (ps_current_time st + e)
    ∧ (∀ p, exec_time p sched'
            = exec_time p (ps_schedule st)
              + if decide (pid (df !!! i) = p) then e else 0)
    ∧ (∀ x, x ∈ ps_schedule st → seg_pid x ≠ pid (df !!! i) → x ∈ sched')
    ∧ ∃ l s, sched' = l ++ [s] ∧ seg_pid s = pid (df !!! i)
             ∧ end_time s = ps_current_time st + e.
Proof.
  intros Hinv Hsel He.
  destruct (ps_selected st i Hinv Hsel) as (Hi & Harr & Hnc & Hri & Hsum).
  destruct Hinv as [Hct Hrem Hdn Hcount Hrange Hdr Htiles Hprog Hfint Hfin Hoff Hprev Hexec].
  unfold ps_emit. destruct (decide (ps_prev_process st = Some i)) as [Hp|Hp].
  - destruct (Hprev i Hp) as [_ Hlast].
    destruct (Hlast Hnc) as (_ & l & s & Hsched & Hpid).
    rewrite Hsched in *. rewrite set_last_end_snoc.
    apply tiles_app in Htiles as (t1 & Hl & Hs1 & Hs2 & Hs3). simpl in Hs3.
    eexists. split; [done|]. split_and!.
    + apply tiles_app. exists t1. simpl. split_and!; [done|done|lia|done].
    + intros p. rewrite !exec_time_snoc. simpl. unfold duration. simpl.
      rewrite Hpid. case_decide; lia.
    + intros x Hx Hne. apply elem_of_app in Hx as [Hx| ->%list_elem_of_singleton];
        [|done]. apply elem_of_app. by left.
    + eexists _, _. split_and!; [done|done|done].
  - eexists. split; [done|]. split_and!.
    + apply (tiles_snoc _ _ _ (mkSegment _ _ _) Htiles); simpl; [done|lia].
    + intros p. rewrite exec_time_snoc. simpl. unfold duration. simpl.
      case_decide; lia.
    + intros x Hx _. apply elem_of_app. by left.
    + eexists _, _. split_and!; [done|done|done].
Qed.

(** The preemptive pass runs the selected process for one slice. *)
Lemma ps_slice_spec st i :
  preemptive = true → ps_inv st →
  select priority df (ps_is_completed st) (ps_current_time st) = Some i →
  ∃ st', ps_slice df st i = Some st'
         ∧ ps_current_time st < ps_current_time st'
         ∧ ps_inv st' ∧ (ps_measure st' < ps_measure st)%nat.
Proof.
  intros Hp Hinv Hsel.
  destruct (ps_selected st i Hinv Hsel) as (Hi & Harr & Hnc & Hri & Hsum).
  pose proof (ps_execution_time_range st i ltac:(lia)) as He.
  unfold ps_slice. cbv zeta.
  set (e := ps_execution_time df st i) in *.
  destruct (ps_emit_spec st i e Hinv Hsel ltac:(lia))
    as (sched' & -> & Htiles' & Hexec' & Hkeep & l & s & Hs & Hspid & Hsend).
  destruct Hinv as [Hct Hrem Hdn Hcount Hrange Hdr Htiles Hprog Hfint Hfin Hoff Hprev Hexec].
  simpl. eexists. split; [done|].
  unfold ps_account. cbv zeta.
  set (rem' := <[i := ps_remaining_burst_time st !!! i - e]>
                 (ps_remaining_burst_time st)).
  set (t' := ps_current_time st + e) in *.
  assert (rem' !!! i = ps_remaining_burst_time st !!! i - e) as Hrem'i.
  { unfold rem'. apply list_lookup_total_insert_eq. lia. }
  assert (∀ j, j ≠ i → rem' !!! j = ps_remaining_burst_time st !!! j) as Hrem'j.
  { intros j Hj. unfold rem'. by apply list_lookup_total_insert_ne. }
  assert (length rem' = n) as Hlen' by (unfold rem'; by rewrite length_insert).
  assert (∀ j, (j < n)%nat → 0 ≤ rem' !!! j ≤ burst_time (df !!! j)) as Hrange'.
  { intros j Hj. destruct (decide (j = i)) as [->|Hne].
    - rewrite Hrem'i. lia.
    - rewrite Hrem'j by done. by apply Hrange. }
  assert (∀ j, (j < n)%nat → rem' !!! j < burst_time (df !!! j) →
               arrival_time (df !!! j) + (burst_time (df !!! j) - rem' !!! j) ≤ t')
    as Hprog'.
  { intros j Hj. destruct (decide (j = i)) as [->|Hne].
    - rewrite Hrem'i. intros _.
      destruct (decide (ps_remaining_burst_time st !!! i < burst_time (df !!! i))) as [Hl|Hl].
      + specialize (Hprog i Hi Hl). lia.
      + lia.
    - rewrite Hrem'j by done. intros Hl. specialize (Hprog j Hj Hl). lia. }
  assert (NoDup (pid <$> df) → Idle ∉ pid <$> df → ∀ j, (j < n)%nat →
          exec_time (pid (df !!! j)) sched' = burst_time (df !!! j) - rem' !!! j)
    as Hexec''.
  { intros Hnodup Hidle j Hj. rewrite Hexec', Hexec by done.
    destruct (decide (j = i)) as [->|Hne].
    - rewrite decide_True by done. rewrite Hrem'i. lia.
    - rewrite Hrem'j by done. rewrite decide_False; [lia|].
      intros Heq. apply Hne. symmetry. by eapply pid_inj. }
  assert (NoDup (pid <$> df) →
          ∀ j, (j < n)%nat → j ≠ i → ps_is_completed st !!! j = true →
               finished df sched' (ps_completion_time st) j) as Hfin'.
  { intros Hnodup j Hj Hne Hc.
    destruct (Hfin Hnodup j Hj Hc) as [? (x & Hx & Hxp & Hxe)].
    split; [done|]. exists x. split_and!; [|done|done].
    apply Hkeep; [done|]. rewrite Hxp. intros Heq. apply Hne.
    by eapply pid_inj. }
  assert (sum rem' = sum (ps_remaining_burst_time st) - e) as Hsum'.
  { unfold rem'. rewrite sum_insert by lia. lia. }
  destruct (ps_remaining_burst_time st !!! i - e =? 0) eqn:Hz;
    [apply Z.eqb_eq in Hz|apply Z.eqb_neq in Hz]; simpl.
  - split; [unfold t'; lia|]. split.
    + split; simpl; rewrite ?length_insert; try done.
      * rewrite count_true_insert by (done || lia). by rewrite Hcount.
      * intros j Hj. destruct (decide (j = i)) as [->|Hne].
        -- rewrite list_lookup_total_insert_eq by lia. rewrite Hrem'i. done.
        -- rewrite list_lookup_total_insert_ne by done. rewrite Hrem'j by done.
           by apply Hdr.
      * intros j Hj. destruct (decide (j = i)) as [->|Hne].
        -- intros _. rewrite list_lookup_total_insert_eq by lia.
           specialize (Hprog' i Hi). lia.
        -- rewrite !list_lookup_total_insert_ne by done. by apply Hfint.
      * intros Hnodup j Hj. destruct (decide (j = i)) as [->|Hne].
        -- intros _. unfold finished. rewrite list_lookup_total_insert_eq by lia.
           split.
           ++ specialize (Hprog' i Hi). lia.
           ++ exists s. rewrite Hs. split_and!; [|done|done].
              apply elem_of_app. right. by apply list_elem_of_singleton.
        -- rewrite list_lookup_total_insert_ne by done. intros Hc.
           apply finished_insert_ne; [done|]. by apply Hfin'.
      * congruence.
      * intros j [= <-]. split; [done|].
        rewrite list_lookup_total_insert_eq by lia. done.
    + unfold ps_measure. simpl. rewrite Hsel, Hsum'. case_match; lia.
  - split; [unfold t'; lia|]. split.
    + split; simpl; try done.
      * intros j Hj. destruct (decide (j = i)) as [->|Hne].
        -- rewrite Hrem'i, Hnc. split; [done|lia].
        -- rewrite Hrem'j by done. by apply Hdr.
      * intros Hnodup j Hj Hc. apply Hfin'; [done|done| |done]. intros ->.
        congruence.
      * congruence.
      * intros j [= <-]. split; [done|]. intros _. split; [unfold t'; lia|].
        eauto.
    + unfold ps_measure. simpl. rewrite Hsel, Hsum'. case_match; lia.
Qed.

Lemma ps_body_inv st :
  ps_inv st →
  match ps_body df preemptive st with
  | Next st' => ps_inv st' ∧ (ps_measure st' < ps_measure st)%nat
  | Break => True
  | _ => False
  end.
Proof.
  intros Hinv. unfold ps_body. fold n.
  destruct (decide (ps_completed st = n)) as [|Hn]; [done|].
  destruct (select _ _ _ _) as [i|] eqn:Hsel.
  - destruct preemptive eqn:Hp; simpl.
    + destruct (ps_slice_spec st i Hp Hinv Hsel) as (st' & -> & _ & ? & ?).
      done.
    + by apply ps_run_spec.
  - destruct (ps_idle_spec st Hinv Hn Hsel) as (st' & -> & _ & ? & ?). done.
Qed.

(** The loop leaves within two passes for each unit of burst time, with
    every process completed. *)
Lemma ps_loop_returns fuel :
  (2 * Z.to_nat (sum (burst_time <$> df)) + 2 ≤ fuel)%nat →
  ∃ st, while (ps_body df preemptive) fuel (ps_init df) = Return st
        ∧ ps_inv st ∧ ∀ i, (i < n)%nat → ps_is_completed st !!! i = true.
Proof.
  intros Hfuel.
  destruct (while_returns (ps_body df preemptive) ps_inv ps_measure ps_body_inv
              fuel (ps_init df) ps_inv_init) as (st & Hw & Hinv & Hb).
  { unfold ps_measure. simpl. case_match; lia. }
  exists st. split_and!; [done|done|]. intros i Hi.
  unfold ps_body in Hb. fold n in Hb.
  destruct (decide (ps_completed st = n)) as [Hc|].
  - destruct Hinv. apply count_true_all; [congruence|lia].
  - destruct (select _ _ _ _) as [sel|].
    + destruct (negb preemptive); [done|]. by destruct (ps_slice df st sel).
    + by destruct (ps_idle df st).
Qed.
End ps_loop.

(** ** What the entry points return *)

Lemma rows_with_metrics df ct tt wt : rows (with_metrics df ct tt wt) = df.
Proof. done. Qed.

Lemma column_completion_time df ct tt wt :
  column (with_metrics df ct tt wt) "completion_time" = ct.
Proof.
  unfold column, with_metrics, set_column. simpl.
  rewrite !lookup_insert_ne by done. by rewrite lookup_insert_eq.
Qed.

Lemma column_turnaround_time df ct tt wt :
  column (with_metrics df ct tt wt) "turnaround_time" = tt.
Proof.
  unfold column, with_metrics, set_column. simpl.
  rewrite lookup_insert_ne by done. by rewrite lookup_insert_eq.
Qed.

Lemma column_waiting_time df ct tt wt :
  column (with_metrics df ct tt wt) "waiting_time" = wt.
Proof.
  unfold column, with_metrics, set_column. simpl. by rewrite lookup_insert_eq.
Qed.

Lemma turnaround_of_length df ct : length (turnaround_of df ct) = length df.
Proof. unfold turnaround_of. by rewrite length_fmap, length_seq. Qed.

Lemma waiting_of_length df tt : length (waiting_of df tt) = length df.
Proof. unfold waiting_of. by rewrite length_fmap, length_seq. Qed.

Lemma turnaround_of_lookup df ct i :
  (i < length df)%nat →
  turnaround_of df ct !!! i = ct !!! i - arrival_time (df !!! i).
Proof.
  intros Hi. unfold turnaround_of.
  rewrite (list_lookup_total_fmap _ (seq 0 (length df)) i)
    by (by rewrite length_seq).
  by rewrite lookup_total_seq_lt.
Qed.

Lemma waiting_of_lookup df tt i :
  (i < length df)%nat →
  waiting_of df tt !!! i = tt !!! i - burst_time (df !!! i).
Proof.
  intros Hi. unfold waiting_of.
  rewrite (list_lookup_total_fmap _ (seq 0 (length df)) i)
    by (by rewrite length_seq).
  by rewrite lookup_total_seq_lt.
Qed.

Lemma lookup_total_Some {A} `{!Inhabited A} (l : list A) i :
  (i < length l)%nat → l !! i = Some (l !!! i).
Proof. apply list_lookup_lookup_total_lt. Qed.

Lemma row_lookup (df : list Process) k p :
  df !! k = Some p → (k < length df)%nat ∧ df !!! k = p.
Proof.
  intros H. split; [by eapply lookup_lt_Some|]. by apply list_lookup_total_correct.
Qed.

(** From the facts about the final lists to the properties of the result. *)
Lemma metrics_sound_intro df ct tt wt :
  length ct = length df → length tt = length df → length wt = length df →
  (∀ i, (i < length df)%nat →
        arrival_time (df !!! i) + burst_time (df !!! i) ≤ ct !!! i
        ∧ tt !!! i = ct !!! i - arrival_time (df !!! i)
        ∧ wt !!! i = tt !!! i - burst_time (df !!! i)) →
  metrics_sound (with_metrics df ct tt wt).
Proof.
  intros Hct Htt Hwt H k p Hk. rewrite rows_with_metrics in Hk.
  apply row_lookup in Hk as [Hk <-]. destruct (H k Hk) as (Hc & Ht & Hw).
  exists (ct !!! k).
  rewrite column_completion_time, column_turnaround_time, column_waiting_time.
  rewrite !lookup_total_Some by lia. rewrite Hw, Ht.
  split_and!; try done; lia.
Qed.


Lemma conserved_intro df schedule :
  (∀ i, (i < length df)%nat →
        exec_time (pid (df !!! i)) schedule = burst_time (df !!! i)) →
  conserved df schedule.
Proof.
  intros H p Hp. apply list_elem_of_lookup in Hp as [k Hk].
  apply row_lookup in Hk as [Hk <-]. by apply H.
Qed.

Lemma tiling_intro schedule t :
  tiles 0 schedule t → schedule ≠ [] → tiling schedule.
Proof.
  intros Ht Hne. destruct (tiles_spelled _ _ _ Ht) as (Hh & Hf & Hj & _).
  split_and!; [|done|done].
  destruct schedule as [|s l]; [done|]. exists s. split; [done|]. by apply Hh.
Qed.

Lemma finished_nonempty df schedule ct i :
  finished df schedule ct i → schedule ≠ [].
Proof. intros [_ (s & Hs & _)] ->. by apply elem_of_nil in Hs. Qed.


Lemma returns_from_while {S A : Type} (body : S → pass S) (f : S → A)
    (bound : nat) (s0 st : S) :
  while body bound s0 = Return st →
  returns_from bound (λ fuel, map_outcome f (while body fuel s0)) (f st).
Proof.
  intros Hw fuel Hfuel. by rewrite (while_fuel_mono _ _ _ _ _ Hw Hfuel).
Qed.

Lemma sjf_returns processes :
  Forall (λ p, 0 < burst_time p) processes →
  ∃ st, returns_from (sjf_fuel processes) (λ fuel, sjf fuel processes)
                     (sjf_result processes st)
        ∧ sjf_inv processes st
        ∧ ∀ i, (i < length processes)%nat → sjf_is_completed st !!! i = true.
Proof.
  intros Hb.
  destruct (sjf_loop_returns processes Hb (sjf_fuel processes))
    as (st & Hw & Hinv & Hall); [unfold sjf_fuel; lia|].
  exists st. split_and!; [|done|done]. by apply returns_from_while.
Qed.

Lemma round_robin_returns processes time_quantum :
  Forall (λ p, 0 < burst_time p) processes → 1 ≤ time_quantum →
  ∃ st, returns_from (work_fuel processes)
                     (λ fuel, round_robin fuel processes time_quantum)
                     (rr_result processes st)
        ∧ rr_inv processes st
        ∧ ∀ i, (i < length processes)%nat → rr_remaining_burst_time st !!! i = 0.
Proof.
  intros Hb Hq.
  destruct (rr_loop_returns processes Hb time_quantum Hq (work_fuel processes))
    as (st & Hw & Hinv & Hall); [unfold work_fuel; lia|].
  exists st. split_and!; [|done|done]. by apply returns_from_while.
Qed.

Lemma priority_scheduling_returns processes preemptive :
  Forall (λ p, 0 < burst_time p) processes →
  ∃ st, returns_from (work_fuel processes)
                     (λ fuel, priority_scheduling fuel processes preemptive)
                     (ps_result processes st)
        ∧ ps_inv processes preemptive st
        ∧ ∀ i, (i < length processes)%nat → ps_is_completed st !!! i = true.
Proof.
  intros Hb.
  destruct (ps_loop_returns processes Hb preemptive (work_fuel processes))
    as (st & Hw & Hinv & Hall); [unfold work_fuel; lia|].
  exists st. split_and!; [|done|done]. by apply returns_from_while.
Qed.


Lemma Forall_burst_sorted processes :
  Forall (λ p, 0 < burst_time p) processes →
  Forall (λ p, 0 < burst_time p) (sort_values processes).
Proof. intros H. by rewrite sort_values_Permutation. Qed.

Lemma Forall_weaken_burst processes :
  Forall (λ p, 0 ≤ arrival_time p ∧ 0 < burst_time p) processes →
  Forall (λ p, 0 < burst_time p) processes.
Proof. intros H. eapply Forall_impl; [exact H|]. simpl. tauto. Qed.

(** ** Termination *)



(** ** Metrics *)



(** ** Conservation *)


Lemma conserved_Permutation df df' schedule :
  df ≡ₚ df' → conserved df schedule → conserved df' schedule.
Proof. intros Hp H p Hin. apply H. by rewrite Hp. Qed.

Lemma nonempty_lookup {A} (l : list A) : l ≠ [] → (0 < length l)%nat.
Proof. destruct l; [done|simpl; lia]. Qed.




(** ** The rows of the metrics table *)


Example fcfs_reorders_rows :
  rows (snd (fcfs ex_unsorted)) = [mkProcess "P2" 0 3 1; mkProcess "P1" 4 2 1]
  ∧ column (snd (fcfs ex_unsorted)) "completion_time" = [3; 6]
  ∧ map_outcome (λ r, (rows (snd r), column (snd r) "completion_time"))
                (sjf 5 ex_unsorted)
    = Return (ex_unsorted, [6; 3]).
Proof. split_and!; vm_compute; reflexivity. Qed.



(** ** Round Robin: the order of the ready queue *)

Lemma StronglySorted_filter {A} (R : relation A) (P : A → Prop)
    `{!∀ x, Decision (P x)} (l : list A) :
  StronglySorted R l → StronglySorted R (filter P l).
Proof.
  induction 1 as [|x l Hl IH Hx]; [constructor|].
  rewrite filter_cons. case_decide; [|done].
  constructor; [done|]. rewrite Forall_forall in Hx |- *.
  intros y Hy%list_elem_of_filter. apply Hx. tauto.
Qed.

Lemma StronglySorted_seq (a n : nat) : StronglySorted Nat.lt (seq a n).
Proof.
  revert a. induction n as [|n IH]; intros a; simpl; constructor; [apply IH|].
  apply Forall_forall. intros y Hy%elem_of_seq. lia.
Qed.

Lemma StronglySorted_impl_elem {A} (R R' : relation A) (l : list A) :
  (∀ x y, x ∈ l → y ∈ l → R x y → R' x y) →
  StronglySorted R l → StronglySorted R' l.
Proof.
  intros H Hs. induction Hs as [|x l Hl IH Hx]; constructor.
  - apply IH. intros y z Hy Hz. apply H; by right.
  - rewrite Forall_forall in Hx |- *. intros y Hy.
    apply H; [by left|by right|by apply Hx].
Qed.

Lemma StronglySorted_lookup_lt {A} (R : relation A) (l : list A) i j x y :
  StronglySorted R l → (i < j)%nat → l !! i = Some x → l !! j = Some y → R x y.
Proof.
  intros Hs. revert i j. induction Hs as [|z l Hl IH Hz]; intros i j Hij Hi Hj;
    [done|].
  destruct j as [|j]; [lia|]. simpl in Hj. destruct i as [|i]; simpl in Hi.
  - simplify_eq. rewrite Forall_forall in Hz. apply Hz.
    by eapply list_elem_of_lookup_2.
  - eapply (IH i j); [lia|done|done].
Qed.

Global Instance row_le_trans : Transitive row_le.
Proof.
  intros p q r. unfold row_le, row_leb.
  rewrite !orb_true_iff, !andb_true_iff, !Z.ltb_lt, !Z.eqb_eq.
  intros [H1|[H1 L1]] [H2|[H2 L2]]; [left; lia|left; lia|left; lia|].
  right. split; [lia|]. apply Is_true_true.
  apply Is_true_true in L1, L2.
  by apply (transitivity (R := String.le) L1).
Qed.

(** C1, as stated, fails: with a time quantum of 3, process A runs from 0
    to 3; B (arrival time 2) and C (arrival time 1) arrive during that
    slice and are queued in the order of their rows, B before C, not in
    the order of their arrival; A follows them. *)
Lemma rr_queue_is_not_in_arrival_order :
  rr_ready_queue (rr_init ex_order) = [0%nat]
  ∧ rr_ready_queue (rr_slice ex_order 3 (rr_init ex_order) 0 []) = [1; 2; 0]%nat
  ∧ arrival_time (ex_order !!! 2%nat) < arrival_time (ex_order !!! 1%nat)
  ∧ map_outcome fst (round_robin 10 ex_order 3)
    = Return [mkSegment "A" 0 3; mkSegment "B" 3 4; mkSegment "C" 4 5;
              mkSegment "A" 5 7].
Proof. split_and!; vm_compute; done. Qed.

(** C1, amended. Whenever [round_robin] pops a process [i], runs it for a
    slice and [i] has burst time left afterwards, the queue becomes: what
    was queued behind [i], then the rows [new] that have arrived by the new
    current time with burst time left, were not queued and are not [i], in
    ascending order of their row index, then [i] at the tail.  When the
    rows of the input are sorted by (arrival_time, pid), that is the order
    of arrival. *)
Theorem rr_requeues_after_arrivals (df : list Process) (time_quantum : Z)
    (st : rr_state) (i : nat) (rest : list nat) :
  rr_ready_queue st = i :: rest →
  0 < rr_remaining_burst_time (rr_slice df time_quantum st i rest) !!! i →
  let st' := rr_slice df time_quantum st i rest in
  rr_body df time_quantum st = Next st'
  ∧ ∃ new,
      rr_ready_queue st' = rest ++ new ++ [i]
      ∧ (∀ j, j ∈ new ↔
              (j < length df)%nat
              ∧ arrival_time (df !!! j) ≤ rr_current_time st'
              ∧ 0 < rr_remaining_burst_time st' !!! j
              ∧ (j ∉ rest) ∧ j ≠ i)
      ∧ StronglySorted Nat.lt new
      ∧ (Sorted row_le df →
         StronglySorted (λ a b, row_le (df !!! a) (df !!! b)) new).
Proof.
  intros Hq Hleft st'. split.
  { unfold rr_body. by rewrite Hq. }
  unfold st' in *. clear st'. revert Hleft. unfold rr_slice. cbv zeta.
  set (e := Z.min time_quantum (rr_remaining_burst_time st !!! i)).
  set (rem' := <[i := rr_remaining_burst_time st !!! i - e]>
                 (rr_remaining_burst_time st)).
  set (t' := rr_current_time st + e).
  rewrite enqueue_arrived_filter.
  set (new := filter (arrived df rem' t' (λ j, bool_decide (j ≠ i)) rest)
                     (seq 0 (length df))).
  destruct (0 <? rem' !!! i) eqn:Hpos; simpl; [intros _|intros H].
  - exists new. split; [by rewrite app_assoc|].
    assert (StronglySorted Nat.lt new) as Hsorted.
    { apply StronglySorted_filter, StronglySorted_seq. }
    split_and!; [|done|].
    + intros j. unfold new, arrived.
      rewrite list_elem_of_filter, elem_of_seq, bool_decide_eq_true.
      split; [intros [(? & ? & ? & ?) ?]|intros (? & ? & ? & ? & ?)];
        split_and!; try done; lia.
    + intros Hdf%Sorted_StronglySorted; [|apply _].
      eapply StronglySorted_impl_elem; [|exact Hsorted].
      intros a b [_ Ha%elem_of_seq]%list_elem_of_filter
             [_ Hb%elem_of_seq]%list_elem_of_filter Hab.
      eapply (StronglySorted_lookup_lt _ df a b); [done|done| |];
        by apply list_lookup_lookup_total_lt; lia.
  - apply Z.ltb_ge in Hpos. lia.
Qed.

Lemma rr_requeues_after_arrivals_witness :
  rr_ready_queue (rr_init ex_order) = [0%nat]
  ∧ 0 < rr_remaining_burst_time (rr_slice ex_order 3 (rr_init ex_order) 0 []) !!! 0%nat
  ∧ rr_body ex_order 3 (rr_init ex_order)
    = Next (rr_slice ex_order 3 (rr_init ex_order) 0 []).
Proof.
  assert (rr_ready_queue (rr_init ex_order) = [0%nat]) as H1 by done.
  assert (0 < rr_remaining_burst_time (rr_slice ex_order 3 (rr_init ex_order) 0 [])
              !!! 0%nat) as H2 by done.
  split_and!; [done|done|].
  exact (proj1 (rr_requeues_after_arrivals ex_order 3 (rr_init ex_order) 0 [] H1 H2)).
Defined.

(** ** Shortest Job First: the selection *)

(** C4, as stated, fails on ties: at time 5, B (row 1, arrival time 2) and
    C (row 2, arrival time 1) are both ready with burst time 1, and [sjf]
    selects B, the row that comes first, not C, which arrived first. *)
Lemma sjf_tie_is_not_broken_by_arrival :
  select burst_time ex_order [true; false; false] 5 = Some 1%nat
  ∧ burst_time (ex_order !!! 1%nat) = burst_time (ex_order !!! 2%nat)
  ∧ arrival_time (ex_order !!! 2%nat) < arrival_time (ex_order !!! 1%nat)
  ∧ arrival_time (ex_order !!! 1%nat) ≤ 5
  ∧ map_outcome fst (sjf 10 ex_order)
    = Return [mkSegment "A" 0 5; mkSegment "B" 5 6; mkSegment "C" 6 7].
Proof. split_and!; vm_compute; done. Qed.

(** C4, amended. At every decision point of [sjf], the selected process has
    arrived and is not completed, no process that has arrived and is not
    completed has a shorter burst time, and of those with the same burst
    time it is the one of the lowest row index (the first in the order of
    the input); it is the process that the pass runs. *)
Theorem sjf_selects_shortest_first_row (df : list Process) (st : sjf_state)
    (i : nat) :
  select burst_time df (sjf_is_completed st) (sjf_current_time st) = Some i →
  (i < length df)%nat
  ∧ arrival_time (df !!! i) ≤ sjf_current_time st
  ∧ sjf_is_completed st !!! i = false
  ∧ (∀ j, (j < length df)%nat →
          arrival_time (df !!! j) ≤ sjf_current_time st →
          sjf_is_completed st !!! j = false →
          burst_time (df !!! i) ≤ burst_time (df !!! j)
          ∧ (burst_time (df !!! j) = burst_time (df !!! i) → (i ≤ j)%nat))
  ∧ (sjf_completed st ≠ length df → sjf_body df st = Next (sjf_run df st i)).
Proof.
  intros Hsel. pose proof Hsel as (Hi & [Ha Hc] & Hmin)%select_Some.
  split_and!; try done.
  - intros j Hj Haj Hcj. by apply Hmin.
  - intros Hn. unfold sjf_body. by rewrite decide_False, Hsel.
Qed.

Lemma sjf_selects_shortest_first_row_witness :
  select burst_time ex_order
         (sjf_is_completed (sjf_run ex_order (sjf_init 3) 0))
         (sjf_current_time (sjf_run ex_order (sjf_init 3) 0))
  = Some 1%nat
  ∧ sjf_body ex_order (sjf_run ex_order (sjf_init 3) 0)
    = Next (sjf_run ex_order (sjf_run ex_order (sjf_init 3) 0) 1).
Proof.
  assert (select burst_time ex_order
            (sjf_is_completed (sjf_run ex_order (sjf_init 3) 0))
            (sjf_current_time (sjf_run ex_order (sjf_init 3) 0)) = Some 1%nat)
    as H1 by done.
  split; [done|].
  apply (sjf_selects_shortest_first_row ex_order _ 1 H1). done.
Defined.

(** ** Rejected inputs *)

(** C2, as stated, fails: on the empty process table each entry point
    returns, with an empty schedule and an empty metrics table. *)
Lemma empty_input_is_not_rejected :
  fcfs [] = empty_result
  ∧ sjf 1 [] = Return empty_result
  ∧ round_robin 1 [] 1 = Return empty_result
  ∧ priority_scheduling 1 [] false = Return empty_result
  ∧ priority_scheduling 1 [] true = Return empty_result.
Proof. split_and!; reflexivity. Qed.

(** C2, amended. On the empty process table each of the four entry points
    returns in its first pass, raising nothing, with an empty schedule and an
    empty metrics table.  The empty table is turned away by the caller:
    [run_scheduler] returns [(None, None)] for it, for every algorithm,
    without calling an entry point. *)
Theorem empty_input_returns_empty (fuel : nat) (time_quantum : Z)
    (preemptive : bool) (alg : algorithm) :
  fcfs [] = empty_result
  ∧ sjf (Datatypes.S fuel) [] = Return empty_result
  ∧ round_robin (Datatypes.S fuel) [] time_quantum = Return empty_result
  ∧ priority_scheduling (Datatypes.S fuel) [] preemptive = Return empty_result
  ∧ run_scheduler fuel alg time_quantum preemptive [] = Return None.
Proof. split_and!; reflexivity. Qed.

Lemma rr_stuck_step df time_quantum st :
  df ≠ [] → Forall (λ p, 0 < burst_time p) df → time_quantum ≤ 0 →
  rr_stuck df st →
  ∃ st', rr_body df time_quantum st = Next st' ∧ rr_stuck df st'.
Proof.
  intros Hne Hb Hq [Hlen Hrem]. pose proof (nonempty_lookup _ Hne) as H0.
  assert (∀ j, (j < length df)%nat → 0 < rr_remaining_burst_time st !!! j)
    as Hpos.
  { intros j Hj. pose proof (burst_lookup df j Hb Hj). specialize (Hrem j Hj).
    lia. }
  unfold rr_body. destruct (rr_ready_queue st) as [|i rest].
  - assert (0 < sum (rr_remaining_burst_time st)) as Hsum.
    { apply (sum_pos _ 0%nat); [|lia|by apply Hpos].
      intros j Hj. rewrite Hlen in Hj. specialize (Hpos j Hj). lia. }
    rewrite (proj2 (Z.ltb_lt _ _) Hsum). unfold rr_idle.
    destruct (earliest_pending df (λ i, 0 <? rr_remaining_burst_time st !!! i)
                0%nat H0) as [a ->]; [by apply Z.ltb_lt, Hpos|].
    eexists. split; [done|]. split; simpl; done.
  - eexists. split; [done|]. unfold rr_slice. cbv zeta.
    set (e := Z.min time_quantum (rr_remaining_burst_time st !!! i)).
    assert (e ≤ 0) as He by (unfold e; lia).
    assert (∀ rem' : list Z,
              rem' = <[i := rr_remaining_burst_time st !!! i - e]>
                       (rr_remaining_burst_time st) →
              length rem' = length df
              ∧ ∀ j, (j < length df)%nat → burst_time (df !!! j) ≤ rem' !!! j)
      as Hstep.
    { intros rem' ->. rewrite length_insert. split; [done|]. intros j Hj.
      rewrite list_lookup_total_insert by lia. specialize (Hrem j Hj).
      case_decide as Hc; [|done]. destruct Hc as [-> _]. lia. }
    destruct (0 <? _); split; simpl; by apply Hstep.
Qed.

(** C3, as stated, fails: with time quantum 0 and one process, no number
    of passes brings a result or an error. *)
Lemma zero_quantum_is_not_rejected :
  round_robin 10 [mkProcess "P1" 0 1 1] 0 = Spin
  ∧ round_robin 100 [mkProcess "P1" 0 1 1] 0 = Spin
  ∧ round_robin 100 [mkProcess "P1" 0 1 1] (-1) = Spin.
Proof. split_and!; vm_compute; reflexivity. Qed.

(** C3, amended. [round_robin] does not check its time quantum.  With a
    time quantum of 0 or less, a non-empty input and positive burst times,
    it raises nothing and does not return: the loop is still running after
    any number of passes. *)
Theorem nonpositive_quantum_never_returns (fuel : nat) (processes : list Process)
    (time_quantum : Z) :
  processes ≠ [] →
  Forall (λ p, 0 < burst_time p) processes →
  time_quantum ≤ 0 →
  round_robin fuel processes time_quantum = Spin.
Proof.
  intros Hne Hb Hq. unfold round_robin.
  assert (while (rr_body processes time_quantum) fuel (rr_init processes) = Spin)
    as ->; [|done].
  apply (while_spins _ (rr_stuck processes)).
  - intros st Hst. by apply rr_stuck_step.
  - split; simpl; [by rewrite length_fmap|]. intros j Hj.
    by rewrite (list_lookup_total_fmap burst_time).
Qed.

Lemma nonpositive_quantum_never_returns_witness :
  [mkProcess "P1" 0 1 1] ≠ []
  ∧ Forall (λ p, 0 < burst_time p) [mkProcess "P1" 0 1 1]
  ∧ 0 ≤ 0
  ∧ round_robin 7 [mkProcess "P1" 0 1 1] 0 = Spin.
Proof.
  assert ([mkProcess "P1" 0 1 1] ≠ []) as H1 by done.
  assert (Forall (λ p, 0 < burst_time p) [mkProcess "P1" 0 1 1]) as H2
    by (repeat constructor; simpl; lia).
  assert (0 ≤ 0) as H3 by lia.
  split_and!; [exact H1|exact H2|exact H3|].
  exact (nonpositive_quantum_never_returns 7 _ 0 H1 H2 H3).
Defined.

(** ** Preemptive priority scheduling *)

Lemma ps_slice_time df st sel st' :
  ps_slice df st sel = Some st' →
  ps_current_time st' = ps_current_time st + ps_execution_time df st sel.
Proof.
  unfold ps_slice. cbv zeta. destruct (ps_emit _ _ _ _); [|done].
  intros [= <-]. unfold ps_account. cbv zeta. by case_match.
Qed.

(** C8. On [P1 (arrival 0, burst 10, priority 2); P2 (arrival 3, burst 4,
    priority 1)], preemptive [priority_scheduling] returns exactly the
    segments P1 0-3, P2 3-7, P1 7-14, with completion time 14 for P1 and 7
    for P2.  Every slice lasts min(remaining burst time, next future arrival
    - current time), the whole remaining burst time when no arrival is to
    come, where the next future arrival is the least arrival time after the
    current time of a process that is neither completed nor the selected
    one.  The selection is made again in every pass: here P1 at time 0, P2 at
    time 3 (at its arrival), P1 at time 7, and then the loop ends. *)
Theorem preemptive_priority_example :
  returns_from 4
    (λ fuel, map_outcome (λ r, (fst r, column (snd r) "completion_time"))
                         (priority_scheduling fuel ex_ps true))
    ([mkSegment "P1" 0 3; mkSegment "P2" 3 7; mkSegment "P1" 7 14], [14; 7])
  ∧ (∀ df st sel st',
       ps_slice df st sel = Some st' →
       ps_current_time st' - ps_current_time st
       = Z.min (ps_remaining_burst_time st !!! sel)
               match future_arrival df (ps_is_completed st) sel
                                    (ps_current_time st) with
               | Some next_arrival => next_arrival - ps_current_time st
               | None => ps_remaining_burst_time st !!! sel
               end)
  ∧ (∀ df is_completed sel t,
       match future_arrival df is_completed sel t with
       | Some next_arrival =>
           (∃ i, (i < length df)%nat ∧ future df is_completed sel t i
                 ∧ arrival_time (df !!! i) = next_arrival)
           ∧ ∀ j, (j < length df)%nat → future df is_completed sel t j →
                  next_arrival ≤ arrival_time (df !!! j)
       | None => ∀ j, (j < length df)%nat → ¬ future df is_completed sel t j
       end)
  ∧ (∀ df st sel,
       ps_completed st ≠ length df →
       select priority df (ps_is_completed st) (ps_current_time st) = Some sel →
       ps_body df true st
       = match ps_slice df st sel with
         | Some st' => Next st'
         | None => Throw "IndexError"
         end)
  ∧ ps_decision ex_ps <$> passes (ps_body ex_ps true) 0 (ps_init ex_ps)
    = Some (0, Some 0%nat)
  ∧ ps_decision ex_ps <$> passes (ps_body ex_ps true) 1 (ps_init ex_ps)
    = Some (3, Some 1%nat)
  ∧ ps_decision ex_ps <$> passes (ps_body ex_ps true) 2 (ps_init ex_ps)
    = Some (7, Some 0%nat)
  ∧ ps_body ex_ps true <$> passes (ps_body ex_ps true) 3 (ps_init ex_ps)
    = Some Break.
Proof.
  split_and!.
  - intros fuel Hfuel. unfold priority_scheduling.
    assert (∃ st, while (ps_body ex_ps true) 4 (ps_init ex_ps) = Return st
                  ∧ (fst (ps_result ex_ps st),
                     column (snd (ps_result ex_ps st)) "completion_time")
                    = ([mkSegment "P1" 0 3; mkSegment "P2" 3 7; mkSegment "P1" 7 14],
                       [14; 7])) as (st & Hw & <-).
    { eexists. split; [vm_compute; reflexivity|]. vm_compute. reflexivity. }
    by rewrite (while_fuel_mono _ _ _ _ _ Hw Hfuel).
  - intros df st sel st' H. rewrite (ps_slice_time _ _ _ _ H).
    unfold ps_execution_time. lia.
  - intros df is_completed sel t. apply future_arrival_scan.
  - intros df st sel Hn Hsel. unfold ps_body. by rewrite decide_False, Hsel.
  - vm_compute. reflexivity.
  - vm_compute. reflexivity.
  - vm_compute. reflexivity.
  - vm_compute. reflexivity.
Qed.

(** ** Calls on references *)

Lemma lookup_total_last (σ : store) (df : Frame) : (σ ++ [df]) !!! length σ = df.
Proof. rewrite lookup_total_app_r by lia. by rewrite Nat.sub_diag. Qed.

Lemma assign_last (σ : store) (df : Frame) name values :
  assign (σ ++ [df]) (length σ) name values = σ ++ [set_column name values df].
Proof.
  unfold assign. rewrite lookup_total_last.
  rewrite insert_app_r_alt by lia. by rewrite Nat.sub_diag.
Qed.

Lemma emit_metrics_spec (σ : store) (df : nat) ct tt wt :
  emit_metrics σ df ct tt wt
  = (σ ++ [frame_metrics (σ !!! df) ct tt wt], length σ).
Proof.
  unfold emit_metrics, copy, alloc. by rewrite !assign_last.
Qed.

(** A call that reads nothing of the store but the frame of [processes], and
    adds frames behind those that exist, is repeatable. *)
Lemma repeatable_intro {X : Type}
    (call : store → nat → outcome (store * (list Segment * nat)))
    (run : Frame → outcome X) (objects : Frame → X → list Frame)
    (schedule : X → list Segment) (c : nat) :
  (∀ σ r, call σ r
          = map_outcome
              (λ x, (σ ++ objects (σ !!! r) x, (schedule x, (length σ + c)%nat)))
              (run (σ !!! r))) →
  ∀ σ processes, (processes < length σ)%nat → repeatable call σ processes.
Proof.
  intros Hcall σ processes Hp σ1 sched m Hret.
  rewrite Hcall in Hret. destruct (run (σ !!! processes)) as [x| | |] eqn:Hrun;
    simplify_eq/=.
  split.
  - intros r Hr. by apply lookup_app_l.
  - assert ((σ ++ objects (σ !!! processes) x) !!! processes = σ !!! processes)
      as Hsame by (by apply lookup_total_app_l).
    eexists _, _. rewrite Hcall, Hsame, Hrun. simpl. split_and!; [done| |].
    + rewrite lookup_total_app_r by lia.
      rewrite (lookup_total_app_r σ) by lia. f_equal. lia.
    + rewrite !lookup_app_l; [done|lia|rewrite length_app; lia].
Qed.

Lemma fcfs_call_eq (σ : store) (processes : nat) :
  fcfs_call σ processes
  = let st := fcfs_loop (rows (sort_frame (σ !!! processes))) in
    (σ ++ [sort_frame (σ !!! processes);
           frame_metrics (sort_frame (σ !!! processes))
             (fcfs_completion_time st) (fcfs_turnaround_time st)
             (fcfs_waiting_time st)],
     (fcfs_schedule st, (length σ + 1)%nat)).
Proof.
  unfold fcfs_call, alloc. rewrite lookup_total_last, emit_metrics_spec.
  rewrite lookup_total_last, length_app, <- app_assoc. done.
Qed.

Lemma fcfs_call_spec (σ : store) (processes : nat) :
  Return (fcfs_call σ processes)
  = map_outcome
      (λ st, (σ ++ [sort_frame (σ !!! processes);
                    frame_metrics (sort_frame (σ !!! processes))
                      (fcfs_completion_time st) (fcfs_turnaround_time st)
                      (fcfs_waiting_time st)],
              (fcfs_schedule st, (length σ + 1)%nat)))
      (Return (fcfs_loop (rows (sort_frame (σ !!! processes))))).
Proof. by rewrite fcfs_call_eq. Qed.

Lemma sjf_call_spec (fuel : nat) (σ : store) (processes : nat) :
  sjf_call fuel σ processes
  = map_outcome
      (λ st, (σ ++ [σ !!! processes;
                    frame_metrics (σ !!! processes)
                      (sjf_completion_time st) (sjf_turnaround_time st)
                      (sjf_waiting_time st)],
              (sjf_schedule st, (length σ + 1)%nat)))
      (while (sjf_body (rows (σ !!! processes))) fuel
             (sjf_init (length (rows (σ !!! processes))))).
Proof.
  unfold sjf_call, copy, alloc. rewrite lookup_total_last.
  destruct (while _ _ _) as [st| | |]; cbn [map_outcome]; [|done..].
  rewrite emit_metrics_spec, lookup_total_last, length_app, <- app_assoc. done.
Qed.

Lemma round_robin_call_spec (fuel : nat) (σ : store) (processes : nat)
    (time_quantum : Z) :
  round_robin_call fuel σ processes time_quantum
  = map_outcome
      (λ st, (σ ++ [σ !!! processes;
                    frame_metrics (σ !!! processes)
                      (rr_completion_time st)
                      (turnaround_of (rows (σ !!! processes)) (rr_completion_time st))
                      (waiting_of (rows (σ !!! processes))
                         (turnaround_of (rows (σ !!! processes))
                                        (rr_completion_time st)))],
              (rr_schedule st, (length σ + 1)%nat)))
      (while (rr_body (rows (σ !!! processes)) time_quantum) fuel
             (rr_init (rows (σ !!! processes)))).
Proof.
  unfold round_robin_call, copy, alloc. rewrite lookup_total_last.
  destruct (while _ _ _) as [st| | |]; cbn [map_outcome]; [|done..].
  rewrite emit_metrics_spec, lookup_total_last, length_app, <- app_assoc. done.
Qed.

Lemma priority_scheduling_call_spec (fuel : nat) (σ : store) (processes : nat)
    (preemptive : bool) :
  priority_scheduling_call fuel σ processes preemptive
  = map_outcome
      (λ st, (σ ++ [σ !!! processes;
                    frame_metrics (σ !!! processes)
                      (ps_completion_time st)
                      (turnaround_of (rows (σ !!! processes)) (ps_completion_time st))
                      (waiting_of (rows (σ !!! processes))
                         (turnaround_of (rows (σ !!! processes))
                                        (ps_completion_time st)))],
              (ps_schedule st, (length σ + 1)%nat)))
      (while (ps_body (rows (σ !!! processes)) preemptive) fuel
             (ps_init (rows (σ !!! processes)))).
Proof.
  unfold priority_scheduling_call, copy, alloc. rewrite lookup_total_last.
  destruct (while _ _ _) as [st| | |]; cbn [map_outcome]; [|done..].
  rewrite emit_metrics_spec, lookup_total_last, length_app, <- app_assoc. done.
Qed.

(** C9. For every store and every reference [processes] to a frame in it,
    each of the four entry points, called on [processes], leaves every frame
    that existed as it was, the caller's among them (the column assignments
    go to a copy), and a second call on the same reference returns the same
    schedule and a metrics frame with the same content. *)
Theorem calls_are_repeatable (σ : store) (processes : nat) (fuel : nat)
    (time_quantum : Z) (preemptive : bool) :
  (processes < length σ)%nat →
  repeatable (λ σ r, Return (fcfs_call σ r)) σ processes
  ∧ repeatable (sjf_call fuel) σ processes
  ∧ repeatable (λ σ r, round_robin_call fuel σ r time_quantum) σ processes
  ∧ repeatable (λ σ r, priority_scheduling_call fuel σ r preemptive) σ processes.
Proof.
  intros Hp. split_and!.
  - apply (repeatable_intro _
             (λ f, Return (fcfs_loop (rows (sort_frame f))))
             (λ f st, [sort_frame f;
                       frame_metrics (sort_frame f) (fcfs_completion_time st)
                         (fcfs_turnaround_time st) (fcfs_waiting_time st)])
             fcfs_schedule 1); [|done].
    intros σ' r. apply fcfs_call_spec.
  - apply (repeatable_intro _
             (λ f, while (sjf_body (rows f)) fuel (sjf_init (length (rows f))))
             (λ f st, [f; frame_metrics f (sjf_completion_time st)
                            (sjf_turnaround_time st) (sjf_waiting_time st)])
             sjf_schedule 1); [|done].
    intros σ' r. apply sjf_call_spec.
  - apply (repeatable_intro _
             (λ f, while (rr_body (rows f) time_quantum) fuel (rr_init (rows f)))
             (λ f st, [f; frame_metrics f (rr_completion_time st)
                            (turnaround_of (rows f) (rr_completion_time st))
                            (waiting_of (rows f)
                               (turnaround_of (rows f) (rr_completion_time st)))])
             rr_schedule 1); [|done].
    intros σ' r. apply round_robin_call_spec.
  - apply (repeatable_intro _
             (λ f, while (ps_body (rows f) preemptive) fuel (ps_init (rows f)))
             (λ f st, [f; frame_metrics f (ps_completion_time st)
                            (turnaround_of (rows f) (ps_completion_time st))
                            (waiting_of (rows f)
                               (turnaround_of (rows f) (ps_completion_time st)))])
             ps_schedule 1); [|done].
    intros σ' r. apply priority_scheduling_call_spec.
Qed.

Lemma calls_are_repeatable_witness :
  (0 < length ex_store)%nat
  ∧ repeatable (λ σ r, priority_scheduling_call 9 σ r true) ex_store 0.
Proof.
  assert (0 < length ex_store)%nat as H1 by (simpl; lia).
  split; [exact H1|].
  exact (proj2 (proj2 (proj2 (calls_are_repeatable ex_store 0 9 1 true H1)))).
Defined.

(** The call of the example on references: the caller's frame stays at
    reference 0 without metric columns, the metrics frame is the new frame
    at reference 2, and its rows and columns are those of the entry point on
    the rows. *)
Example priority_scheduling_call_example :
  map_outcome (λ r, (fst r !! 0%nat, snd (snd r),
                     column (fst r !!! snd (snd r)) "completion_time",
                     column (fst r !!! 0%nat) "completion_time"))
              (priority_scheduling_call 9 ex_store 0 true)
  = Return (Some (mkFrame ex_ps ∅), 2%nat, [14; 7], []).
Proof. vm_compute. reflexivity. Qed.

(** The calls on references run the entry points: the same schedule, and a
    metrics frame with the rows and the three columns of the entry point. *)
Lemma frame_metrics_columns (df : Frame) ct tt wt :
  rows (frame_metrics df ct tt wt) = rows df
  ∧ column (frame_metrics df ct tt wt) "completion_time" = ct
  ∧ column (frame_metrics df ct tt wt) "turnaround_time" = tt
  ∧ column (frame_metrics df ct tt wt) "waiting_time" = wt.
Proof.
  unfold column, frame_metrics, set_column. simpl. split_and!; [done|..].
  - rewrite !lookup_insert_ne by done. by rewrite lookup_insert_eq.
  - rewrite lookup_insert_ne by done. by rewrite lookup_insert_eq.
  - by rewrite lookup_insert_eq.
Qed.

Lemma observed_frame_metrics (σ : store) (df f : Frame) schedule ct tt wt :
  observed_call (σ ++ [f; frame_metrics df ct tt wt],
                 (schedule, (length σ + 1)%nat))
  = (schedule, rows df, ct, tt, wt).
Proof.
  unfold observed_call, observed. cbn [fst snd].
  rewrite lookup_total_app_r by lia.
  replace (length σ + 1 - length σ)%nat with 1%nat by lia.
  change ([f; frame_metrics df ct tt wt] !!! 1%nat)
    with (frame_metrics df ct tt wt).
  by destruct (frame_metrics_columns df ct tt wt) as (-> & -> & -> & ->).
Qed.

Lemma calls_run_entry_points (σ : store) (processes : nat) (fuel : nat)
    (time_quantum : Z) (preemptive : bool) :
  observed_call (fcfs_call σ processes) = observed (fcfs (rows (σ !!! processes)))
  ∧ map_outcome observed_call (sjf_call fuel σ processes)
    = map_outcome observed (sjf fuel (rows (σ !!! processes)))
  ∧ map_outcome observed_call (round_robin_call fuel σ processes time_quantum)
    = map_outcome observed (round_robin fuel (rows (σ !!! processes)) time_quantum)
  ∧ map_outcome observed_call
                (priority_scheduling_call fuel σ processes preemptive)
    = map_outcome observed
                  (priority_scheduling fuel (rows (σ !!! processes)) preemptive).
Proof.
  split_and!.
  - rewrite fcfs_call_eq. cbv zeta.
    rewrite observed_frame_metrics, rows_sort_frame.
    unfold observed, fcfs. simpl.
    by rewrite column_completion_time, column_turnaround_time,
      column_waiting_time.
  - rewrite sjf_call_spec. unfold sjf.
    destruct (while _ _ _) as [st| | |]; cbn [map_outcome]; [|done..].
    rewrite observed_frame_metrics. unfold observed, sjf_result. simpl.
    by rewrite column_completion_time, column_turnaround_time,
      column_waiting_time.
  - rewrite round_robin_call_spec. unfold round_robin.
    destruct (while _ _ _) as [st| | |]; cbn [map_outcome]; [|done..].
    rewrite observed_frame_metrics. unfold observed, rr_result. simpl.
    by rewrite column_completion_time, column_turnaround_time,
      column_waiting_time.
  - rewrite priority_scheduling_call_spec. unfold priority_scheduling.
    destruct (while _ _ _) as [st| | |]; cbn [map_outcome]; [|done..].
    rewrite observed_frame_metrics. unfold observed, ps_result. simpl.
    by rewrite column_completion_time, column_turnaround_time,
      column_waiting_time.
Qed.

(** ** Nothing is raised

    For every input whatsoever, no entry point raises an exception, and no
    clock leaves the integers: a call returns or is still looping. *)








(** ** The examples of the specification *)

Example fcfs_spec_example :
  fst (fcfs ex_fcfs)
  = [mkSegment "P1" 0 5; mkSegment "P2" 5 8; mkSegment "P3" 8 16]
  ∧ column (snd (fcfs ex_fcfs)) "waiting_time" = [0; 4; 6].
Proof. split; vm_compute; reflexivity. Qed.

Example sjf_spec_example :
  map_outcome (λ r, (map seg_pid (fst r), column (snd r) "waiting_time"))
              (sjf 9 ex_sjf)
  = Return (["P4"; "P1"; "P3"; "P2"]%string, [3; 16; 9; 0]).
Proof. vm_compute. reflexivity. Qed.

Example rr_spec_example :
  map_outcome fst (round_robin 20 ex_rr 3)
  = Return [mkSegment "P1" 0 3; mkSegment "P2" 3 6; mkSegment "P1" 6 9;
            mkSegment "P2" 9 11; mkSegment "P1" 11 14; mkSegment "P1" 14 15].
Proof. vm_compute. reflexivity. Qed.

Example ps_spec_example :
  map_outcome fst (priority_scheduling 20 ex_ps true)
  = Return [mkSegment "P1" 0 3; mkSegment "P2" 3 7; mkSegment "P1" 7 14].
Proof. vm_compute. reflexivity. Qed.

(** * The rest of the code

    The process table that [app.py] keeps in the session, the functions of
    [visualization.py] that compute on the schedule, and more properties of
    the four entry points. *)

From Stdlib Require Import Ascii.
From stdpp Require Import pretty.
Local Open Scope Z_scope.

(** ** The process table of the application: [app.py] *)

(** [f"P{k}"]. *)
Definition pid_of (k : nat) : string := "P" +:+ pretty k.

(** [add_process]: a row with the id [f"P{len(processes) + 1}"] and the
    values of the three number inputs is put behind the table. *)
Definition add_process (arrival burst prio : Z) (processes : list Process)
    : list Process :=
  processes ++ [mkProcess (pid_of (length processes + 1)%nat) arrival burst prio].

(** [processes['pid'] = [f"P{i+1}" for i in range(len(processes))]]. *)
Definition renumber (processes : list Process) : list Process :=
  imap (λ i p, mkProcess (pid_of (i + 1)%nat) (arrival_time p) (burst_time p)
                         (priority p))
       processes.

(** [remove_process(index)]: [drop(index)] raises KeyError for a label that
    the table does not have; the rows that are left are renumbered. *)
Definition remove_process (index : nat) (processes : list Process)
    : outcome (list Process) :=
  if decide (index < length processes)%nat
  then Return (renumber (delete index processes))
  else Raise "KeyError".

(** [clear_processes]. *)
Definition clear_processes : list Process := [].

(** What the number inputs deliver: [min_value=0] for the arrival time,
    [min_value=1] for the burst time and for the priority (which is the
    constant 1 when the input is not shown). *)
Definition from_widgets (arrival burst prio : Z) : Prop :=
  0 ≤ arrival ∧ 1 ≤ burst ∧ 1 ≤ prio.

(** The tables of a session: it starts with the empty table, and every
    button runs one of the three functions. *)
Inductive session : list Process → Prop :=
| session_start : session []
| session_add t arrival burst prio :
    session t → from_widgets arrival burst prio →
    session (add_process arrival burst prio t)
| session_remove t index t' :
    session t → remove_process index t = Return t' → session t'
| session_clear t : session t → session clear_processes.

(** The ids of the table are P1, P2, ... in the order of the rows. *)
Definition numbered (processes : list Process) : Prop :=
  ∀ k p, processes !! k = Some p → pid p = pid_of (k + 1)%nat.

(** What [run_scheduler] hands to the renderers for a table that is not
    empty: the process table is valid for the engine, and the result tiles,
    conserves and has sound metrics. *)
Definition rendered (processes : list Process) (r : list Segment * Frame) : Prop :=
  tiling (fst r) ∧ conserved processes (fst r) ∧ metrics_sound (snd r).

Lemma pid_of_inj : Inj (=) (=) pid_of.
Proof.
  intros a b H. unfold pid_of in H. cbv [String.app] in H. injection H as H.
  by apply (inj pretty).
Qed.

Lemma pid_of_not_Idle k : pid_of k ≠ Idle.
Proof. unfold pid_of, Idle. intros H. cbv [String.app] in H. discriminate H. Qed.

Lemma numbered_NoDup processes : numbered processes → NoDup (pid <$> processes).
Proof.
  intros Hn. apply NoDup_alt. intros i j x Hi Hj.
  rewrite list_lookup_fmap in Hi, Hj.
  destruct (processes !! i) as [p|] eqn:Hp; [|done].
  destruct (processes !! j) as [q|] eqn:Hq; [|done].
  simpl in Hi, Hj. injection Hi as <-. injection Hj as Hj.
  rewrite (Hn _ _ Hp), (Hn _ _ Hq) in Hj. apply pid_of_inj in Hj. lia.
Qed.

Lemma numbered_not_Idle processes : numbered processes → Idle ∉ pid <$> processes.
Proof.
  intros Hn [p [Hp Hin]]%list_elem_of_fmap.
  apply list_elem_of_lookup in Hin as [k Hk].
  rewrite (Hn _ _ Hk) in Hp. by eapply pid_of_not_Idle.
Qed.

Lemma numbered_renumber processes : numbered (renumber processes).
Proof.
  intros k p Hk. unfold renumber in Hk. rewrite list_lookup_imap in Hk.
  destruct (processes !! k); simplify_eq/=. done.
Qed.

Lemma renumber_numbered processes : numbered processes → renumber processes = processes.
Proof.
  intros Hn. apply list_eq. intros k. unfold renumber.
  rewrite list_lookup_imap. destruct (processes !! k) as [p|] eqn:Hp; [|done].
  simpl. rewrite <- (Hn _ _ Hp). by destruct p.
Qed.

Lemma Forall_renumber (P : Z → Z → Z → Prop) processes :
  Forall (λ p, P (arrival_time p) (burst_time p) (priority p)) processes →
  Forall (λ p, P (arrival_time p) (burst_time p) (priority p)) (renumber processes).
Proof.
  rewrite !Forall_lookup. intros H k p Hk. unfold renumber in Hk.
  rewrite list_lookup_imap in Hk.
  destruct (processes !! k) as [q|] eqn:Hq; simplify_eq/=. by eapply H.
Qed.

Lemma session_rows processes :
  session processes →
  numbered processes
  ∧ Forall (λ p, from_widgets (arrival_time p) (burst_time p) (priority p))
           processes.
Proof.
  intros Hs. induction Hs as [|t a b p _ [IHn IHw] Hw|t i t' _ [IHn IHw] Hr|t _ _].
  - split; [by intros k p|constructor].
  - split.
    + intros k x Hk. unfold add_process in Hk.
      apply lookup_app_Some in Hk as [Hk|[Hlen Hk]]; [by apply IHn|].
      apply list_lookup_singleton_Some in Hk as [Hk <-]. simpl.
      f_equal. lia.
    + apply Forall_app. split; [done|]. by constructor.
  - unfold remove_process in Hr. case_decide; simplify_eq.
    split; [apply numbered_renumber|].
    apply (Forall_renumber from_widgets).
    eapply Forall_forall. intros x Hx. rewrite Forall_forall in IHw.
    apply IHw. eapply elem_of_submseteq; [exact Hx|].
    apply sublist_submseteq, sublist_delete.
  - split; [by intros k p|constructor].
Qed.

Lemma from_widgets_valid processes :
  numbered processes →
  Forall (λ p, from_widgets (arrival_time p) (burst_time p) (priority p))
         processes →
  valid processes.
Proof.
  intros Hn Hw. split; [|by apply numbered_NoDup].
  eapply Forall_impl; [exact Hw|]. unfold from_widgets. simpl. intros; lia.
Qed.

(** X1. Whatever buttons are used in a session, the ids of the process table
    are P1, P2, ..., Pn in the order of the rows, and every row has an
    arrival time of at least 0, a burst time and a priority of at least 1.
    So the ids are all different, none of them is ['Idle'], and the table is
    a valid input of the engine. *)
Theorem session_table_is_numbered (processes : list Process) :
  session processes →
  numbered processes
  ∧ Forall (λ p, from_widgets (arrival_time p) (burst_time p) (priority p))
           processes
  ∧ NoDup (pid <$> processes)
  ∧ (Idle ∉ pid <$> processes)
  ∧ valid processes.
Proof.
  intros [Hn Hw]%session_rows. split_and!; try done.
  - by apply numbered_NoDup.
  - by apply numbered_not_Idle.
  - by apply from_widgets_valid.
Qed.

(** A session: two processes are added, the first one is removed. *)
Definition ex_session : list Process := [mkProcess "P1" 3 4 2].

Lemma ex_session_built : session ex_session.
Proof.
  apply (session_remove (add_process 3 4 2 (add_process 0 5 1 [])) 0);
    [|vm_compute; reflexivity].
  repeat (apply session_add; [|unfold from_widgets; lia]). apply session_start.
Qed.

Lemma session_table_is_numbered_witness :
  session ex_session
  ∧ numbered ex_session
  ∧ Forall (λ p, from_widgets (arrival_time p) (burst_time p) (priority p))
           ex_session
  ∧ NoDup (pid <$> ex_session)
  ∧ (Idle ∉ pid <$> ex_session)
  ∧ valid ex_session.
Proof.
  split; [exact ex_session_built|].
  exact (session_table_is_numbered ex_session ex_session_built).
Defined.

Lemma numbered_ex_session : numbered ex_session.
Proof. intros [|k] p Hk; simplify_eq/=. reflexivity. Qed.

(** X2. Removing the row that was added last gives the table back as it was,
    ids included, when its ids were P1, ..., Pn. *)
Theorem remove_undoes_add (processes : list Process) (arrival burst prio : Z) :
  numbered processes →
  remove_process (length processes) (add_process arrival burst prio processes)
  = Return processes.
Proof.
  intros Hn. unfold remove_process, add_process.
  rewrite decide_True by (rewrite length_app; simpl; lia).
  rewrite delete_middle, app_nil_r. by rewrite renumber_numbered.
Qed.

Lemma remove_undoes_add_witness :
  numbered ex_session
  ∧ remove_process (length ex_session) (add_process 7 1 1 ex_session)
    = Return ex_session.
Proof.
  split; [exact numbered_ex_session|].
  exact (remove_undoes_add ex_session 7 1 1 numbered_ex_session).
Defined.

(** The values of a row, without its id. *)
Definition row_values (p : Process) : Z * Z * Z :=
  (arrival_time p, burst_time p, priority p).

(** X3. [remove_process(index)] raises KeyError when the table has no row
    [index].  Otherwise the table has one row less, the rows before [index]
    are as they were, every row behind it has moved up by one with its
    values, and the ids are P1, P2, ... again: the row that was at [k + 1]
    is now called P(k+1). *)
Theorem remove_process_renumbers (index : nat) (processes : list Process) :
  ((length processes ≤ index)%nat
   ∧ remove_process index processes = Raise "KeyError")
  ∨ ((index < length processes)%nat
     ∧ ∃ t, remove_process index processes = Return t
            ∧ Datatypes.S (length t) = length processes
            ∧ numbered t
            ∧ (∀ k, (k < index)%nat →
                    row_values <$> t !! k = row_values <$> processes !! k)
            ∧ (∀ k, (index ≤ k)%nat →
                    row_values <$> t !! k
                    = row_values <$> processes !! Datatypes.S k)).
Proof.
  unfold remove_process. case_decide as Hi; [right|left; split; [lia|done]].
  split; [done|]. eexists. split; [done|].
  assert (∀ k, row_values <$> renumber (delete index processes) !! k
               = row_values <$> delete index processes !! k) as Hv.
  { intros k. unfold renumber. rewrite list_lookup_imap.
    by destruct (delete index processes !! k). }
  split_and!.
  - unfold renumber. rewrite length_imap, length_delete by by apply lookup_lt_is_Some.
    lia.
  - apply numbered_renumber.
  - intros k Hk. by rewrite Hv, list_lookup_delete_lt.
  - intros k Hk. by rewrite Hv, list_lookup_delete_ge.
Qed.

(** Every entry point returns what the renderers are given. *)
Lemma every_run_rendered processes time_quantum :
  processes ≠ [] → valid processes → Idle ∉ pid <$> processes →
  1 ≤ time_quantum →
  every_run processes time_quantum (rendered processes).
Proof.
  intros Hne [Hv Hnd] Hidle Hq.
  pose proof (Forall_weaken_burst _ Hv) as Hb.
  pose proof (nonempty_lookup _ Hne) as H0.
  refine (conj _ (conj _ (conj _ _))).
  - pose proof (sort_values_Permutation processes) as Hperm.
    pose proof (fcfs_loop_inv _ (Forall_burst_sorted _ Hb))
      as [Hct Htt Hwt Ht Hdone Hexec].
    rewrite sort_values_length in Hdone, Hexec.
    assert (NoDup (pid <$> sort_values processes)) as Hnd' by by rewrite Hperm.
    assert (Idle ∉ pid <$> sort_values processes) as Hidle' by by rewrite Hperm.
    specialize (Hexec Hnd' Hidle').
    destruct (Hdone 0%nat H0) as (Hfin & _).
    refine (conj _ (conj _ _)).
    + eapply tiling_intro; [done|by eapply finished_nonempty].
    + apply (conserved_Permutation (sort_values processes)); [done|].
      apply conserved_intro. rewrite sort_values_length. intros i Hi. simpl.
      rewrite Hexec by done. by rewrite decide_True.
    + apply metrics_sound_intro; try done.
      rewrite sort_values_length. intros i Hi.
      destruct (Hdone i Hi) as ([? _] & ? & ?). done.
  - destruct (sjf_returns processes Hb)
      as (st & Hr & [Hct Htt Hwt _ _ Ht Hdone Hexec] & Hall).
    eexists. split; [done|].
    destruct (Hdone 0%nat H0 (Hall _ H0)) as (Hfin & _).
    refine (conj _ (conj _ _)); simpl.
    + eapply tiling_intro; [done|by eapply finished_nonempty].
    + apply conserved_intro. intros i Hi. rewrite Hexec, Hall by done. done.
    + apply metrics_sound_intro; try done.
      intros i Hi. destruct (Hdone i Hi (Hall i Hi)) as ([? _] & ? & ?). done.
  - destruct (round_robin_returns processes time_quantum Hb Hq)
      as (st & Hr & [Hct _ _ Ht _ _ _ _ Hdone Hexec] & Hall).
    eexists. split; [done|].
    pose proof (Hdone 0%nat H0 (Hall _ H0)) as Hfin.
    refine (conj _ (conj _ _)); simpl.
    + eapply tiling_intro; [done|by eapply finished_nonempty].
    + apply conserved_intro. intros i Hi. rewrite Hexec, Hall by done. lia.
    + apply metrics_sound_intro;
        rewrite ?waiting_of_length, ?turnaround_of_length; try done.
      intros i Hi. destruct (Hdone i Hi (Hall i Hi)) as [? _].
      rewrite waiting_of_lookup, turnaround_of_lookup by done. done.
  - intros preemptive.
    destruct (priority_scheduling_returns processes preemptive Hb)
      as (st & Hr & [Hct _ _ _ _ Hdr Ht _ Hfint Hfin _ _ Hexec] & Hall).
    eexists. split; [done|].
    pose proof (Hfin Hnd 0%nat H0 (Hall _ H0)) as Hfin0.
    refine (conj _ (conj _ _)); simpl.
    + eapply tiling_intro; [done|by eapply finished_nonempty].
    + apply conserved_intro. intros i Hi.
      rewrite Hexec by done. rewrite (proj1 (Hdr i Hi) (Hall i Hi)). lia.
    + apply metrics_sound_intro;
        rewrite ?waiting_of_length, ?turnaround_of_length; try done.
      intros i Hi. pose proof (Hfint i Hi (Hall i Hi)).
      rewrite waiting_of_lookup, turnaround_of_lookup by done. done.
Qed.

(** X4. Whatever table a session has built, and whatever algorithm, mode and
    time quantum (at least 1, as the input gives it) are selected,
    [run_scheduler] gives nothing for the empty table, and for any other
    table it returns, within the fuel bound, a schedule and a metrics table:
    the schedule tiles the time from 0 on, every process gets its burst time
    in it, and the metrics of every row are sound. *)
Theorem session_run_scheduler (processes : list Process) (alg : algorithm)
    (time_quantum : Z) (preemptive : bool) :
  session processes →
  1 ≤ time_quantum →
  (processes = [] ∧
   ∀ fuel, run_scheduler fuel alg time_quantum preemptive processes = Return None)
  ∨ (processes ≠ [] ∧
     ∃ r, returns_from (sjf_fuel processes + work_fuel processes)
            (λ fuel, run_scheduler fuel alg time_quantum preemptive processes)
            (Some r)
          ∧ rendered processes r).
Proof.
  intros Hs Hq. destruct (decide (processes = [])) as [->|Hne]; [by left|right].
  split; [done|].
  destruct (session_rows _ Hs) as [Hn Hw].
  destruct (every_run_rendered processes time_quantum Hne
              (from_widgets_valid _ Hn Hw) (numbered_not_Idle _ Hn) Hq)
    as (Hf & (rs & Hrs & Hs') & (rr & Hrr & Hr') & Hp).
  assert (length processes ≠ 0%nat) as Hlen by by destruct processes.
  unfold run_scheduler. destruct alg.
  - exists (fcfs processes). split; [|done]. intros fuel _.
    by rewrite decide_False.
  - exists rs. split; [|done]. intros fuel Hfuel.
    rewrite decide_False by done. rewrite Hrs by lia. done.
  - exists rr. split; [|done]. intros fuel Hfuel.
    rewrite decide_False by done. rewrite Hrr by lia. done.
  - destruct (Hp preemptive) as (rp & Hrp & Hp').
    exists rp. split; [|done]. intros fuel Hfuel.
    rewrite decide_False by done. rewrite Hrp by lia. done.
Qed.

Lemma session_run_scheduler_witness :
  session ex_session
  ∧ 1 ≤ 2
  ∧ ((ex_session = [] ∧
      ∀ fuel, run_scheduler fuel RR 2 false ex_session = Return None)
     ∨ (ex_session ≠ [] ∧
        ∃ r, returns_from (sjf_fuel ex_session + work_fuel ex_session)
               (λ fuel, run_scheduler fuel RR 2 false ex_session) (Some r)
             ∧ rendered ex_session r)).
Proof.
  assert (1 ≤ 2) as H2 by lia.
  split; [exact ex_session_built|]. split; [exact H2|].
  exact (session_run_scheduler ex_session RR 2 false ex_session_built H2).
Defined.


(** ** More about the schedules *)

(** The lengths of the segments of process [p], in the order of the
    schedule. *)
Definition slices (p : string) (schedule : list Segment) : list Z :=
  duration <$> filter (λ s, seg_pid s = p) schedule.


(** The states that a loop passes through, from its result. *)
Lemma reaches_front {S : Type} (body : S → pass S) (s0 s1 s : S) :
  body s0 = Next s1 → reaches body s1 s → reaches body s0 s.
Proof.
  intros Hb Hr. induction Hr as [|s s' _ IH Hs].
  - eapply reaches_next; [apply reaches_start|done].
  - by eapply reaches_next.
Qed.

Lemma while_reaches {S : Type} (body : S → pass S) (fuel : nat) (s r : S) :
  while body fuel s = Return r → reaches body s r ∧ body r = Break.
Proof.
  revert s. induction fuel as [|fuel IH]; intros s H; [done|].
  simpl in H. destruct (body s) as [s'| | |] eqn:Hb; try done.
  - destruct (IH _ H). split; [by eapply reaches_front|done].
  - simplify_eq. split; [apply reaches_start|done].
Qed.



Lemma slices_nil p : slices p [] = [].
Proof. done. Qed.





(** *** Round robin: the shape of the schedule *)

Section rr_shape.
Context (df : list Process) (time_quantum : Z).
Context (Hburst : Forall (λ p, 0 < burst_time p) df) (Hquantum : 1 ≤ time_quantum).
Context (Hnodup : NoDup (pid <$> df)) (Hidle : Idle ∉ pid <$> df).
Let n := length df.





End rr_shape.






(** *** Shortest Job First: the shape of the schedule *)

Section sjf_shape.
Context (df : list Process).
Context (Hburst : Forall (λ p, 0 < burst_time p) df).
Context (Hnodup : NoDup (pid <$> df)) (Hidle : Idle ∉ pid <$> df).
Let n := length df.





End sjf_shape.

(** *** Priority scheduling: the shape of the schedule *)

Section ps_shape.
Context (df : list Process) (preemptive : bool).
Context (Hburst : Forall (λ p, 0 < burst_time p) df).
Context (Hnodup : NoDup (pid <$> df)) (Hidle : Idle ∉ pid <$> df).
Let n := length df.





End ps_shape.

(** *** First Come First Serve: the shape of the schedule *)

Section fcfs_shape.
Context (processes : list Process).
Context (Hburst : Forall (λ p, 0 < burst_time p) processes).
Context (Hnodup : NoDup (pid <$> processes)) (Hidle : Idle ∉ pid <$> processes).
Let n := length processes.





End fcfs_shape.







(** *** What the shapes give *)
























(** *** Shortest Job First on a batch *)




Section sjf_batch.
Context (df : list Process).
Context (Hburst : Forall (λ p, 0 < burst_time p) df).
Context (Hbatch : Forall (λ p, arrival_time p ≤ 0) df).
Let n := length df.






End sjf_batch.



(** *** Preemptive priority scheduling: a slice *)

(** A state of the run on [ex_ps]: at time 3, after the first slice of
    P1. *)
Definition ex_ps_state : ps_state :=
  mkPs 3 [0; 0] [7; 4] [false; false] [mkSegment "P1" 0 3] 0 (Some 0%nat).

Example ex_ps_state_reached :
  passes (ps_body ex_ps true) 1 (ps_init ex_ps) = Some ex_ps_state.
Proof. vm_compute. reflexivity. Qed.

(** X13. In every state of the preemptive [priority_scheduling], the slice of
    the selected process ends before any other process arrives: every
    process that is not completed and has arrived before the end of the
    slice was ready at its start, so the selected process has the lowest
    priority number among them for the whole slice, and among those with
    that number it is the first row of the table. *)
Theorem preemptive_slice_keeps_priority (df : list Process) (st st' : ps_state)
    (sel j : nat) :
  select priority df (ps_is_completed st) (ps_current_time st) = Some sel →
  ps_slice df st sel = Some st' →
  (j < length df)%nat →
  ps_is_completed st !!! j = false →
  arrival_time (df !!! j) < ps_current_time st' →
  arrival_time (df !!! j) ≤ ps_current_time st
  ∧ priority (df !!! sel) ≤ priority (df !!! j)
  ∧ (priority (df !!! j) = priority (df !!! sel) → (sel ≤ j)%nat).
Proof.
  intros Hsel Hslice Hj Hnc Harr.
  apply select_Some in Hsel as (Hs & [Hsa Hsc] & Hmin).
  assert (arrival_time (df !!! j) ≤ ps_current_time st) as Hready.
  { destruct (decide (j = sel)) as [->|Hne]; [done|].
    destruct (decide (arrival_time (df !!! j) ≤ ps_current_time st)) as [|Hlate];
      [done|]. exfalso.
    rewrite (ps_slice_time _ _ _ _ Hslice) in Harr.
    unfold ps_execution_time in Harr.
    pose proof (future_arrival_scan df (ps_is_completed st) sel
                  (ps_current_time st)) as Hscan.
    destruct (future_arrival _ _ _ _) as [a|]; simpl in Hscan.
    - destruct Hscan as [_ Hleast].
      specialize (Hleast j Hj ltac:(split_and!; [done|done|lia])). lia.
    - apply (Hscan j Hj). split_and!; [done|done|lia]. }
  split; [done|]. by apply Hmin.
Qed.

Lemma preemptive_slice_keeps_priority_witness :
  select priority ex_ps (ps_is_completed ex_ps_state)
         (ps_current_time ex_ps_state) = Some 1%nat
  ∧ ps_slice ex_ps ex_ps_state 1
    = Some (mkPs 7 [0; 7] [7; 0] [false; true]
                 [mkSegment "P1" 0 3; mkSegment "P2" 3 7] 1 (Some 1%nat))
  ∧ (0 < length ex_ps)%nat
  ∧ ps_is_completed ex_ps_state !!! 0%nat = false
  ∧ arrival_time (ex_ps !!! 0%nat) < 7
  ∧ arrival_time (ex_ps !!! 0%nat) ≤ 3
  ∧ priority (ex_ps !!! 1%nat) ≤ priority (ex_ps !!! 0%nat)
  ∧ (priority (ex_ps !!! 0%nat) = priority (ex_ps !!! 1%nat) → (1 ≤ 0)%nat).
Proof.
  assert (select priority ex_ps (ps_is_completed ex_ps_state)
                 (ps_current_time ex_ps_state) = Some 1%nat) as H1
    by (vm_compute; reflexivity).
  assert (ps_slice ex_ps ex_ps_state 1
          = Some (mkPs 7 [0; 7] [7; 0] [false; true]
                       [mkSegment "P1" 0 3; mkSegment "P2" 3 7] 1 (Some 1%nat)))
    as H2 by (vm_compute; reflexivity).
  assert (0 < length ex_ps)%nat as H3 by (simpl; lia).
  assert (ps_is_completed ex_ps_state !!! 0%nat = false) as H4 by reflexivity.
  assert (arrival_time (ex_ps !!! 0%nat) < 7) as H5 by (simpl; lia).
  split; [exact H1|]. split; [exact H2|]. split; [exact H3|].
  split; [exact H4|]. split; [exact H5|].
  exact (preemptive_slice_keeps_priority ex_ps ex_ps_state _ 1 0 H1 H2 H3 H4 H5).
Defined.

(** *** The labels of a schedule *)

(** Every segment is labelled ['Idle'] or with the id of a row. *)
Definition labelled_by (df : list Process) (schedule : list Segment) : Prop :=
  Forall (λ s, seg_pid s = Idle ∨ seg_pid s ∈ pid <$> df) schedule.

Lemma labelled_by_idle df schedule t t' :
  labelled_by df schedule → labelled_by df (schedule ++ [mkSegment Idle t t']).
Proof.
  unfold labelled_by. intros H. apply Forall_app. split; [done|].
  apply Forall_singleton. by left.
Qed.

Lemma labelled_by_row df schedule i t t' :
  (i < length df)%nat → labelled_by df schedule →
  labelled_by df (schedule ++ [mkSegment (pid (df !!! i)) t t']).
Proof.
  unfold labelled_by. intros Hi H. apply Forall_app. split; [done|].
  apply Forall_singleton.
  right. simpl. apply list_elem_of_fmap. exists (df !!! i). split; [done|].
  apply list_elem_of_lookup. exists i. by apply lookup_total_Some.
Qed.

Lemma labelled_by_set_last_end df schedule t schedule' :
  set_last_end schedule t = Some schedule' →
  labelled_by df schedule → labelled_by df schedule'.
Proof.
  destruct schedule as [|s l _] using rev_ind; [done|].
  unfold labelled_by. rewrite set_last_end_snoc. intros [= <-] [Hl Hs]%Forall_app.
  apply Forall_app. split; [done|]. apply Forall_singleton.
  rewrite Forall_singleton in Hs. exact Hs.
Qed.

Lemma labelled_by_Permutation df df' schedule :
  df ≡ₚ df' → labelled_by df schedule → labelled_by df' schedule.
Proof.
  unfold labelled_by. intros Hp H. eapply Forall_impl; [exact H|]. simpl.
  intros s [?|?]; [by left|].
  right. by rewrite <- Hp.
Qed.

Lemma fcfs_labelled processes :
  labelled_by processes (fcfs_schedule (fcfs_loop processes)).
Proof.
  unfold fcfs_loop.
  apply (fold_left_seq_ind _ (λ _ st, labelled_by processes (fcfs_schedule st))).
  - apply Forall_nil_2.
  - intros k st Hk H. unfold fcfs_body. cbv zeta. simpl.
    apply labelled_by_row; [done|]. case_match; [|done].
    by apply labelled_by_idle.
Qed.

Lemma sjf_labelled_step df st st' :
  labelled_by df (sjf_schedule st) → sjf_body df st = Next st' →
  labelled_by df (sjf_schedule st').
Proof.
  intros H Hbody. unfold sjf_body in Hbody. case_decide; [done|].
  destruct (select _ _ _ _) as [i|] eqn:Hsel.
  - simplify_eq. apply select_Some in Hsel as (Hi & _). simpl.
    by apply labelled_by_row.
  - unfold sjf_idle in Hbody. destruct (earliest _ _); simplify_eq. simpl.
    by apply labelled_by_idle.
Qed.

Lemma rr_labelled_step df time_quantum st st' :
  labelled_by df (rr_schedule st)
  ∧ Forall (λ j, (j < length df)%nat) (rr_ready_queue st) →
  rr_body df time_quantum st = Next st' →
  labelled_by df (rr_schedule st')
  ∧ Forall (λ j, (j < length df)%nat) (rr_ready_queue st').
Proof.
  intros [H Hqueue] Hbody. unfold rr_body in Hbody.
  assert (∀ rem t other queue,
            Forall (λ j, (j < length df)%nat) queue →
            Forall (λ j, (j < length df)%nat)
                   (enqueue_arrived df rem t other queue)) as Henq.
  { intros rem t other queue Hq. rewrite enqueue_arrived_filter.
    apply Forall_app. split; [done|]. apply Forall_forall.
    intros j [_ Hj%elem_of_seq]%list_elem_of_filter. lia. }
  destruct (rr_ready_queue st) as [|i rest] eqn:Hq.
  - destruct (0 <? sum (rr_remaining_burst_time st)); [|done].
    unfold rr_idle in Hbody. destruct (earliest _ _); simplify_eq. simpl.
    rewrite Hq. split; [by apply labelled_by_idle|]. by apply Henq.
  - simplify_eq. apply Forall_cons in Hqueue as [Hi Hrest].
    unfold rr_slice. cbv zeta. case_match; simpl.
    + split; [by apply labelled_by_row|]. apply Forall_app.
      split; [by apply Henq|by apply Forall_singleton].
    + split; [by apply labelled_by_row|by apply Henq].
Qed.

Lemma ps_labelled_step df preemptive st st' :
  labelled_by df (ps_schedule st) → ps_body df preemptive st = Next st' →
  labelled_by df (ps_schedule st').
Proof.
  intros H Hbody. unfold ps_body in Hbody. case_decide; [done|].
  destruct (select _ _ _ _) as [i|] eqn:Hsel.
  - apply select_Some in Hsel as (Hi & _).
    destruct (negb preemptive).
    + simplify_eq. simpl. by apply labelled_by_row.
    + destruct (ps_slice df st i) as [st1|] eqn:Hsl; simplify_eq.
      unfold ps_slice in Hsl. cbv zeta in Hsl.
      destruct (ps_emit _ _ _ _) as [sched|] eqn:He; simplify_eq/=.
      assert (labelled_by df sched) as Hs.
      { unfold ps_emit in He. case_decide; simplify_eq.
        - by eapply labelled_by_set_last_end.
        - by apply labelled_by_row. }
      unfold ps_account. cbv zeta. by case_match.
  - unfold ps_idle in Hbody. destruct (earliest _ _); simplify_eq. simpl.
    by apply labelled_by_idle.
Qed.

(** What a loop returns satisfies what its passes keep. *)
Lemma while_keeps {S : Type} (body : S → pass S) (J : S → Prop) (fuel : nat)
    (s0 st : S) :
  (∀ s s', J s → body s = Next s' → J s') →
  J s0 → while body fuel s0 = Return st → J st.
Proof.
  intros Hstep H0 Hw. apply while_reaches in Hw as [Hr _].
  induction Hr as [|s s' _ IH Hb]; [done|]. by eapply Hstep.
Qed.

Lemma fcfs_returned_labelled processes :
  labelled_by processes (fst (fcfs processes)).
Proof.
  apply (labelled_by_Permutation (sort_values processes));
    [apply sort_values_Permutation|]. apply fcfs_labelled.
Qed.

Lemma sjf_returned_labelled processes fuel r :
  sjf fuel processes = Return r → labelled_by processes (fst r).
Proof.
  intros Hr. unfold sjf in Hr. cbv zeta in Hr.
  destruct (while _ _ _) as [st| | |] eqn:Hw; simplify_eq/=.
  eapply (while_keeps _ (λ st, labelled_by processes (sjf_schedule st)));
    [apply sjf_labelled_step| |exact Hw]. apply Forall_nil_2.
Qed.

Lemma rr_returned_labelled processes time_quantum fuel r :
  round_robin fuel processes time_quantum = Return r →
  labelled_by processes (fst r).
Proof.
  intros Hr. unfold round_robin in Hr. cbv zeta in Hr.
  destruct (while _ _ _) as [st| | |] eqn:Hw; simplify_eq/=.
  apply (while_keeps _ _ _ _ _ (rr_labelled_step processes time_quantum)) in Hw;
    [by destruct Hw|].
  split; [apply Forall_nil_2|]. simpl.
  rewrite seed_queue_filter.
  apply Forall_forall. intros j [_ Hj%elem_of_seq]%list_elem_of_filter. lia.
Qed.

Lemma ps_returned_labelled processes preemptive fuel r :
  priority_scheduling fuel processes preemptive = Return r →
  labelled_by processes (fst r).
Proof.
  intros Hr. unfold priority_scheduling in Hr. cbv zeta in Hr.
  destruct (while _ _ _) as [st| | |] eqn:Hw; simplify_eq/=.
  eapply (while_keeps _ (λ st, labelled_by processes (ps_schedule st)));
    [apply ps_labelled_step| |exact Hw]. apply Forall_nil_2.
Qed.

(** X14. For every input, whenever an entry point returns, every segment of
    its schedule is labelled ['Idle'] or with the id of a row of the
    process table. *)
Theorem schedules_name_rows (processes : list Process) (time_quantum : Z) :
  labelled_by processes (fst (fcfs processes))
  ∧ (∀ fuel r, sjf fuel processes = Return r → labelled_by processes (fst r))
  ∧ (∀ fuel r, round_robin fuel processes time_quantum = Return r →
               labelled_by processes (fst r))
  ∧ (∀ fuel preemptive r,
       priority_scheduling fuel processes preemptive = Return r →
       labelled_by processes (fst r)).
Proof.
  split_and!.
  - apply fcfs_returned_labelled.
  - intros fuel r. apply sjf_returned_labelled.
  - intros fuel r. apply rr_returned_labelled.
  - intros fuel preemptive r. apply ps_returned_labelled.
Qed.

(** *** No idle time while a process is ready *)
















(** *** The order of the rows *)

Lemma row_le_antisym p q : row_le p q → row_le q p → row_le p q ∧ pid p = pid q.
Proof.
  unfold row_le, row_leb. intros H1 H2. split; [done|].
  apply orb_true_iff in H1 as [H1|[E1 L1]%andb_true_iff];
    apply orb_true_iff in H2 as [H2|[E2 L2]%andb_true_iff];
    rewrite ?Z.ltb_lt, ?Z.eqb_eq in *; try lia.
  by apply String.leb_antisym.
Qed.

Lemma pid_unique df p q :
  NoDup (pid <$> df) → p ∈ df → q ∈ df → pid p = pid q → p = q.
Proof.
  intros Hnd [i Hi]%list_elem_of_lookup [j Hj]%list_elem_of_lookup Heq.
  apply row_lookup in Hi as [Hi <-]. apply row_lookup in Hj as [Hj <-].
  by rewrite (pid_inj df i j Hnd Hi Hj Heq).
Qed.

Lemma sort_values_unique processes processes' :
  processes ≡ₚ processes' → NoDup (pid <$> processes) →
  sort_values processes = sort_values processes'.
Proof.
  intros Hperm Hnd. apply (Sorted_unique_strong row_le).
  - intros p q Hp Hq H1 H2. rewrite sort_values_Permutation in Hp, Hq.
    rewrite <- Hperm in Hq. apply (pid_unique processes); [done..|].
    by destruct (row_le_antisym p q H1 H2).
  - apply sort_values_Sorted.
  - apply sort_values_Sorted.
  - by rewrite !sort_values_Permutation.
Qed.

(** X16. [fcfs] does not depend on the order in which the rows of the table
    are given, when the ids are all different: it returns the same schedule
    and the same metrics table for every rearrangement of the rows. *)
Theorem fcfs_ignores_row_order (processes processes' : list Process) :
  processes ≡ₚ processes' →
  NoDup (pid <$> processes) →
  fcfs processes = fcfs processes'.
Proof.
  intros Hperm Hnd. unfold fcfs. cbv zeta.
  by rewrite (sort_values_unique processes processes').
Qed.

Lemma fcfs_ignores_row_order_witness :
  ex_unsorted ≡ₚ reverse ex_unsorted
  ∧ NoDup (pid <$> ex_unsorted)
  ∧ fcfs ex_unsorted = fcfs (reverse ex_unsorted).
Proof.
  assert (ex_unsorted ≡ₚ reverse ex_unsorted) as H1
    by (symmetry; apply reverse_Permutation).
  assert (NoDup (pid <$> ex_unsorted)) as H2.
  { apply (bool_decide_unpack (NoDup (pid <$> ex_unsorted))). by vm_compute. }
  split; [exact H1|]. split; [exact H2|].
  exact (fcfs_ignores_row_order ex_unsorted (reverse ex_unsorted) H1 H2).
Defined.

(** *** Priority scheduling on a batch *)


Section ps_batch.
Context (df : list Process).
Context (Hburst : Forall (λ p, 0 < burst_time p) df).
Context (Hbatch : Forall (λ p, arrival_time p ≤ 0) df).





End ps_batch.



(** ** The renderers: [visualization.py] *)

(** [sorted(list(set(l)))]: the elements of [l], each once, in ascending
    order.  The order in which a set hands out its elements does not show:
    the order is total on the elements. *)
Definition sorted_set {A : Type} `{EqDecision A} (leb : A → A → bool)
    (l : list A) : list A :=
  sort_by leb (remove_dups l).

(** *** [create_gantt_chart] *)

(** A colour of the chart: entry [i] of the colours sampled from the
    palette, or the gray of idle time. *)
Inductive color := Palette (i : nat) | LightGray.

Global Instance color_eq_dec : EqDecision color.
Proof. solve_decision. Defined.

(** [sorted(list(set([s['pid'] for s in schedule if s['pid'] != 'Idle'])))]. *)
Definition process_ids (schedule : list Segment) : list string :=
  sorted_set String.leb (seg_pid <$> filter (λ s, seg_pid s ≠ Idle) schedule).

(** [{pid: colors[i] for i, pid in enumerate(process_ids)}]: every entry is
    written in turn. *)
Definition palette (process_ids : list string) : gmap string color :=
  fold_left (λ m ip, <[ip.2 := Palette ip.1]> m) (imap pair process_ids) ∅.

(** [color_map], with the entry for idle time written last. *)
Definition color_map (schedule : list Segment) : gmap string color :=
  <[Idle := LightGray]> (palette (process_ids schedule)).

(** The keys of [color_map] in the order in which a dict keeps them: ['Idle']
    is not among the process ids, so it is a new key, behind the others. *)
Definition legend (schedule : list Segment) : list string :=
  process_ids schedule ++ [Idle].

(** A bar of the chart: where it starts, how wide it is, its colour, and the
    text in its middle, if there is one. *)
Record bar := mkBar {
  bar_left : Z;
  bar_width : Z;
  bar_color : color;
  bar_text : option string;
}.

(** The body of [for i, proc in enumerate(schedule)]; [None] stands for the
    KeyError of [color_map[pid]].  The durations are integers, so
    [duration > 0.5] is [1 <= duration]. *)
Definition gantt_bar (color_map : gmap string color) (proc : Segment)
    : option bar :=
  match color_map !! seg_pid proc with
  | Some c =>
      Some (mkBar (start_time proc) (duration proc) c
                  (if decide (1 ≤ duration proc) then Some (seg_pid proc)
                   else None))
  | None => None
  end.

(** [sorted(list(set(all_times)))]. *)
Definition x_ticks (schedule : list Segment) : list Z :=
  sorted_set Z.leb (flat_map (λ proc, [start_time proc; end_time proc]) schedule).

Record chart := mkChart {
  chart_bars : list bar;
  chart_xticks : list Z;
  chart_legend : list string;
}.

Definition create_gantt_chart (schedule : list Segment) : outcome chart :=
  match mapM (gantt_bar (color_map schedule)) schedule with
  | Some bars => Return (mkChart bars (x_ticks schedule) (legend schedule))
  | None => Raise "KeyError"
  end.

Example create_gantt_chart_example :
  create_gantt_chart
    [mkSegment "P2" 0 2; mkSegment "Idle" 2 3; mkSegment "P1" 3 4]
  = Return (mkChart [mkBar 0 2 (Palette 1) (Some "P2"%string);
                     mkBar 2 1 LightGray (Some "Idle"%string);
                     mkBar 3 1 (Palette 0) (Some "P1"%string)]
                    [0; 2; 3; 4]
                    ["P1"; "P2"; "Idle"]%string).
Proof. vm_compute. reflexivity. Qed.

Lemma sorted_set_NoDup {A : Type} `{EqDecision A} (leb : A → A → bool) (l : list A) :
  NoDup (sorted_set leb l).
Proof.
  unfold sorted_set. rewrite sort_by_Permutation. apply NoDup_remove_dups.
Qed.

Lemma elem_of_sorted_set {A : Type} `{EqDecision A} (leb : A → A → bool)
    (l : list A) x :
  x ∈ sorted_set leb l ↔ x ∈ l.
Proof.
  unfold sorted_set. rewrite sort_by_Permutation. apply elem_of_remove_dups.
Qed.

(** The sorted list of the elements is the only list without repetitions
    that is sorted and has these elements. *)
Lemma sorted_set_unique {A : Type} `{EqDecision A} (leb : A → A → bool)
    (l l' : list A) :
  (∀ x y, leb x y = true ∨ leb y x = true) →
  Transitive (λ a b, leb a b = true) →
  (∀ x y, leb x y = true → leb y x = true → x = y) →
  NoDup l' → Sorted (λ a b, leb a b = true) l' → (∀ x, x ∈ l' ↔ x ∈ l) →
  sorted_set leb l = l'.
Proof.
  intros Htotal Htrans Hanti Hnd Hs Hel.
  assert (AntiSymm (=) (λ a b, leb a b = true)) as Hanti'.
  { intros x y. apply Hanti. }
  apply (Sorted_unique (λ a b, leb a b = true)); [|done|].
  - by apply sort_by_Sorted.
  - apply NoDup_Permutation; [apply sorted_set_NoDup|done|].
    intros x. by rewrite elem_of_sorted_set, Hel.
Qed.

Lemma elem_of_process_ids schedule p :
  p ∈ process_ids schedule ↔ p ≠ Idle ∧ ∃ s, s ∈ schedule ∧ seg_pid s = p.
Proof.
  unfold process_ids. rewrite elem_of_sorted_set, list_elem_of_fmap.
  split.
  - intros (s & -> & [Hs Hin]%list_elem_of_filter). eauto.
  - intros (Hp & s & Hs & <-). exists s. split; [done|].
    by apply list_elem_of_filter.
Qed.

Lemma palette_snoc ids p :
  palette (ids ++ [p]) = <[p := Palette (length ids)]> (palette ids).
Proof.
  unfold palette. rewrite imap_app, fold_left_app. simpl.
  by rewrite Nat.add_0_r.
Qed.

Lemma palette_lookup ids p c :
  NoDup ids →
  palette ids !! p = Some c ↔ ∃ i, ids !! i = Some p ∧ c = Palette i.
Proof.
  induction ids as [|x ids IH] using rev_ind; intros Hnd.
  - unfold palette. simpl. rewrite lookup_empty. split; [done|].
    by intros (i & Hi & _).
  - apply NoDup_app in Hnd as (Hnd & Hx & _). rewrite palette_snoc.
    destruct (decide (p = x)) as [->|Hne].
    + rewrite lookup_insert_eq. split.
      * intros [= <-]. exists (length ids). split; [|done].
        by apply list_lookup_middle.
      * intros (i & Hi & ->). do 2 f_equal.
        apply lookup_app_Some in Hi as [Hi|[Hlen Hi]].
        -- apply list_elem_of_lookup_2 in Hi. destruct (Hx x Hi).
           by apply list_elem_of_singleton.
        -- apply list_lookup_singleton_Some in Hi as [Hi _]. lia.
    + rewrite lookup_insert_ne by done. rewrite IH by done. split.
      * intros (i & Hi & ->). exists i. split; [|done].
        by apply lookup_app_l_Some.
      * intros (i & Hi & ->). exists i. split; [|done].
        apply lookup_app_Some in Hi as [Hi|[Hlen Hi]]; [done|].
        apply list_lookup_singleton_Some in Hi as [_ Hi]. congruence.
Qed.

Lemma color_map_lookup schedule p c :
  color_map schedule !! p = Some c ↔
  (p = Idle ∧ c = LightGray)
  ∨ (p ≠ Idle ∧ ∃ i, process_ids schedule !! i = Some p ∧ c = Palette i).
Proof.
  unfold color_map. destruct (decide (p = Idle)) as [->|Hne].
  - rewrite lookup_insert_eq. split; [intros [= <-]; by left|].
    by intros [[_ ->]|[? _]].
  - rewrite lookup_insert_ne by done.
    rewrite palette_lookup by apply sorted_set_NoDup. split; [by right|].
    by intros [[? _]|[_ ?]].
Qed.

Lemma gantt_bar_total schedule s :
  s ∈ schedule →
  ∃ b, gantt_bar (color_map schedule) s = Some b
       ∧ color_map schedule !! seg_pid s = Some (bar_color b)
       ∧ bar_left b = start_time s ∧ bar_width b = duration s.
Proof.
  intros Hs. unfold gantt_bar.
  destruct (color_map schedule !! seg_pid s) as [c|] eqn:Hc; [by eauto|].
  exfalso. destruct (decide (seg_pid s = Idle)) as [Hi|Hi].
  - assert (color_map schedule !! seg_pid s = Some LightGray) as Hc'
      by (apply color_map_lookup; by left). congruence.
  - assert (seg_pid s ∈ process_ids schedule) as Hin
      by (apply elem_of_process_ids; eauto).
    apply list_elem_of_lookup in Hin as [i Hin].
    assert (color_map schedule !! seg_pid s = Some (Palette i)) as Hc'
      by (apply color_map_lookup; right; eauto). congruence.
Qed.

Lemma gantt_chart_colors_exists schedule :
  ∃ c, create_gantt_chart schedule = Return c
       ∧ Forall2 (λ s b, gantt_bar (color_map schedule) s = Some b)
                 schedule (chart_bars c).
Proof.
  assert (is_Some (mapM (gantt_bar (color_map schedule)) schedule)) as [bars Hm].
  { apply mapM_is_Some. apply Forall_forall. intros s Hs.
    destruct (gantt_bar_total schedule s Hs) as (b & Hb & _).
    change (is_Some (gantt_bar (color_map schedule) s)). by rewrite Hb. }
  unfold create_gantt_chart. rewrite Hm. eexists. split; [done|].
  by apply mapM_Some.
Qed.


Lemma tiles_boundaries t0 l t1 :
  tiles t0 l t1 → StronglySorted Z.lt (t0 :: (end_time <$> l)).
Proof.
  revert t0. induction l as [|s l IH]; intros t0 Ht; simpl in *.
  - repeat constructor.
  - destruct Ht as (Hs & Hlt & Ht). specialize (IH _ Ht).
    constructor; [done|]. apply StronglySorted_inv in IH as [_ Hall].
    constructor; [lia|]. eapply Forall_impl; [exact Hall|]. simpl. intros; lia.
Qed.

Lemma tiles_times t0 l t1 x :
  tiles t0 l t1 → l ≠ [] →
  x ∈ flat_map (λ proc, [start_time proc; end_time proc]) l
  ↔ x ∈ t0 :: (end_time <$> l).
Proof.
  revert t0. induction l as [|s l IH]; intros t0 Ht Hne; [done|].
  simpl in *. destruct Ht as (Hs & Hlt & Ht).
  rewrite !elem_of_cons. destruct l as [|s' l].
  - simpl. rewrite elem_of_nil. rewrite Hs. tauto.
  - rewrite (IH _ Ht) by done. rewrite !elem_of_cons. rewrite Hs. tauto.
Qed.

Lemma StronglySorted_lt_NoDup (l : list Z) : StronglySorted Z.lt l → NoDup l.
Proof.
  induction 1 as [|x l _ IH Hall]; constructor; [|done].
  intros Hx. rewrite Forall_forall in Hall. specialize (Hall x Hx). lia.
Qed.

Lemma StronglySorted_lt_leb (l : list Z) :
  StronglySorted Z.lt l → Sorted (λ a b, (a <=? b) = true) l.
Proof.
  induction 1 as [|x l _ IH Hall]; constructor; [done|].
  destruct Hall as [|y l Hy _]; constructor. apply Z.leb_le. lia.
Qed.

Lemma x_ticks_tiles schedule t0 t1 :
  tiles t0 schedule t1 → schedule ≠ [] →
  x_ticks schedule = t0 :: (end_time <$> schedule).
Proof.
  intros Ht Hne. unfold x_ticks. pose proof (tiles_boundaries _ _ _ Ht) as Hs.
  apply sorted_set_unique.
  - intros x y. rewrite !Z.leb_le. lia.
  - intros x y z. rewrite !Z.leb_le. lia.
  - intros x y. rewrite !Z.leb_le. lia.
  - by apply StronglySorted_lt_NoDup.
  - by apply StronglySorted_lt_leb.
  - intros x. symmetry. by apply (tiles_times t0 schedule t1).
Qed.

(** X19. For every schedule that tiles the time from [t0] to [t1], as the
    schedules of the entry points do from 0, the chart has a tick at [t0]
    and at the end of every segment, in this order and nowhere else, so one
    more tick than the schedule has segments; and every bar carries the
    label of its segment. *)
Theorem gantt_chart_ticks (schedule : list Segment) (t0 t1 : Z) :
  tiles t0 schedule t1 →
  schedule ≠ [] →
  ∃ c, create_gantt_chart schedule = Return c
       ∧ chart_xticks c = t0 :: (end_time <$> schedule)
       ∧ Forall2 (λ s b, bar_text b = Some (seg_pid s)) schedule (chart_bars c).
Proof.
  intros Ht Hne. destruct (gantt_chart_colors_exists schedule) as (c & Hc & Hbars).
  exists c. split; [done|].
  unfold create_gantt_chart in Hc.
  destruct (mapM _ schedule) as [bars|] eqn:Hm; [|done]. simplify_eq. simpl.
  split.
  - by apply (x_ticks_tiles schedule t0 t1).
  - apply mapM_Some in Hm.
    apply Forall2_same_length_lookup. split; [by eapply Forall2_length|].
    intros k s b Hs Hb.
    pose proof (Forall2_lookup_lr _ _ _ _ _ _ Hm Hs Hb) as Hg.
    unfold gantt_bar in Hg. destruct (color_map schedule !! seg_pid s); [|done].
    simplify_eq. simpl. rewrite decide_True; [done|].
    apply list_elem_of_lookup_2 in Hs.
    destruct (tiles_bounds _ _ _ _ Ht Hs) as (_ & Hlt & _). unfold duration. lia.
Qed.

Definition ex_schedule : list Segment :=
  [mkSegment "P1" 0 5; mkSegment "Idle" 5 6; mkSegment "P2" 6 9].

Lemma ex_schedule_tiles : tiles 0 ex_schedule 9.
Proof. simpl. lia. Qed.

Lemma ex_schedule_nonempty : ex_schedule ≠ [].
Proof. done. Qed.

Lemma gantt_chart_ticks_witness :
  tiles 0 ex_schedule 9
  ∧ ex_schedule ≠ []
  ∧ ∃ c, create_gantt_chart ex_schedule = Return c
         ∧ chart_xticks c = 0 :: (end_time <$> ex_schedule)
         ∧ Forall2 (λ s b, bar_text b = Some (seg_pid s)) ex_schedule
                   (chart_bars c).
Proof.
  split; [exact ex_schedule_tiles|]. split; [exact ex_schedule_nonempty|].
  exact (gantt_chart_ticks ex_schedule 0 9 ex_schedule_tiles ex_schedule_nonempty).
Defined.

(** *** From the session to the chart *)

Lemma returns_from_agree {A : Type} (b1 b2 : nat) (run : nat → outcome A)
    (r1 r2 : A) :
  returns_from b1 run r1 → returns_from b2 run r2 → r1 = r2.
Proof.
  intros H1 H2. specialize (H1 (b1 `max` b2)%nat ltac:(lia)).
  specialize (H2 (b1 `max` b2)%nat ltac:(lia)). congruence.
Qed.

Lemma spelled_tiles t0 l :
  (∀ s, head l = Some s → start_time s = t0) →
  Forall (λ s, start_time s < end_time s) l →
  (∀ k s1 s2, l !! k = Some s1 → l !! Datatypes.S k = Some s2 →
              end_time s1 = start_time s2) →
  ∃ t1, tiles t0 l t1.
Proof.
  revert t0. induction l as [|s l IH]; intros t0 Hh Hf Hj; [by exists t0|].
  apply Forall_cons in Hf as [Hs Hf].
  destruct (IH (end_time s)) as [t1 Ht]; [|done| |].
  - intros s' Hs'. destruct l as [|x l]; simplify_eq/=.
    symmetry. by apply (Hj 0%nat s s').
  - intros k s1 s2 H1 H2. by apply (Hj (Datatypes.S k)).
  - exists t1. simpl. split_and!; [by apply Hh|done|done].
Qed.

Lemma tiling_tiles schedule :
  tiling schedule → schedule ≠ [] ∧ ∃ t1, tiles 0 schedule t1.
Proof.
  intros ((s & Hs & H0) & Hf & Hj). split; [by destruct schedule|].
  apply spelled_tiles; [|done|done]. intros s' Hs'. congruence.
Qed.

Lemma exec_time_pos p schedule :
  0 < exec_time p schedule → ∃ s, s ∈ schedule ∧ seg_pid s = p.
Proof.
  unfold exec_time. intros H.
  destruct (filter (λ s, seg_pid s = p) schedule) as [|s l] eqn:Hf;
    [unfold sum in H; simpl in H; lia|].
  assert (s ∈ filter (λ s, seg_pid s = p) schedule) as Hs by (rewrite Hf; left).
  apply list_elem_of_filter in Hs as [? ?]. eauto.
Qed.

(** The labels of a schedule that conserves the burst times and names only
    rows: the ids of the table. *)
Lemma process_ids_table processes schedule :
  valid processes → Idle ∉ pid <$> processes →
  conserved processes schedule → labelled_by processes schedule →
  process_ids schedule ≡ₚ pid <$> processes.
Proof.
  intros [Hv Hnd] Hidle Hc Hl.
  apply NoDup_Permutation; [apply sorted_set_NoDup|done|].
  intros x. rewrite elem_of_process_ids. split.
  - intros (Hx & s & Hs & <-). unfold labelled_by in Hl.
    rewrite Forall_forall in Hl. by destruct (Hl s Hs).
  - intros Hx. split; [by intros ->|].
    apply list_elem_of_fmap in Hx as (p & -> & Hp).
    apply exec_time_pos. rewrite (Hc p Hp).
    rewrite Forall_forall in Hv. by destruct (Hv p Hp).
Qed.

Lemma run_scheduler_rendered processes alg time_quantum preemptive :
  processes ≠ [] → valid processes → Idle ∉ pid <$> processes →
  1 ≤ time_quantum →
  ∃ r, returns_from (sjf_fuel processes + work_fuel processes)
         (λ fuel, run_scheduler fuel alg time_quantum preemptive processes)
         (Some r)
       ∧ rendered processes r ∧ labelled_by processes (fst r).
Proof.
  intros Hne Hv Hidle Hq.
  destruct (every_run_rendered processes time_quantum Hne Hv Hidle Hq)
    as (Hf & (rs & Hrs & Hs') & (rr & Hrr & Hr') & Hp).
  assert (length processes ≠ 0%nat) as Hlen by by destruct processes.
  unfold run_scheduler. destruct alg.
  - exists (fcfs processes).
    split_and!; [|done|apply fcfs_returned_labelled]. intros fuel _.
    by rewrite decide_False.
  - exists rs. split_and!; [|done|by eapply sjf_returned_labelled, Hrs].
    intros fuel Hfuel.
    rewrite decide_False by done. rewrite Hrs by lia. done.
  - exists rr. split_and!; [|done|by eapply rr_returned_labelled, Hrr].
    intros fuel Hfuel.
    rewrite decide_False by done. rewrite Hrr by lia. done.
  - destruct (Hp preemptive) as (rp & Hrp & Hp').
    exists rp. split_and!; [|done|by eapply ps_returned_labelled, Hrp].
    intros fuel Hfuel.
    rewrite decide_False by done. rewrite Hrp by lia. done.
Qed.

(** X20. Whatever table that is not empty a session has built, and whatever
    algorithm, mode and time quantum (at least 1) are selected, the run
    returns a schedule that [create_gantt_chart] draws without an error:
    the ticks are at 0 and at the end of every segment, and the legend
    shows each process of the table once, and ['Idle'], whether there is
    idle time or not. *)
Theorem session_chart (processes : list Process) (alg : algorithm)
    (time_quantum : Z) (preemptive : bool) :
  session processes →
  processes ≠ [] →
  1 ≤ time_quantum →
  ∃ r c, returns_from (sjf_fuel processes + work_fuel processes)
           (λ fuel, run_scheduler fuel alg time_quantum preemptive processes)
           (Some r)
         ∧ create_gantt_chart (fst r) = Return c
         ∧ chart_xticks c = 0 :: (end_time <$> fst r)
         ∧ chart_legend c ≡ₚ (pid <$> processes) ++ [Idle].
Proof.
  intros [Hn Hw]%session_rows Hne Hq.
  pose proof (from_widgets_valid _ Hn Hw) as Hv.
  pose proof (numbered_not_Idle _ Hn) as Hidle.
  destruct (run_scheduler_rendered processes alg time_quantum preemptive
              Hne Hv Hidle Hq) as (r & Hr & (Ht & Hc & _) & Hl).
  destruct (tiling_tiles _ Ht) as (Hne' & t1 & Ht1).
  destruct (gantt_chart_colors_exists (fst r)) as (c & Hchart & _).
  exists r, c. split_and!; [done|done|..].
  - unfold create_gantt_chart in Hchart.
    destruct (mapM _ (fst r)); simplify_eq. simpl.
    by apply (x_ticks_tiles _ 0 t1).
  - unfold create_gantt_chart in Hchart.
    destruct (mapM _ (fst r)); simplify_eq. simpl. unfold legend.
    by rewrite process_ids_table.
Qed.

Lemma ex_session_nonempty : ex_session ≠ [].
Proof. done. Qed.

Lemma session_chart_witness :
  session ex_session
  ∧ ex_session ≠ []
  ∧ 1 ≤ 2
  ∧ ∃ r c, returns_from (sjf_fuel ex_session + work_fuel ex_session)
             (λ fuel, run_scheduler fuel Priority 2 true ex_session) (Some r)
           ∧ create_gantt_chart (fst r) = Return c
           ∧ chart_xticks c = 0 :: (end_time <$> fst r)
           ∧ chart_legend c ≡ₚ (pid <$> ex_session) ++ [Idle].
Proof.
  assert (1 ≤ 2) as H2 by lia.
  split; [exact ex_session_built|]. split; [exact ex_session_nonempty|].
  split; [exact H2|].
  exact (session_chart ex_session Priority 2 true ex_session_built
           ex_session_nonempty H2).
Defined.

(** *** [display_schedule_timeline] *)

(** Strings are taken as sequences of code points below 256. *)

(** [c in s]. *)
Fixpoint contains (c : ascii) (s : string) : Prop :=
  match s with
  | EmptyString => False
  | String c' s' => c' = c ∨ contains c s'
  end.

(** [s.split(sep)] for a separator of one character: the pieces between the
    separators, at least one. *)
Fixpoint split (sep : ascii) (s : string) : list string :=
  match s with
  | EmptyString => [EmptyString]
  | String c s' =>
      if decide (c = sep) then EmptyString :: split sep s'
      else match split sep s' with
           | piece :: pieces => String c piece :: pieces
           | [] => [String c EmptyString]
           end
  end.

(** The characters that [int] strips: [str.isspace]. *)
Definition is_space (c : ascii) : bool :=
  let n := nat_of_ascii c in
  ((9 <=? n) && (n <=? 13) || (28 <=? n) && (n <=? 32)
   || (n =? 133) || (n =? 160))%nat.

Definition digit_of (c : ascii) : option Z :=
  let n := nat_of_ascii c in
  if ((48 <=? n) && (n <=? 57))%nat then Some (Z.of_nat n - 48) else None.

Fixpoint lstrip (s : string) : string :=
  match s with
  | EmptyString => EmptyString
  | String c s' => if is_space c then lstrip s' else s
  end.

Fixpoint rstrip (s : string) : string :=
  match s with
  | EmptyString => EmptyString
  | String c s' =>
      match rstrip s' with
      | EmptyString => if is_space c then EmptyString else String c EmptyString
      | r => String c r
      end
  end.

(** The digits of a decimal literal, with single underscores between
    digits; [after_digit] tells whether the last character was a digit. *)
Fixpoint digits (acc : Z) (after_digit : bool) (s : string) : option Z :=
  match s with
  | EmptyString => if after_digit then Some acc else None
  | String c s' =>
      match digit_of c with
      | Some d => digits (10 * acc + d) true s'
      | None =>
          if decide (c = "_"%char) then
            if after_digit then digits acc false s' else None
          else None
      end
  end.

(** [int(s)] for a string: white space around, a sign, decimal digits.
    [None] stands for ValueError. *)
Definition py_int (s : string) : option Z :=
  match rstrip (lstrip s) with
  | EmptyString => None
  | String c s' =>
      if decide (c = "+"%char) then digits 0 false s'
      else if decide (c = "-"%char) then Z.opp <$> digits 0 false s'
      else digits 0 false (String c s')
  end.

(** [f"{pid}:{start}-{end}"]. *)
Definition timeline_part (pid : string) (span : Z * Z) : string :=
  pid +:+ ":" +:+ pretty span.1 +:+ "-" +:+ pretty span.2.

(** [int(x.split(':')[1].split('-')[0])]. *)
Definition sort_key (x : string) : outcome Z :=
  match split ":" x !! 1%nat with
  | None => Raise "IndexError"
  | Some y =>
      match split "-" y !! 0%nat with
      | None => Raise "IndexError"
      | Some z =>
          match py_int z with
          | Some k => Return k
          | None => Raise "ValueError"
          end
      end
  end.

(** The keys of the elements, computed in turn; the first error ends it. *)
Fixpoint sort_keys (parts : list string) : outcome (list Z) :=
  match parts with
  | [] => Return []
  | x :: rest =>
      match sort_key x with
      | Return k => map_outcome (cons k) (sort_keys rest)
      | Raise e => Raise e
      | Spin => Spin
      | Unbounded => Unbounded
      end
  end.

(** [parts.sort(key=...)]: the keys are computed first, then the elements
    are sorted by them, elements with the same key keeping their order. *)
Definition sort_parts (parts : list string) : outcome (list string) :=
  map_outcome
    (λ keys, snd <$> sort_by (λ a b, fst a <=? fst b) (zip keys parts))
    (sort_keys parts).

(** [process_timelines]: a dict keeps its keys in the order in which they
    were put in. *)
Fixpoint timeline_append (pid : string) (span : Z * Z)
    (d : list (string * list (Z * Z))) : list (string * list (Z * Z)) :=
  match d with
  | [] => [(pid, [span])]
  | (k, spans) :: d' =>
      if decide (k = pid) then (k, spans ++ [span]) :: d'
      else (k, spans) :: timeline_append pid span d'
  end.

Definition process_timelines (schedule : list Segment)
    : list (string * list (Z * Z)) :=
  fold_left (λ d proc,
               timeline_append (seg_pid proc) (start_time proc, end_time proc) d)
            schedule [].

Definition timeline_parts (d : list (string * list (Z * Z))) : list string :=
  flat_map (λ entry, if decide (entry.1 ≠ Idle)
                     then timeline_part entry.1 <$> entry.2 else [])
           d.

(** A line of the detailed timeline. *)
Definition detailed_line (proc : Segment) : string :=
  if decide (seg_pid proc = Idle)
  then "Time " +:+ pretty (start_time proc) +:+ " - " +:+ pretty (end_time proc)
       +:+ ": CPU Idle (" +:+ pretty (duration proc) +:+ " time units)"
  else "Time " +:+ pretty (start_time proc) +:+ " - " +:+ pretty (end_time proc)
       +:+ ": Process " +:+ seg_pid proc +:+ " executing ("
       +:+ pretty (duration proc) +:+ " time units)".

(** What [st.write] is given before the parts are sorted: the headings and
    the lines of the detailed timeline. *)
Definition timeline_lines (schedule : list Segment) : list string :=
  ["**Process Execution Timeline:**"; "**Detailed Timeline:**"]
  ++ (detailed_line <$> schedule)
  ++ ["**Process Execution Timeline (Concise Format):**"].

(** [display_schedule_timeline]: the lines that are written first, and then
    the concise timeline that [st.code] is given, or the error of the
    sort. *)
Definition display_schedule_timeline (schedule : list Segment)
    : list string * outcome string :=
  (timeline_lines schedule,
   map_outcome (String.concat ",")
               (sort_parts (timeline_parts (process_timelines schedule)))).

(** The part of a segment. *)
Definition segment_part (proc : Segment) : string :=
  timeline_part (seg_pid proc) (start_time proc, end_time proc).

Example display_schedule_timeline_example :
  display_schedule_timeline
    [mkSegment "P1" 0 3; mkSegment "P2" 3 7; mkSegment "Idle" 7 8;
     mkSegment "P1" 8 15]
  = (["**Process Execution Timeline:**"; "**Detailed Timeline:**";
      "Time 0 - 3: Process P1 executing (3 time units)";
      "Time 3 - 7: Process P2 executing (4 time units)";
      "Time 7 - 8: CPU Idle (1 time units)";
      "Time 8 - 15: Process P1 executing (7 time units)";
      "**Process Execution Timeline (Concise Format):**"],
     Return "P1:0-3,P2:3-7,P1:8-15")
  ∧ timeline_parts
      (process_timelines
         [mkSegment "P1" 0 3; mkSegment "P2" 3 7; mkSegment "Idle" 7 8;
          mkSegment "P1" 8 15])
    = ["P1:0-3"; "P1:8-15"; "P2:3-7"]
  ∧ sort_key "a:b:3-4" = Raise "ValueError"
  ∧ sort_key "P1:-3-5" = Raise "ValueError"
  ∧ py_int " 1_000 " = Some 1000.
Proof. split_and!; vm_compute; reflexivity. Qed.

Lemma contains_app c a b : contains c (a +:+ b) ↔ contains c a ∨ contains c b.
Proof. induction a as [|x a IH]; simpl; [tauto|]. rewrite IH. tauto. Qed.

Lemma split_no_sep sep s : ¬ contains sep s → split sep s = [s].
Proof.
  induction s as [|c s IH]; simpl; [done|]. intros H.
  rewrite decide_False by tauto. rewrite IH by tauto. done.
Qed.

Lemma split_app sep a b :
  ¬ contains sep a → split sep (a +:+ String sep b) = a :: split sep b.
Proof.
  induction a as [|c a IH]; simpl; intros H.
  - by rewrite decide_True.
  - rewrite decide_False by tauto. rewrite IH by tauto. done.
Qed.

(** The characters of a decimal numeral. *)
Definition digit_string (s : string) : Prop :=
  ∀ c, contains c s → is_Some (digit_of c).

Lemma digit_of_range c d :
  digit_of c = Some d → (48 ≤ nat_of_ascii c ≤ 57)%nat.
Proof.
  unfold digit_of. destruct (48 <=? nat_of_ascii c)%nat eqn:H1; [|done].
  destruct (nat_of_ascii c <=? 57)%nat eqn:H2; [|done]. intros _.
  apply Nat.leb_le in H1, H2. lia.
Qed.

Lemma digit_not c c' d :
  digit_of c = Some d → (nat_of_ascii c' < 48 ∨ 57 < nat_of_ascii c')%nat →
  c ≠ c'.
Proof. intros Hd%digit_of_range Hc ->. lia. Qed.

Lemma digit_not_space c d : digit_of c = Some d → is_space c = false.
Proof.
  intros Hd%digit_of_range. unfold is_space. cbv zeta.
  repeat match goal with
         | |- context [(?a <=? ?b)%nat] => destruct (Nat.leb_spec a b)
         | |- context [(?a =? ?b)%nat] => destruct (Nat.eqb_spec a b)
         end; simpl; try done; lia.
Qed.

Lemma pretty_N_char_digit x :
  (x < 10)%N → digit_of (pretty_N_char x) = Some (Z.of_N x).
Proof.
  intros Hx.
  assert (x = 0 ∨ x = 1 ∨ x = 2 ∨ x = 3 ∨ x = 4 ∨ x = 5 ∨ x = 6 ∨ x = 7
          ∨ x = 8 ∨ x = 9)%N as H by lia.
  repeat (destruct H as [->|H]; [reflexivity|]). by subst.
Qed.

Lemma pretty_N_go_digits x s : digit_string s → digit_string (pretty_N_go x s).
Proof.
  revert s. induction (N.lt_wf_0 x) as [x _ IH]; intros s Hs.
  assert (x = 0 ∨ 0 < x)%N as [->|Hx] by lia; [by rewrite pretty_N_go_0|].
  rewrite pretty_N_go_step by done. apply IH; [by apply N.div_lt|].
  intros c [<-|Hc]; [|by apply Hs].
  rewrite pretty_N_char_digit; [done|]. by apply N.mod_lt.
Qed.

Lemma pretty_N_digits (x : N) : digit_string (pretty x).
Proof.
  unfold pretty, pretty_N. case_decide.
  - intros c [<-|[]]. done.
  - apply pretty_N_go_digits. by intros c [].
Qed.

(** Reading the numeral of a number gives the number. *)
Lemma digits_pretty_N_go x acc b :
  (0 < x)%N →
  ∃ acc', (acc = 0 → acc' = Z.of_N x)
          ∧ ∀ s, digits acc b (pretty_N_go x s) = digits acc' true s.
Proof.
  revert acc b. induction (N.lt_wf_0 x) as [x _ IH]; intros acc b Hx.
  assert (x `mod` 10 < 10)%N as Hm by by apply N.mod_lt.
  pose proof (N.div_mod x 10 ltac:(done)) as Hdm.
  assert (x `div` 10 = 0 ∨ 0 < x `div` 10)%N as [Hz|Hp] by lia.
  - exists (10 * acc + Z.of_N (x `mod` 10)). split; [lia|]. intros s.
    rewrite pretty_N_go_step, Hz, pretty_N_go_0 by done. simpl.
    by rewrite pretty_N_char_digit.
  - destruct (IH (x `div` 10)%N ltac:(by apply N.div_lt) acc b Hp)
      as (acc1 & Hacc1 & Hd).
    exists (10 * acc1 + Z.of_N (x `mod` 10)). split.
    + intros H0. rewrite (Hacc1 H0). lia.
    + intros s. rewrite pretty_N_go_step, Hd by done. simpl.
      by rewrite pretty_N_char_digit.
Qed.

Lemma strip_digits s : digit_string s → rstrip (lstrip s) = s.
Proof.
  intros Hs.
  assert (lstrip s = s) as ->.
  { destruct s as [|c s]; [done|]. simpl.
    destruct (Hs c) as [d Hd]; [by left|]. by rewrite (digit_not_space c d). }
  induction s as [|c s IH]; [done|]. simpl.
  rewrite IH by (intros c' Hc'; apply Hs; by right).
  destruct (Hs c) as [d Hd]; [by left|]. rewrite (digit_not_space c d) by done.
  by destruct s.
Qed.

Lemma py_int_pretty_N (x : N) : py_int (pretty x) = Some (Z.of_N x).
Proof.
  unfold py_int. rewrite strip_digits by apply pretty_N_digits.
  pose proof (pretty_N_digits x) as Hd.
  unfold pretty, pretty_N in *. case_decide as Hx; [by subst|].
  destruct (digits_pretty_N_go x 0 false ltac:(lia)) as (acc' & Hacc & Hp).
  destruct (pretty_N_go x "") as [|c s] eqn:Hs.
  - specialize (Hp ""). rewrite Hs in Hp. done.
  - destruct (Hd c) as [d Hc]; [by left|].
    rewrite decide_False by (eapply digit_not; [done|]; vm_compute; lia).
    rewrite decide_False by (eapply digit_not; [done|]; vm_compute; lia).
    rewrite <- Hs, Hp. simpl. by rewrite Hacc.
Qed.

Lemma pretty_Z_nonneg (z : Z) : 0 ≤ z → pretty z = pretty (Z.to_N z).
Proof. intros Hz. by destruct z. Qed.

Lemma py_int_pretty (z : Z) : 0 ≤ z → py_int (pretty z) = Some z.
Proof.
  intros Hz. rewrite pretty_Z_nonneg, py_int_pretty_N by done.
  f_equal. lia.
Qed.

Lemma pretty_Z_chars (z : Z) c :
  contains c (pretty z) → c = "-"%char ∨ is_Some (digit_of c).
Proof.
  destruct z as [|p|p].
  - intros [<-|[]]. by right.
  - intros Hc. right. by apply (pretty_N_digits (Npos p)).
  - intros [<-|Hc]; [by left|]. right. by apply (pretty_N_digits (Npos p)).
Qed.

Lemma pretty_Z_no_colon (z : Z) : ¬ contains ":"%char (pretty z).
Proof.
  intros [?|[d Hd]]%pretty_Z_chars; [done|]. by vm_compute in Hd.
Qed.

Lemma pretty_nonneg_no_dash (z : Z) : 0 ≤ z → ¬ contains "-"%char (pretty z).
Proof.
  intros Hz. rewrite pretty_Z_nonneg by done.
  intros [d Hd]%pretty_N_digits. by vm_compute in Hd.
Qed.

Lemma timeline_part_eq pid span :
  timeline_part pid span
  = pid +:+ String ":" (pretty span.1 +:+ String "-" (pretty span.2)).
Proof. done. Qed.

(** The key of a part is the start time that is printed in it. *)
Lemma sort_key_part pid span :
  ¬ contains ":"%char pid → 0 ≤ span.1 →
  sort_key (timeline_part pid span) = Return span.1.
Proof.
  intros Hpid Hstart. unfold sort_key. rewrite timeline_part_eq.
  rewrite split_app by done. rewrite split_no_sep.
  - simpl. rewrite split_app by by apply pretty_nonneg_no_dash.
    simpl. by rewrite py_int_pretty.
  - rewrite contains_app. simpl.
    pose proof (pretty_Z_no_colon span.1). pose proof (pretty_Z_no_colon span.2).
    intros [?|[?|?]]; done.
Qed.

Lemma timeline_parts_cons k spans d :
  timeline_parts ((k, spans) :: d)
  = (if decide (k ≠ Idle) then timeline_part k <$> spans else [])
    ++ timeline_parts d.
Proof. done. Qed.

(** A new span adds one part, wherever its process is in the dict. *)
Lemma timeline_parts_append pid span d :
  timeline_parts (timeline_append pid span d)
  ≡ₚ timeline_parts d
     ++ if decide (pid ≠ Idle) then [timeline_part pid span] else [].
Proof.
  induction d as [|[k spans] d IH].
  - simpl. by rewrite app_nil_r.
  - cbn [timeline_append]. destruct (decide (k = pid)) as [->|Hk].
    + rewrite !timeline_parts_cons. destruct (decide (pid ≠ Idle)).
      * rewrite fmap_app. simpl. rewrite <- !app_assoc.
        apply Permutation_app_head, Permutation_app_comm.
      * by rewrite app_nil_r.
    + rewrite !timeline_parts_cons, IH. by rewrite app_assoc.
Qed.

(** The parts, before they are sorted: the segments of the processes, in
    some order. *)
Lemma timeline_parts_schedule schedule :
  timeline_parts (process_timelines schedule)
  ≡ₚ segment_part <$> filter (λ s, seg_pid s ≠ Idle) schedule.
Proof.
  induction schedule as [|s l IH] using rev_ind; [done|].
  unfold process_timelines. rewrite fold_left_app. simpl.
  fold (process_timelines l). rewrite timeline_parts_append, IH.
  rewrite filter_app, fmap_app. apply Permutation_app_head.
  rewrite filter_cons, filter_nil. by case_decide.
Qed.

Lemma sort_keys_Return (key : string → Z) parts :
  (∀ x, x ∈ parts → sort_key x = Return (key x)) →
  sort_keys parts = Return (key <$> parts).
Proof.
  induction parts as [|x parts IH]; intros H; [done|]. simpl.
  rewrite (H x) by left. rewrite IH; [done|]. intros y Hy. apply H. by right.
Qed.

Lemma zip_fmap_l {A B} (f : A → B) (l : list A) :
  zip (f <$> l) l = (λ x, (f x, x)) <$> l.
Proof. induction l as [|x l IH]; [done|]. simpl. f_equal. exact IH. Qed.

Lemma tiles_starts t0 l t1 :
  tiles t0 l t1 → StronglySorted (λ a b, start_time a < start_time b) l.
Proof.
  revert t0. induction l as [|s l IH]; intros t0 Ht; [constructor|].
  simpl in Ht. destruct Ht as (Hs & Hlt & Ht). constructor; [by eapply IH|].
  apply Forall_forall. intros s' Hs'.
  destruct (tiles_bounds _ _ _ _ Ht Hs') as (? & _). lia.
Qed.

Lemma StronglySorted_start_inj l s1 s2 :
  StronglySorted (λ a b, start_time a < start_time b) l →
  s1 ∈ l → s2 ∈ l → start_time s1 = start_time s2 → s1 = s2.
Proof.
  intros Hs [i Hi]%list_elem_of_lookup [j Hj]%list_elem_of_lookup Heq.
  destruct (Nat.lt_trichotomy i j) as [Hij|[->|Hij]]; [|congruence|].
  - pose proof (StronglySorted_lookup_lt _ _ _ _ _ _ Hs Hij Hi Hj) as H.
    simpl in H. lia.
  - pose proof (StronglySorted_lookup_lt _ _ _ _ _ _ Hs Hij Hj Hi) as H.
    simpl in H. lia.
Qed.

(** Sorting by a key leaves a list as it is when its keys are increasing. *)
Lemma sort_parts_sorted busy :
  StronglySorted (λ a b, start_time a < start_time b) busy →
  (∀ s, s ∈ busy → sort_key (segment_part s) = Return (start_time s)) →
  ∀ parts, parts ≡ₚ segment_part <$> busy →
           sort_parts parts = Return (segment_part <$> busy).
Proof.
  intros Hsorted Hkey parts Hperm.
  set (key := λ x, match sort_key x with Return k => k | _ => 0 end).
  assert (∀ s, s ∈ busy → key (segment_part s) = start_time s) as Hk.
  { intros s Hs. unfold key. by rewrite Hkey. }
  unfold sort_parts. rewrite (sort_keys_Return key).
  2:{ intros x Hx. rewrite Hperm in Hx.
      apply list_elem_of_fmap in Hx as (s & -> & Hs).
      by rewrite Hkey, Hk. }
  simpl. f_equal. rewrite zip_fmap_l.
  set (R := λ a b : Z * string, (fst a <=? fst b) = true).
  set (target := (λ s, (start_time s, segment_part s)) <$> busy).
  assert ((λ x, (key x, x)) <$> parts ≡ₚ target) as Hdec.
  { rewrite Hperm. unfold target. rewrite <- list_fmap_compose.
    assert (((λ x, (key x, x)) ∘ segment_part) <$> busy
            = (λ s, (start_time s, segment_part s)) <$> busy) as ->; [|done].
    apply list_fmap_ext. intros i s Hs%list_elem_of_lookup_2. simpl.
    by rewrite Hk. }
  assert (Transitive R) as Htrans.
  { intros a b c. unfold R. rewrite !Z.leb_le. lia. }
  assert (sort_by (λ a b, fst a <=? fst b) ((λ x, (key x, x)) <$> parts) = target)
    as ->.
  { apply (Sorted_unique_strong R).
    - intros x1 x2 Hx1 Hx2 H12 H21. unfold R in H12, H21.
      rewrite Z.leb_le in H12, H21.
      rewrite sort_by_Permutation, Hdec in Hx1.
      apply list_elem_of_fmap in Hx1 as (s1 & -> & Hs1).
      apply list_elem_of_fmap in Hx2 as (s2 & -> & Hs2). simpl in *.
      by rewrite (StronglySorted_start_inj busy s1 s2) by (done || lia).
    - apply (sort_by_Sorted (λ a b, fst a <=? fst b)).
      intros x y. rewrite !Z.leb_le. lia.
    - apply StronglySorted_Sorted. unfold target.
      apply (StronglySorted_fmap _ (λ a b, start_time a < start_time b)); [|done].
      intros a b Hab. unfold R. simpl. apply Z.leb_le. lia.
    - by rewrite sort_by_Permutation. }
  unfold target. rewrite <- list_fmap_compose. done.
Qed.

Lemma timeline_in_schedule_order_tiles (schedule : list Segment) (t1 : Z) :
  tiles 0 schedule t1 →
  (∀ s, s ∈ schedule → ¬ contains ":"%char (seg_pid s)) →
  display_schedule_timeline schedule
  = (timeline_lines schedule,
     Return (String.concat ","
               (segment_part <$> filter (λ s, seg_pid s ≠ Idle) schedule))).
Proof.
  intros Ht Hcolon. unfold display_schedule_timeline. f_equal.
  rewrite (sort_parts_sorted (filter (λ s, seg_pid s ≠ Idle) schedule)); [done|..].
  - apply StronglySorted_filter. by eapply tiles_starts.
  - intros s [_ Hs]%list_elem_of_filter. apply sort_key_part; [by apply Hcolon|].
    simpl. destruct (tiles_bounds _ _ _ _ Ht Hs) as (? & _). done.
  - apply timeline_parts_schedule.
Qed.

(** X21. For every schedule that tiles the time from 0 on and has no colon
    in a label, [display_schedule_timeline] writes one line for each
    segment, between its headings, and then the concise timeline without an
    error: the parts
    [pid:start-end] of the segments that are not idle time, in the order of
    the schedule, with commas between them.  The parts are collected process
    by process; reading the start time back from each part and sorting by it
    restores the order of the schedule. *)
Theorem timeline_in_schedule_order (schedule : list Segment) (t1 : Z) :
  tiles 0 schedule t1 →
  (∀ s, s ∈ schedule → ¬ contains ":"%char (seg_pid s)) →
  display_schedule_timeline schedule
  = (timeline_lines schedule,
     Return (String.concat ","
               (segment_part <$> filter (λ s, seg_pid s ≠ Idle) schedule))).
Proof.
  intros Ht Hcolon. unfold display_schedule_timeline. f_equal.
  assert (∀ s, s ∈ schedule → 0 ≤ start_time s) as Hstart.
  { intros s Hs. by destruct (tiles_bounds _ _ _ _ Ht Hs) as (? & _). }
  rewrite (sort_parts_sorted (filter (λ s, seg_pid s ≠ Idle) schedule)); [done|..].
  - apply StronglySorted_filter. by eapply tiles_starts.
  - intros s [_ Hs]%list_elem_of_filter.
    apply sort_key_part; [by apply Hcolon|by apply Hstart].
  - apply timeline_parts_schedule.
Qed.

Lemma ex_schedule_no_colon :
  ∀ s, s ∈ ex_schedule → ¬ contains ":"%char (seg_pid s).
Proof.
  intros s Hs. unfold ex_schedule in Hs.
  repeat (apply elem_of_cons in Hs as [->|Hs]; [simpl; intuition discriminate|]).
  by apply elem_of_nil in Hs.
Qed.

Lemma timeline_in_schedule_order_witness :
  tiles 0 ex_schedule 9
  ∧ (∀ s, s ∈ ex_schedule → ¬ contains ":"%char (seg_pid s))
  ∧ display_schedule_timeline ex_schedule
    = (timeline_lines ex_schedule,
       Return (String.concat ","
                 (segment_part <$> filter (λ s, seg_pid s ≠ Idle) ex_schedule))).
Proof.
  split; [exact ex_schedule_tiles|]. split; [exact ex_schedule_no_colon|].
  exact (timeline_in_schedule_order ex_schedule 9 ex_schedule_tiles
           ex_schedule_no_colon).
Defined.

Lemma pid_of_no_colon k : ¬ contains ":"%char (pid_of k).
Proof.
  unfold pid_of. rewrite contains_app. intros [[?|[]]|Hc]; [done|].
  apply (pretty_N_digits (N.of_nat k)) in Hc as [d Hd]. by vm_compute in Hd.
Qed.

Lemma labelled_no_colon processes schedule :
  numbered processes → labelled_by processes schedule →
  ∀ s, s ∈ schedule → ¬ contains ":"%char (seg_pid s).
Proof.
  intros Hn Hl s Hs. unfold labelled_by in Hl. rewrite Forall_forall in Hl.
  destruct (Hl s Hs) as [->|Hp].
  - simpl. intuition discriminate.
  - apply list_elem_of_fmap in Hp as (p & -> & Hp).
    apply list_elem_of_lookup in Hp as [k Hk]. rewrite (Hn k p Hk).
    apply pid_of_no_colon.
Qed.

(** X22. Whatever table that is not empty a session has built, and whatever
    algorithm, mode and time quantum (at least 1) are selected, the run
    returns a schedule for which [display_schedule_timeline] ends without an
    error, and its concise timeline lists the segments of the processes in
    the order of the schedule. *)
Theorem session_timeline (processes : list Process) (alg : algorithm)
    (time_quantum : Z) (preemptive : bool) :
  session processes →
  processes ≠ [] →
  1 ≤ time_quantum →
  ∃ r, returns_from (sjf_fuel processes + work_fuel processes)
         (λ fuel, run_scheduler fuel alg time_quantum preemptive processes)
         (Some r)
       ∧ display_schedule_timeline (fst r)
         = (timeline_lines (fst r),
            Return (String.concat ","
                      (segment_part
                         <$> filter (λ s, seg_pid s ≠ Idle) (fst r)))).
Proof.
  intros [Hn Hw]%session_rows Hne Hq.
  pose proof (from_widgets_valid _ Hn Hw) as Hv.
  pose proof (numbered_not_Idle _ Hn) as Hidle.
  destruct (run_scheduler_rendered processes alg time_quantum preemptive
              Hne Hv Hidle Hq) as (r & Hr & (Ht & _ & _) & Hl).
  destruct (tiling_tiles _ Ht) as (_ & t1 & Ht1).
  exists r. split; [done|].
  apply (timeline_in_schedule_order_tiles _ t1 Ht1).
  by eapply labelled_no_colon.
Qed.

Lemma session_timeline_witness :
  session ex_session
  ∧ ex_session ≠ []
  ∧ 1 ≤ 2
  ∧ ∃ r, returns_from (sjf_fuel ex_session + work_fuel ex_session)
           (λ fuel, run_scheduler fuel RR 2 false ex_session) (Some r)
         ∧ display_schedule_timeline (fst r)
           = (timeline_lines (fst r),
              Return (String.concat ","
                        (segment_part
                           <$> filter (λ s, seg_pid s ≠ Idle) (fst r)))).
Proof.
  assert (1 ≤ 2) as H2 by lia.
  split; [exact ex_session_built|]. split; [exact ex_session_nonempty|].
  split; [exact H2|].
  exact (session_timeline ex_session RR 2 false ex_session_built
           ex_session_nonempty H2).
Defined.

(** *** The errors of the sort *)

Lemma split_second sep a b : is_Some (split sep (a +:+ String sep b) !! 1%nat).
Proof.
  induction a as [|c a IH]; simpl.
  - rewrite decide_True by done. simpl. by destruct b; simpl; repeat case_match.
  - case_decide.
    + simpl. destruct (a +:+ String sep b); simpl; repeat case_match; done.
    + destruct (split sep (a +:+ String sep b)) as [|x [|y l]]; done.
Qed.

Lemma split_first sep s : is_Some (split sep s !! 0%nat).
Proof. destruct s; simpl; repeat case_match; done. Qed.

(** The key of a part is never an IndexError. *)
Lemma sort_key_outcome pid span :
  (∃ k, sort_key (timeline_part pid span) = Return k)
  ∨ sort_key (timeline_part pid span) = Raise "ValueError".
Proof.
  unfold sort_key. rewrite timeline_part_eq.
  destruct (split_second ":" pid (pretty span.1 +:+ String "-" (pretty span.2)))
    as [y ->].
  destruct (split_first "-" y) as [z ->].
  destruct (py_int z); eauto.
Qed.

Lemma sort_key_negative pid span :
  ¬ contains ":"%char pid → span.1 < 0 →
  sort_key (timeline_part pid span) = Raise "ValueError".
Proof.
  intros Hpid Hneg. unfold sort_key. rewrite timeline_part_eq.
  rewrite split_app by done. rewrite split_no_sep.
  - simpl. destruct span as [[|p|p] e]; simpl in *; try lia.
    done.
  - rewrite contains_app. simpl.
    pose proof (pretty_Z_no_colon span.1). pose proof (pretty_Z_no_colon span.2).
    intros [?|[?|?]]; done.
Qed.

Lemma sort_keys_ValueError parts x :
  (∀ y, y ∈ parts →
        (∃ k, sort_key y = Return k) ∨ sort_key y = Raise "ValueError") →
  x ∈ parts → sort_key x = Raise "ValueError" →
  sort_keys parts = Raise "ValueError".
Proof.
  induction parts as [|y parts IH]; intros Hall Hx Hk; [by apply elem_of_nil in Hx|].
  simpl. destruct (Hall y ltac:(left)) as [[k Hy]|Hy]; rewrite Hy; [|done].
  apply elem_of_cons in Hx as [->|Hx]; [congruence|].
  rewrite IH; [done| |done|done]. intros z Hz. apply Hall. by right.
Qed.

Lemma elem_of_timeline_parts d x :
  x ∈ timeline_parts d → ∃ pid span, x = timeline_part pid span.
Proof.
  unfold timeline_parts. intros ([pid spans] & Hd & Hx)%list_elem_of_In%in_flat_map.
  apply list_elem_of_In in Hx. simpl in Hx. case_decide; [|by apply elem_of_nil in Hx].
  apply list_elem_of_fmap in Hx as (span & -> & _). eauto.
Qed.

(** X23. [display_schedule_timeline] does not check the schedule: when a
    segment that is not idle time starts before 0 (and its label has no
    colon), the start time cannot be read back from its part, whose text
    after the colon begins with the sign, and the sort raises ValueError
    after the headings and the detailed lines have been written. *)
Theorem timeline_negative_start (schedule : list Segment) (s : Segment) :
  s ∈ schedule →
  seg_pid s ≠ Idle →
  ¬ contains ":"%char (seg_pid s) →
  start_time s < 0 →
  display_schedule_timeline schedule
  = (timeline_lines schedule, Raise "ValueError").
Proof.
  intros Hs Hidle Hcolon Hneg. unfold display_schedule_timeline. f_equal.
  unfold sort_parts.
  rewrite (sort_keys_ValueError _ (segment_part s)); [done| | |].
  - intros y (pid & span & ->)%elem_of_timeline_parts. apply sort_key_outcome.
  - rewrite timeline_parts_schedule. apply list_elem_of_fmap. exists s.
    split; [done|]. by apply list_elem_of_filter.
  - by apply sort_key_negative.
Qed.

Lemma timeline_negative_start_witness :
  mkSegment "P1" (-2) 3 ∈ [mkSegment "P1" (-2) 3]
  ∧ seg_pid (mkSegment "P1" (-2) 3) ≠ Idle
  ∧ ¬ contains ":"%char (seg_pid (mkSegment "P1" (-2) 3))
  ∧ start_time (mkSegment "P1" (-2) 3) < 0
  ∧ display_schedule_timeline [mkSegment "P1" (-2) 3]
    = (timeline_lines [mkSegment "P1" (-2) 3], Raise "ValueError").
Proof.
  assert (mkSegment "P1" (-2) 3 ∈ [mkSegment "P1" (-2) 3]) as H1 by left.
  assert (seg_pid (mkSegment "P1" (-2) 3) ≠ Idle) as H2 by done.
  assert (¬ contains ":"%char (seg_pid (mkSegment "P1" (-2) 3))) as H3
    by (simpl; intuition discriminate).
  assert (start_time (mkSegment "P1" (-2) 3) < 0) as H4 by (simpl; lia).
  split; [exact H1|]. split; [exact H2|]. split; [exact H3|].
  split; [exact H4|].
  exact (timeline_negative_start _ _ H1 H2 H3 H4).
Defined.
